(* ===== verification/_CoqProject ===== *)
-Q . S2P
Prelude.v
Ast.v
Tokenizer.v
Parser.v
Traverser.v
Transformer.v
CodeGenerator.v
Compiler.v
