(* ===== verification/Prelude.v ===== *)
(** * Verification of tiny-javascript-compiler

    The program (src/tiny-compiler.js) is a compiler in four stages from a
    parenthesised prefix-call language to a C-like call syntax:
    [(add 2 (subtract 4 2))] becomes [add(2, subtract(4, 2));].  The
    stages are plain functions, composed by [compiler]:

    - [tokenizer] (lines 6-81) turns the input string into an array of
      tokens, with one cursor and three inner loops;
    - [parser] (lines 83-144) turns the tokens into the source tree, by a
      recursive function [walk] over a shared cursor;
    - [traverser] (lines 146-184) walks a source tree depth first and
      calls the [enter] and [exit] methods a visitor has for each node;
    - [transformer] (lines 186-240) builds the target tree by running
      [traverser] with a visitor whose methods append to arrays reached
      through a [_context] property they attach to the nodes of the
      source tree;
    - [codeGenerator] (lines 242-271) prints the target tree;
    - [compiler] (lines 273-280) is the composition.

    ** The files

    - [Prelude] (this file): the exceptions, the [outcome] monad in which
      every function of the source is written, JavaScript strings with
      [undefined] for a read past the end, the lemmas and tactics the
      other files share, and the interface [Stage] between the stages
      and the pipeline: a function of the source, the reference
      definition it computes on the inputs that satisfy a precondition,
      and a postcondition of its result.  Each stage file ends with its
      instance; [Compiler] composes them with [stage_andthen].
    - [Ast]: the source tree [Src.node] and the target tree [Tgt.node],
      one constructor per tag the code tests for and [Other] for an
      object of any other tag, which carries the tag with the proof
      that the [switch] has no case for it ([Src.handled],
      [Tgt.handled]), so that the case analysis on a tree of the model
      is the dispatch of the code on [node.type]; the shape predicates
      [Src.program], [Tgt.program] that the stages establish.
    - [Tokenizer]: [tokenizer] statement by statement ([tokenizer_loop]
      for the outer [while], [number_loop], [string_loop], [name_loop]
      for the inner ones), the reference lexer [lex] by well-founded
      recursion on the rest of the input, and the printer [unlex].
    - [Parser]: [walk] and its [while] loop [params_loop] as mutually
      recursive functions that pass the cursor, [parser_loop] and
      [parser]; the same functions on the remaining tokens ([walk_on],
      [params_on], [body_on]), the printer [flatten] they invert, and
      the relation [reads] between the tokens the parser accepts and
      that print.
    - [Traverser]: [traverseNode] and [traverseArray], generic in the
      state the methods act on; [events], the list of calls a traversal
      makes; [preorder], [postorder] and [subtree].
    - [Transformer]: the store of arrays and [_context] references, the
      three [enter] methods, [transformer]; the recursive function
      [transform] it computes; [transformer_from], the same call in a
      store that holds the arrays and references of earlier calls.
    - [CodeGenerator]: [codeGenerator] and the pure printer [print].
    - [Compiler]: [compiler], the reference compiler [compile], and the
      text [show] of a source tree.

    ** How the code is modelled

    A function of the source is a function into [outcome]: [Done v] when
    it returns [v], [Throw e] when it throws, [OutOfFuel] when the bound
    on its loops is reached.  An exception is a [TypeError] the source
    throws itself, or the [TypeError] the engine raises when a property is
    read from [undefined] or [null] ([UndefinedRead], with the name of the
    property); the two are told apart because the specification of the
    program tells them apart.  A character read past the end of a string,
    and a token read past the end of the token array, are [None]; what
    the code then does with the value ([String(undefined)] in [+=] and in
    [RegExp.prototype.test], a property read) is written out.

    Local variables that a loop updates are arguments of the function
    that models the loop.  The cursor the closures of [parser] share is
    passed and returned.  The arrays the transformer appends to in place
    are cells of a [store], and the [_context] property of a node of the
    source tree is an entry of the store under the position of the node
    in the tree, so that two methods called on the same node see the same
    array, as in the program.

    ** What the theorems show

    - Each stage computes a reference definition that is recursive on the
      data: [tokenizer] computes [lex], the cursor functions of [parser]
      compute [walk_on] and [body_on], [traverser] runs the visitor over
      [events], [transformer] computes [transform], [codeGenerator]
      computes [print], and [compiler] computes [compile].
    - Termination: [parser] and [transformer] are total; [tokenizer]
      does not return on an input that ends in a letter or inside a
      string, where an inner loop runs for ever past the end;
      [traverser] returns whenever the methods do.
    - Round trips: [tokenizer] inverts [unlex]; [parser] returns a tree
      exactly on the tokens that read as its print by [flatten]; and
      end to end, [compiler] on the text [show] of a well-formed program
      returns its calls in the target syntax, and two such programs
      with the same output are the same program.
    - Invariants: the tokens [tokenizer] returns, whose values are
      pieces of the input in order ([pieces]), the shape of the trees
      [parser] and [transformer] return; the calls of [traverser] nested
      like the tree, in preorder and postorder, with references that
      name its nodes.  The instances of [Stage] record, for each stage,
      that it establishes what the next one needs, and [pipeline_stage]
      in [Compiler] composes them.
    - Sharing: after [transformer] every call of the old tree refers,
      through [_context], to the array of arguments of the call built
      for it; a later call on the same tree overwrites each of these
      references before it reads it, and returns the same new tree.
    - Errors: which exception each stage throws and on what input; the
      exceptions of [compiler] are those of its first two stages.
    - The deviations from the documented behaviour: the character after
      a name is dropped, so that a call closed right after its name
      does not compile, and a digit or a quote there is lost without an
      exception; the token after an opening parenthesis is not checked
      to be a name; a missing closing parenthesis is an exception of the
      engine.
    - The five equalities the test of the repository asserts
      (src/test.js) are examples beside the stages, not properties.

    ** Fuel

    [tokenizer_fuel input = length input + 2] iterations are enough for
    the outer loop and for each inner loop whenever they stop, because
    every iteration moves the cursor forward and no loop that stops goes
    further than one position past the end; with less fuel a result that
    is not [OutOfFuel] is the same result.  [parser_fuel tokens =
    2 * length tokens + 2] calls are enough for every token list: a call
    of [walk] or a turn of a loop consumes a token, except the last turn
    of each loop.  The new tree is read back from the store by [reify]
    with fuel [2 * Src.size ast + 1], two levels (statement and call) for
    each node of the old tree; this bound is proved enough for every
    tree, so that [transformer] never ends for lack of fuel.
    [traverser] and [codeGenerator] are structurally recursive and take
    no fuel.

    ** What is not modelled

    - src/test.js: its console output and its use of [assert]; the
      equalities it asserts are the examples named [_fixture].
    - Strings are sequences of 8-bit code units; the program sees 16-bit
      ones.  The classes the tokenizer tests ([a-z], [0-9], the
      parentheses, the quote) lie in the 7-bit range; of the whitespace
      class only the members below 256 are modelled.
    - The limits of the engine.  A loop that runs for ever in the model
      ends in the engine with a [RangeError] when the accumulated string
      exceeds the maximal length, and a recursion deeper than the call
      stack ends with one as well; [exn] has no [RangeError], the
      theorems say that such a loop does not return, and the recursive
      functions are modelled at every depth.
    - Trees in which an object occurs twice, objects that carry a known
      tag without the fields of that tag, and visitors that change the
      tree they traverse.

    ** Assumptions

    The development states no axiom of its own.  [lex] is defined by
    well-founded recursion with Equations, whose library relies on
    functional extensionality ([functional_extensionality_dep] of the
    Standard Library); the theorems that go through [lex], in
    [Tokenizer] and [Compiler], inherit it.  The other files depend on
    no axiom. *)

From Stdlib Require Import String Ascii List Arith Lia Bool.
Import ListNotations.

Declare Scope js_scope.
Delimit Scope js_scope with js.

Create HintDb js discriminated.
Create Rewrite HintDb js_rw.

(** ** Exceptions and outcomes

    Every failure of the program is a JavaScript [TypeError].  Two origins
    are kept apart: the ones the source throws itself with
    [throw new TypeError(msg)], and the ones the engine raises when a
    property is read from [undefined] or [null]. *)

Inductive exn : Type :=
| TypeError (message : string)
| UndefinedRead (property : string).

(** The result of running a piece of the program with a bound on the
    number of loop iterations: a value, an exception, or the bound was
    reached before the code returned. *)

Inductive outcome (A : Type) : Type :=
| Done (a : A)
| Throw (e : exn)
| OutOfFuel.

Arguments Done {A} a.
Arguments Throw {A} e.
Arguments OutOfFuel {A}.

Definition bind {A B : Type} (c : outcome A) (k : A -> outcome B) : outcome B :=
  match c with
  | Done a => k a
  | Throw e => Throw e
  | OutOfFuel => OutOfFuel
  end.

Definition omap {A B : Type} (f : A -> B) (c : outcome A) : outcome B :=
  bind c (fun a => Done (f a)).

Notation "x <- c ;; k" := (bind c (fun x => k))
  (at level 20, c at level 99, k at level 200, only parsing) : js_scope.
Notation "' pat <- c ;; k" := (bind c (fun x => match x with pat => k end))
  (at level 20, pat pattern, c at level 99, k at level 200, only parsing) : js_scope.

Local Open Scope js_scope.

(** [terminates c]: the code returned or threw within the bound. *)

Definition terminates {A : Type} (c : outcome A) : Prop := c <> OutOfFuel.

Definition terminatesb {A : Type} (c : outcome A) : bool :=
  match c with OutOfFuel => false | _ => true end.

(** Monadic map over a list, left to right, as [Array.prototype.map] with a
    callback that may throw. *)

Definition omapM {A B : Type} (f : A -> outcome B) : list A -> outcome (list B) :=
  fix go (l : list A) : outcome (list B) :=
    match l with
    | [] => Done []
    | x :: l' => y <- f x ;; ys <- go l' ;; Done (y :: ys)
    end.

(** ** JavaScript strings

    A string is a [string] of 8-bit code units; [get i s] is [s[i]], with
    [None] for [undefined].  [js_str] is the conversion [String(v)] that
    [+=] and [RegExp.prototype.test] apply to such a value. *)

Definition js_str (v : option ascii) : string :=
  match v with
  | Some c => String c EmptyString
  | None => "undefined"%string
  end.

Fixpoint sdrop (n : nat) (s : string) : string :=
  match n, s with
  | 0, _ => s
  | S n', EmptyString => EmptyString
  | S n', String _ s' => sdrop n' s'
  end.

Arguments sdrop : simpl nomatch.

Fixpoint sexists (p : ascii -> bool) (s : string) : bool :=
  match s with
  | EmptyString => false
  | String c s' => p c || sexists p s'
  end.

Fixpoint sforall (p : ascii -> bool) (s : string) : bool :=
  match s with
  | EmptyString => true
  | String c s' => p c && sforall p s'
  end.

(** ** Lemmas on outcomes *)

Section Outcome.
Context {A B C : Type}.

Lemma bind_Done_l (a : A) (k : A -> outcome B) : bind (Done a) k = k a.
Proof. reflexivity. Qed.

Lemma bind_Done_r (c : outcome A) : bind c Done = c.
Proof. destruct c; reflexivity. Qed.

Lemma bind_assoc (c : outcome A) (k : A -> outcome B) (h : B -> outcome C) :
  bind (bind c k) h = bind c (fun a => bind (k a) h).
Proof. destruct c; reflexivity. Qed.

Lemma bind_Done_inv (c : outcome A) (k : A -> outcome B) (b : B) :
  bind c k = Done b -> exists a, c = Done a /\ k a = Done b.
Proof. destruct c; simpl; intros H; try discriminate; eauto. Qed.

Lemma bind_Throw_inv (c : outcome A) (k : A -> outcome B) (e : exn) :
  bind c k = Throw e -> c = Throw e \/ exists a, c = Done a /\ k a = Throw e.
Proof. destruct c; simpl; intros H; try discriminate; [eauto | left; congruence]. Qed.

Lemma bind_OutOfFuel_inv (c : outcome A) (k : A -> outcome B) :
  bind c k = OutOfFuel -> c = OutOfFuel \/ exists a, c = Done a /\ k a = OutOfFuel.
Proof. destruct c; simpl; intros H; try discriminate; eauto. Qed.

(** A [bind] that terminates: its first part returned or threw, and what
    follows a returned value terminates. *)
Lemma terminates_bind (c : outcome A) (k : A -> outcome B) :
  terminates (bind c k) ->
  terminates c /\ forall a, c = Done a -> terminates (k a).
Proof. destruct c; simpl; intros H; split; try easy. now intros a' [= <-]. Qed.

Lemma bind_ext (c : outcome A) (k k' : A -> outcome B) :
  (forall a, c = Done a -> k a = k' a) -> bind c k = bind c k'.
Proof. destruct c; simpl; auto. Qed.

Lemma terminates_iff (c : outcome A) : terminates c <-> terminatesb c = true.
Proof. unfold terminates; destruct c; simpl; split; congruence. Qed.

Lemma omap_Done (f : A -> B) (a : A) : omap f (Done a) = Done (f a).
Proof. reflexivity. Qed.

Lemma omap_omap (f : A -> B) (g : B -> C) (c : outcome A) :
  omap g (omap f c) = omap (fun a => g (f a)) c.
Proof. destruct c; reflexivity. Qed.

Lemma omap_ext (f g : A -> B) (c : outcome A) :
  (forall a, f a = g a) -> omap f c = omap g c.
Proof. intros H. destruct c; simpl; congruence. Qed.

Lemma omap_Done_inv (f : A -> B) (c : outcome A) (b : B) :
  omap f c = Done b -> exists a, c = Done a /\ b = f a.
Proof. destruct c; simpl; intros H; try discriminate. injection H as <-. eauto. Qed.

Lemma omap_Throw_inv (f : A -> B) (c : outcome A) (e : exn) :
  omap f c = Throw e -> c = Throw e.
Proof. destruct c; simpl; intros H; try discriminate. congruence. Qed.

Lemma omap_OutOfFuel_inv (f : A -> B) (c : outcome A) :
  omap f c = OutOfFuel -> c = OutOfFuel.
Proof. destruct c; simpl; intros H; try discriminate. congruence. Qed.

Lemma omap_bind (f : B -> C) (c : outcome A) (k : A -> outcome B) :
  omap f (bind c k) = bind c (fun a => omap f (k a)).
Proof. destruct c; reflexivity. Qed.

End Outcome.

#[export] Hint Rewrite @bind_Done_l @bind_Done_r @bind_assoc @omap_Done : js_rw.

(** ** Tactics *)

(** Case analysis on the scrutinee of the first [match] or [if] of the goal. *)
Ltac break_match :=
  match goal with
  | |- context [match ?x with _ => _ end] => destruct x eqn:?
  end.

Ltac break_match_hyp :=
  match goal with
  | H : context [match ?x with _ => _ end] |- _ => destruct x eqn:?
  end.

(** Invert an equation between outcomes built with [bind]. *)
Ltac outcome_inv :=
  repeat match goal with
  | H : omap _ _ = Done _ |- _ =>
      let a := fresh "a" in let E := fresh "E" in
      apply omap_Done_inv in H as (a & E & ->)
  | H : omap _ _ = Throw _ |- _ => apply omap_Throw_inv in H
  | H : omap _ _ = OutOfFuel |- _ => apply omap_OutOfFuel_inv in H
  | H : Done _ = Done _ |- _ => injection H as H; subst
  | H : Throw _ = Throw _ |- _ => injection H as H; subst
  | H : Done _ = Throw _ |- _ => discriminate H
  | H : Throw _ = Done _ |- _ => discriminate H
  | H : OutOfFuel = Done _ |- _ => discriminate H
  | H : Done _ = OutOfFuel |- _ => discriminate H
  | H : OutOfFuel = Throw _ |- _ => discriminate H
  | H : Throw _ = OutOfFuel |- _ => discriminate H
  end.


(** ** Lemmas on strings *)

Section Strings.

Lemma sdrop_0 s : sdrop 0 s = s.
Proof. destruct s; reflexivity. Qed.

Lemma sdrop_empty n : sdrop n EmptyString = EmptyString.
Proof. destruct n; reflexivity. Qed.

Lemma get_sdrop n k s : String.get k (sdrop n s) = String.get (n + k) s.
Proof.
  revert s; induction n as [|n IH]; intros s; [now rewrite sdrop_0|].
  destruct s as [|c s]; simpl; [now destruct k | apply IH].
Qed.

Lemma get_sdrop_0 n s : String.get 0 (sdrop n s) = String.get n s.
Proof. rewrite get_sdrop. f_equal. lia. Qed.

Lemma length_sdrop n s : String.length (sdrop n s) = String.length s - n.
Proof.
  revert s; induction n as [|n IH]; intros s; [rewrite sdrop_0; lia|].
  destruct s as [|c s]; simpl; auto.
Qed.

Lemma sdrop_sdrop n m s : sdrop n (sdrop m s) = sdrop (m + n) s.
Proof.
  revert s; induction m as [|m IH]; intros s; [now rewrite sdrop_0|].
  destruct s as [|c s]; simpl; [apply sdrop_empty | apply IH].
Qed.

Lemma sdrop_cons n s c s' :
  sdrop n s = String c s' -> String.get n s = Some c /\ sdrop (S n) s = s'.
Proof.
  intros H. split.
  - rewrite <- get_sdrop_0, H. reflexivity.
  - replace (S n) with (n + 1) by lia. rewrite <- sdrop_sdrop, H. reflexivity.
Qed.

Lemma sdrop_ge n s : String.length s <= n -> sdrop n s = EmptyString.
Proof.
  intros H. destruct (sdrop n s) eqn:E; [reflexivity|].
  pose proof (length_sdrop n s) as L. rewrite E in L. simpl in L. lia.
Qed.

Lemma sdrop_lt n s :
  n < String.length s -> exists c s', sdrop n s = String c s'.
Proof.
  intros H. destruct (sdrop n s) eqn:E; [|eauto].
  pose proof (length_sdrop n s) as L. rewrite E in L. simpl in L. lia.
Qed.

Lemma sdrop_nil n s : sdrop n s = EmptyString -> String.length s <= n.
Proof.
  intros H. pose proof (length_sdrop n s) as L. rewrite H in L. simpl in L. lia.
Qed.

Lemma get_None_iff n s : String.get n s = None <-> String.length s <= n.
Proof.
  revert n; induction s as [|c s IH]; intros n; simpl.
  - split; [lia | reflexivity].
  - destruct n; [split; [discriminate | lia]|]. rewrite IH. lia.
Qed.

Lemma length_append s t :
  String.length (s ++ t) = String.length s + String.length t.
Proof. induction s; simpl; congruence. Qed.

Lemma append_String c s t : (String c s ++ t)%string = String c (s ++ t)%string.
Proof. reflexivity. Qed.

Lemma append_empty t : (EmptyString ++ t)%string = t.
Proof. reflexivity. Qed.

Lemma append_inv_l s t u : (s ++ t)%string = (s ++ u)%string -> t = u.
Proof. induction s; simpl; [easy | intros [= H]; auto]. Qed.

Lemma append_nil_r s : (s ++ "")%string = s.
Proof. induction s; simpl; congruence. Qed.

Lemma append_assoc s t u : ((s ++ t) ++ u)%string = (s ++ t ++ u)%string.
Proof. induction s; simpl; congruence. Qed.

Lemma sdrop_append s t : sdrop (String.length s) (s ++ t) = t.
Proof. induction s; simpl; [apply sdrop_0 | assumption]. Qed.

Lemma sexists_append p s t : sexists p (s ++ t) = sexists p s || sexists p t.
Proof. induction s; simpl; [reflexivity|]. rewrite IHs. apply orb_assoc. Qed.

Lemma sforall_append p s t : sforall p (s ++ t) = sforall p s && sforall p t.
Proof. induction s; simpl; [reflexivity|]. rewrite IHs. apply andb_assoc. Qed.

End Strings.

#[export] Hint Rewrite sdrop_0 sdrop_empty length_sdrop length_append
  append_nil_r append_assoc sdrop_append : js_rw.

(** ** Stages

    A stage of the pipeline is a function [run] of the source together
    with the reference definition [spec] it computes on the inputs that
    satisfy [pre], and the property [post] of what it then returns.  The
    files of the stages provide the instances; the pipeline is proved
    against this interface alone: stages compose when what one
    establishes is what the next one needs. *)

Class Stage {A B : Type} (run spec : A -> outcome B)
    (pre : A -> Prop) (post : B -> Prop) : Prop := {
  stage_refines : forall a, pre a -> run a = spec a;
  stage_post : forall a b, pre a -> spec a = Done b -> post b
}.

(** [f] and then [g], an exception of [f] ending the call. *)
Definition andthen {A B C : Type} (f : A -> outcome B) (g : B -> outcome C)
    (a : A) : outcome C :=
  (b <- f a ;; g b)%js.

Section Stages.
Context {A B C : Type}.
Context {f f' : A -> outcome B} {g g' : B -> outcome C}.
Context {pre : A -> Prop} {mid mid' : B -> Prop} {post : C -> Prop}.

Lemma stage_run_post (F : Stage f f' pre mid) a b :
  pre a -> f a = Done b -> mid b.
Proof. intros Hp H. rewrite stage_refines in H by exact Hp. eapply stage_post; eauto. Qed.

Lemma stage_andthen :
  Stage f f' pre mid -> Stage g g' mid' post -> (forall b, mid b -> mid' b) ->
  Stage (andthen f g) (andthen f' g') pre post.
Proof.
  intros F G Hmid. split; unfold andthen.
  - intros a Hp. rewrite (stage_refines a Hp). apply bind_ext.
    intros b Hb. apply stage_refines, Hmid. eapply stage_post; eauto.
  - intros a c Hp H. apply bind_Done_inv in H as (b & Hb & Hc).
    eapply (stage_post (Stage := G)); [|exact Hc]. apply Hmid. eapply stage_post; eauto.
Qed.

End Stages.
