(* ===== verification/Ast.v ===== *)
(** * The two abstract syntax trees

    [Src.node] is the tree the parser builds and the traverser walks;
    [Tgt.node] is the tree the transformer builds and the code generator
    prints.  A node is a JavaScript object with a string tag [type]; the
    constructors are the tags each total dispatch of the source
    distinguishes, and [Other] stands for an object with any other tag,
    the one the [default:] branches throw on: it carries a tag together
    with the proof that the dispatch has no case for it, so that the
    case analysis on the constructor is the [switch] on [node.type].
    Induction principles that reach through the child lists, and the
    shape predicates the stages establish and rely on, are defined
    here. *)

From Stdlib Require Import String Ascii List Arith Lia Bool.
From S2P Require Import Prelude.
Import ListNotations.
Local Open Scope string_scope.

Module Src.

(** The tags the [switch] of [traverser] has a case for. *)
Definition handled (t : string) : bool :=
  (t =? "Program") || (t =? "CallExpression") ||
  (t =? "NumberLiteral") || (t =? "StringLiteral").

(** A tag that reaches [default:]. *)
Definition unhandled : Type := { t : string | handled t = false }.

Definition tag (t : string) (H : handled t = false) : unhandled := exist _ t H.

Unset Elimination Schemes.
Inductive node : Type :=
| Program (body : list node)
| CallExpression (name : string) (params : list node)
| NumberLiteral (value : string)
| StringLiteral (value : string)
| Other (type : unhandled).
Set Elimination Schemes.

(** [node.type] *)
Definition type (n : node) : string :=
  match n with
  | Program _ => "Program"
  | CallExpression _ _ => "CallExpression"
  | NumberLiteral _ => "NumberLiteral"
  | StringLiteral _ => "StringLiteral"
  | Other t => proj1_sig t
  end.

Section Induction.
Variable P : node -> Prop.
Hypothesis HProgram : forall body, Forall P body -> P (Program body).
Hypothesis HCall : forall name params, Forall P params -> P (CallExpression name params).
Hypothesis HNumber : forall value, P (NumberLiteral value).
Hypothesis HString : forall value, P (StringLiteral value).
Hypothesis HOther : forall t, P (Other t).

Fixpoint node_ind (n : node) : P n :=
  let fix go (l : list node) : Forall P l :=
    match l with
    | [] => Forall_nil P
    | x :: l' => Forall_cons x (node_ind x) (go l')
    end in
  match n with
  | Program body => HProgram body (go body)
  | CallExpression name params => HCall name params (go params)
  | NumberLiteral value => HNumber value
  | StringLiteral value => HString value
  | Other t => HOther t
  end.
End Induction.

(** Number of nodes of a tree. *)
Fixpoint size (n : node) : nat :=
  match n with
  | Program body => S (list_sum (map size body))
  | CallExpression _ params => S (list_sum (map size params))
  | _ => 1
  end.

(** An expression: what one call of the parser's [walk] returns. *)
Fixpoint expr (n : node) : bool :=
  match n with
  | CallExpression _ params => forallb expr params
  | NumberLiteral _ | StringLiteral _ => true
  | Program _ | Other _ => false
  end.

(** A program: what [parser] returns. *)
Definition program (n : node) : bool :=
  match n with
  | Program body => forallb expr body
  | _ => false
  end.

(** No object of an unknown tag in the tree. *)
Fixpoint known (n : node) : bool :=
  match n with
  | Program body => forallb known body
  | CallExpression _ params => forallb known params
  | NumberLiteral _ | StringLiteral _ => true
  | Other _ => false
  end.

End Src.

Module Tgt.

(** The tags the [switch] of [codeGenerator] has a case for. *)
Definition handled (t : string) : bool :=
  (t =? "Program") || (t =? "ExpressionStatement") || (t =? "CallExpression") ||
  (t =? "Identifier") || (t =? "NumberLiteral") || (t =? "StringLiteral").

(** A tag that reaches [default:]. *)
Definition unhandled : Type := { t : string | handled t = false }.

Definition tag (t : string) (H : handled t = false) : unhandled := exist _ t H.

Unset Elimination Schemes.
Inductive node : Type :=
| Program (body : list node)
| ExpressionStatement (expression : node)
| CallExpression (callee : node) (arguments : list node)
| Identifier (name : string)
| NumberLiteral (value : string)
| StringLiteral (value : string)
| Other (type : unhandled).
Set Elimination Schemes.

Definition type (n : node) : string :=
  match n with
  | Program _ => "Program"
  | ExpressionStatement _ => "ExpressionStatement"
  | CallExpression _ _ => "CallExpression"
  | Identifier _ => "Identifier"
  | NumberLiteral _ => "NumberLiteral"
  | StringLiteral _ => "StringLiteral"
  | Other t => proj1_sig t
  end.

Section Induction.
Variable P : node -> Prop.
Hypothesis HProgram : forall body, Forall P body -> P (Program body).
Hypothesis HStatement : forall e, P e -> P (ExpressionStatement e).
Hypothesis HCall : forall callee arguments,
  P callee -> Forall P arguments -> P (CallExpression callee arguments).
Hypothesis HIdentifier : forall name, P (Identifier name).
Hypothesis HNumber : forall value, P (NumberLiteral value).
Hypothesis HString : forall value, P (StringLiteral value).
Hypothesis HOther : forall t, P (Other t).

Fixpoint node_ind (n : node) : P n :=
  let fix go (l : list node) : Forall P l :=
    match l with
    | [] => Forall_nil P
    | x :: l' => Forall_cons x (node_ind x) (go l')
    end in
  match n with
  | Program body => HProgram body (go body)
  | ExpressionStatement e => HStatement e (node_ind e)
  | CallExpression callee arguments =>
      HCall callee arguments (node_ind callee) (go arguments)
  | Identifier name => HIdentifier name
  | NumberLiteral value => HNumber value
  | StringLiteral value => HString value
  | Other t => HOther t
  end.
End Induction.

(** No object of an unknown tag in the tree. *)
Fixpoint known (n : node) : bool :=
  match n with
  | Program body => forallb known body
  | ExpressionStatement e => known e
  | CallExpression callee arguments => known callee && forallb known arguments
  | Identifier _ | NumberLiteral _ | StringLiteral _ => true
  | Other _ => false
  end.

(** An expression of the target language: a literal, or a call whose
    callee is an identifier and whose arguments are expressions. *)
Fixpoint expr (n : node) : bool :=
  match n with
  | CallExpression (Identifier _) arguments => forallb expr arguments
  | NumberLiteral _ | StringLiteral _ => true
  | _ => false
  end.

(** A statement: a call wrapped in an [ExpressionStatement], or a bare
    literal (the transformer does not wrap literals). *)
Definition statement (n : node) : bool :=
  match n with
  | ExpressionStatement (CallExpression c a) => expr (CallExpression c a)
  | NumberLiteral _ | StringLiteral _ => true
  | _ => false
  end.

Definition program (n : node) : bool :=
  match n with
  | Program body => forallb statement body
  | _ => false
  end.

End Tgt.

(** ** The case analysis is the switch on the tag

    A node has a handled tag exactly when it is built by the constructor
    of that tag: matching on the constructor, as the models of the
    dispatches do, is the [switch (node.type)] of the source. *)

Lemma src_handled_type n :
  Src.handled (Src.type n) = match n with Src.Other _ => false | _ => true end.
Proof. destruct n as [| | | |[t H]]; try reflexivity. exact H. Qed.

Lemma src_type_other t ty :
  Src.handled ty = true -> Src.type (Src.Other t) <> ty.
Proof. intros H E. rewrite <- E, src_handled_type in H. discriminate. Qed.

Lemma tgt_handled_type n :
  Tgt.handled (Tgt.type n) = match n with Tgt.Other _ => false | _ => true end.
Proof. destruct n as [| | | | | |[t H]]; try reflexivity. exact H. Qed.

Lemma tgt_type_other t ty :
  Tgt.handled ty = true -> Tgt.type (Tgt.Other t) <> ty.
Proof. intros H E. rewrite <- E, tgt_handled_type in H. discriminate. Qed.

(** ** Shape lemmas *)

Lemma src_expr_known n : Src.expr n = true -> Src.known n = true.
Proof.
  induction n using Src.node_ind; simpl; try congruence.
  rewrite !forallb_forall. rewrite Forall_forall in H. auto.
Qed.

Lemma src_program_known n : Src.program n = true -> Src.known n = true.
Proof.
  destruct n; simpl; try congruence.
  rewrite !forallb_forall. auto using src_expr_known.
Qed.

Lemma tgt_expr_known n : Tgt.expr n = true -> Tgt.known n = true.
Proof.
  induction n using Tgt.node_ind; simpl; try congruence.
  destruct n; try congruence. simpl.
  rewrite !forallb_forall. rewrite Forall_forall in H. auto.
Qed.

Lemma tgt_statement_known n : Tgt.statement n = true -> Tgt.known n = true.
Proof.
  destruct n; simpl; try congruence.
  destruct n; try congruence. apply (tgt_expr_known (Tgt.CallExpression _ _)).
Qed.

Lemma tgt_program_known n : Tgt.program n = true -> Tgt.known n = true.
Proof.
  destruct n; simpl; try congruence.
  rewrite !forallb_forall. auto using tgt_statement_known.
Qed.

#[export] Hint Resolve src_expr_known src_program_known tgt_expr_known
  tgt_statement_known tgt_program_known : js.
