(* ===== verification/Tokenizer.v ===== *)
(** * The tokenizer ([tokenizer], src/tiny-compiler.js lines 1-81)

    The model follows the source statement by statement: a cursor
    [current] into [input], the local [char], the accumulating [value]
    of each inner [while], and [tokens] grown by [push].  Every loop takes
    a bound [fuel] on its iterations, because two of the inner loops do
    not terminate on some inputs.  [lex] is the reference definition over
    the remaining suffix of the input; the theorems show that the loop
    computes [lex], when it terminates and what it returns.  [unlex]
    prints tokens to a text that [tokenizer] reads back. *)

From Stdlib Require Import String Ascii List Arith Lia Bool.
From Equations Require Import Equations.
From S2P Require Import Prelude.
Import ListNotations.
Local Open Scope string_scope.
Local Open Scope js_scope.

(** ** Tokens *)

Record token : Type := { type : string; value : string }.

(** ** The four regular expressions, as character classes

    Code units are 8 bits wide here, so [\s] is the white space of
    Latin-1: tab, line feed, vertical tab, form feed, carriage return,
    space and no-break space. *)

Definition WHITESPACE (c : ascii) : bool :=
  existsb (Nat.eqb (nat_of_ascii c)) [9; 10; 11; 12; 13; 32; 160].

Definition NUMBERS (c : ascii) : bool :=
  ("0" <=? c)%char && (c <=? "9")%char.

Definition LETTERS (c : ascii) : bool :=
  (("a" <=? c)%char && (c <=? "z")%char) || (("A" <=? c)%char && (c <=? "Z")%char).

Definition PARENS (c : ascii) : bool :=
  (c =? "(")%char || (c =? ")")%char.

(** [re.test(char)]: the argument is converted to a string, and the
    expression, which is not anchored, matches when some character of that
    string is in the class.  For [undefined] the string is ["undefined"]. *)

Definition test (re : ascii -> bool) (char : option ascii) : bool :=
  sexists re (js_str char).

(** The double-quote character (code 34), and the test that [char] is it *)
Definition quote : ascii := "034"%char.

Definition is_quote (char : option ascii) : bool :=
  match char with
  | Some c => (c =? quote)%char
  | None => false
  end.

(** ** The inner loops

    [while (cond(char)) { value += char; char = input[++current]; }] *)

Fixpoint char_loop (cond : option ascii -> bool) (fuel : nat) (input : string)
    (value : string) (char : option ascii) (current : nat) : outcome (string * nat) :=
  match fuel with
  | 0 => OutOfFuel
  | S fuel =>
      if cond char
      then char_loop cond fuel input (value ++ js_str char)
             (String.get (S current) input) (S current)
      else Done (value, current)
  end.

Definition number_loop := char_loop (test NUMBERS).
Definition string_loop := char_loop (fun char => negb (is_quote char)).
Definition name_loop := char_loop (test LETTERS).

(** ** The main loop *)

Fixpoint tokenizer_loop (fuel : nat) (input : string) (current : nat)
    (tokens : list token) : outcome (list token) :=
  match fuel with
  | 0 => OutOfFuel
  | S fuel =>
      if (current <? String.length input)%nat then
        let char := String.get current input in
        if test PARENS char then
          tokenizer_loop fuel input (S current)
            (tokens ++ [{| type := "paren"; value := js_str char |}])%list
        else if test WHITESPACE char then
          tokenizer_loop fuel input (S current) tokens
        else if test NUMBERS char then
          '(value, current) <- number_loop fuel input "" char current ;;
          tokenizer_loop fuel input current
            (tokens ++ [{| type := "number"; value := value |}])%list
        else if is_quote char then
          let current := S current in
          let char := String.get current input in
          '(value, current) <- string_loop fuel input "" char current ;;
          let current := S current in
          tokenizer_loop fuel input current
            (tokens ++ [{| type := "string"; value := value |}])%list
        else if test LETTERS char then
          '(value, current) <- name_loop fuel input "" char current ;;
          let current := S current in
          tokenizer_loop fuel input current
            (tokens ++ [{| type := "name"; value := value |}])%list
        else
          Throw (TypeError ("I do not know what this character is: " ++ js_str char))
      else Done tokens
  end.

Definition tokenizer (fuel : nat) (input : string) : outcome (list token) :=
  tokenizer_loop fuel input 0 [].

(** Iterations that are enough for any input on which the loops stop. *)
Definition tokenizer_fuel (input : string) : nat := String.length input + 2.

(** ** The reference lexer *)

Fixpoint take_while (p : ascii -> bool) (s : string) : string :=
  match s with
  | EmptyString => EmptyString
  | String c s' => if p c then String c (take_while p s') else EmptyString
  end.

Fixpoint drop_while (p : ascii -> bool) (s : string) : string :=
  match s with
  | EmptyString => EmptyString
  | String c s' => if p c then drop_while p s' else s
  end.

Definition not_quote (c : ascii) : bool := negb (c =? quote)%char.

Definition is_empty (s : string) : bool :=
  match s with EmptyString => true | _ => false end.

Definition mk (ty v : string) : token := {| type := ty; value := v |}.

Lemma length_drop_while p s : String.length (drop_while p s) <= String.length s.
Proof. induction s as [|c s IH]; simpl; [lia|]. destruct (p c); simpl; lia. Qed.

Equations? lex (s : string) : outcome (list token) by wf (String.length s) lt :=
lex EmptyString := Done [];
lex (String c s') :=
  if PARENS c then omap (cons (mk "paren" (String c ""))) (lex s')
  else if WHITESPACE c then lex s'
  else if NUMBERS c then
    omap (cons (mk "number" (String c (take_while NUMBERS s'))))
         (lex (drop_while NUMBERS s'))
  else if (c =? quote)%char then
    if is_empty (drop_while not_quote s') then OutOfFuel
    else omap (cons (mk "string" (take_while not_quote s')))
              (lex (sdrop 1 (drop_while not_quote s')))
  else if LETTERS c then
    if is_empty (drop_while LETTERS s') then OutOfFuel
    else omap (cons (mk "name" (String c (take_while LETTERS s'))))
              (lex (sdrop 1 (drop_while LETTERS s')))
  else Throw (TypeError ("I do not know what this character is: " ++ String c "")).
Proof.
  all: match goal with
       | |- context [drop_while ?p ?s] =>
           pose proof (length_drop_while p s);
           destruct (drop_while p s); simpl in *; lia
       end.
Qed.

(** ** Character classes and conditions *)

(** A loop condition [cond] on [char] decides the class [p] on defined
    characters; [at_end] is what it answers for [undefined]. *)
Definition decides (cond : option ascii -> bool) (p : ascii -> bool) : Prop :=
  forall c, cond (Some c) = p c.

Lemma test_Some re c : test re (Some c) = re c.
Proof. unfold test; simpl. apply orb_false_r. Qed.

Lemma test_decides re : decides (test re) re.
Proof. intros c. apply test_Some. Qed.

Lemma not_quote_decides : decides (fun char => negb (is_quote char)) not_quote.
Proof. intros c. reflexivity. Qed.

Lemma test_NUMBERS_undefined : test NUMBERS None = false.
Proof. reflexivity. Qed.

Lemma test_LETTERS_undefined : test LETTERS None = true.
Proof. reflexivity. Qed.

#[export] Hint Resolve test_decides not_quote_decides : js.
#[export] Hint Rewrite test_Some : js_rw.

(** The classes are pairwise disjoint, so the order of the tests in the
    loop does not matter for which branch a character takes. *)
Lemma classes_disjoint c :
  (PARENS c && (WHITESPACE c || NUMBERS c || (c =? quote)%char || LETTERS c) = false) /\
  (WHITESPACE c && (NUMBERS c || (c =? quote)%char || LETTERS c) = false) /\
  (NUMBERS c && ((c =? quote)%char || LETTERS c) = false) /\
  ((c =? quote)%char && LETTERS c = false).
Proof.
  destruct c as [[] [] [] [] [] [] [] []]; vm_compute; repeat split.
Qed.

Lemma take_drop_while p s : (take_while p s ++ drop_while p s)%string = s.
Proof. induction s as [|c s IH]; simpl; [reflexivity|]. destruct (p c); simpl; congruence. Qed.

Lemma sforall_take_while p s : sforall p (take_while p s) = true.
Proof.
  induction s as [|c s IH]; simpl; [reflexivity|].
  destruct (p c) eqn:E; simpl; [rewrite E; assumption | reflexivity].
Qed.

Lemma drop_while_head p s c s' : drop_while p s = String c s' -> p c = false.
Proof.
  induction s as [|d s IH]; simpl; [discriminate|].
  destruct (p d) eqn:E; [assumption | congruence].
Qed.

Lemma take_while_all p s t :
  sforall p s = true -> (is_empty t = true \/ exists c t', t = String c t' /\ p c = false) ->
  take_while p (s ++ t) = s /\ drop_while p (s ++ t) = t.
Proof.
  intros Hs Ht. induction s as [|c s IH]; simpl in *.
  - destruct Ht as [Ht | (c & t' & -> & Hc)].
    + destruct t; [auto | discriminate].
    + simpl. rewrite Hc. auto.
  - apply andb_prop in Hs as [-> Hs]. destruct (IH Hs) as [-> ->]. auto.
Qed.

(** [stops p t]: a run of characters of the class [p] ends where [t]
    starts. *)
Definition stops (p : ascii -> bool) (t : string) : bool :=
  match t with
  | EmptyString => true
  | String c _ => negb (p c)
  end.

Lemma stops_spec p t :
  stops p t = true ->
  is_empty t = true \/ exists c t', t = String c t' /\ p c = false.
Proof.
  destruct t as [|c t]; [now left|]. simpl. intros H. right.
  exists c, t. now rewrite <- negb_true_iff.
Qed.

(** A run and what follows it are determined by their concatenation. *)
Lemma span_unique p a b x y :
  sforall p a = true -> sforall p b = true -> stops p x = true -> stops p y = true ->
  a ++ x = b ++ y -> a = b /\ x = y.
Proof.
  intros Ha Hb Hx Hy E.
  destruct (take_while_all p a x Ha (stops_spec p x Hx)) as [Ta Da].
  destruct (take_while_all p b y Hb (stops_spec p y Hy)) as [Tb Db].
  rewrite E in Ta, Da. split; congruence.
Qed.

(** ** The inner loops against [take_while] and [drop_while] *)

Section CharLoop.
Context (cond : option ascii -> bool) (p : ascii -> bool) (Hcond : decides cond p).

(** The loop stops at the first character outside the class, or at the
    end of the input when the condition is false of [undefined]. *)
Lemma char_loop_stops fuel input value current :
  (is_empty (drop_while p (sdrop current input)) = false \/ cond None = false) ->
  String.length (take_while p (sdrop current input)) < fuel ->
  char_loop cond fuel input value (String.get current input) current =
    Done ((value ++ take_while p (sdrop current input))%string,
          current + String.length (take_while p (sdrop current input))).
Proof.
  revert value current. induction fuel as [|fuel IH]; intros value current Hend Hfuel; [lia|].
  simpl. destruct (sdrop current input) as [|c s] eqn:E.
  - apply sdrop_nil, get_None_iff in E. rewrite E. simpl in *.
    destruct Hend as [Hend | Hend]; [discriminate | rewrite Hend]. now rewrite append_nil_r, Nat.add_0_r.
  - apply sdrop_cons in E as [E1 E2]. rewrite E1, Hcond. simpl in Hend, Hfuel |- *.
    destruct (p c) eqn:Hc; simpl in Hend, Hfuel |- *.
    + rewrite <- E2 in *. rewrite IH by (auto; lia).
      now rewrite append_assoc, Nat.add_succ_r.
    + now rewrite append_nil_r, Nat.add_0_r.
Qed.

(** Where the loop stops, the rest of the input is [drop_while]. *)
Lemma sdrop_take_while current input :
  sdrop (current + String.length (take_while p (sdrop current input))) input =
  drop_while p (sdrop current input).
Proof.
  rewrite <- sdrop_sdrop.
  rewrite <- (take_drop_while p (sdrop current input)) at 2.
  apply sdrop_append.
Qed.

(** The loop never stops when the class runs to the end of the input and
    the condition holds of [undefined]. *)
Lemma char_loop_diverges fuel input value char current :
  char = String.get current input ->
  is_empty (drop_while p (sdrop current input)) = true -> cond None = true ->
  char_loop cond fuel input value char current = OutOfFuel.
Proof.
  revert value char current.
  induction fuel as [|fuel IH]; intros value char current -> Hend Hnone; [reflexivity|].
  simpl. destruct (sdrop current input) as [|c s] eqn:E.
  - apply sdrop_nil in E. assert (E' := E). apply get_None_iff in E'. rewrite E', Hnone.
    apply IH; auto.
    replace (sdrop (S current) input) with EmptyString; [reflexivity|].
    symmetry. destruct (sdrop (S current) input) eqn:F; [reflexivity|].
    pose proof (length_sdrop (S current) input) as L. rewrite F in L. simpl in L. lia.
  - apply sdrop_cons in E as [E1 E2]. rewrite E1, Hcond. simpl in Hend.
    destruct (p c) eqn:Hc; [|discriminate].
    apply IH; auto. now rewrite E2.
Qed.

(** More fuel does not change a result. *)
Lemma char_loop_mono fuel fuel' input value char current r :
  char_loop cond fuel input value char current = Done r -> fuel <= fuel' ->
  char_loop cond fuel' input value char current = Done r.
Proof.
  revert fuel' value char current.
  induction fuel as [|fuel IH]; intros fuel' value char current H Hle; [discriminate|].
  destruct fuel' as [|fuel']; [lia|]. simpl in *.
  destruct (cond char); [apply IH; [assumption | lia] | assumption].
Qed.

End CharLoop.

(** ** The main loop computes [lex] *)

Lemma length_take_while p s : String.length (take_while p s) <= String.length s.
Proof. induction s as [|c s IH]; simpl; [lia|]. destruct (p c); simpl; lia. Qed.

Lemma omap_app_cons (tokens : list token) (t : token) (r : outcome (list token)) :
  omap (app tokens) (omap (cons t) r) = omap (app (tokens ++ [t])) r.
Proof.
  rewrite omap_omap. apply omap_ext. intros l. now rewrite <- app_assoc.
Qed.

(** What the loop variables are at the top of an iteration, in terms of
    the suffix of the input that is left. *)
Lemma suffix_cons input current c s :
  sdrop current input = String c s ->
  current < String.length input /\
  String.get current input = Some c /\
  sdrop (S current) input = s /\
  String.length s = String.length input - S current.
Proof.
  intros E. pose proof (length_sdrop current input) as L. rewrite E in L. simpl in L.
  apply sdrop_cons in E as [E1 E2]. rewrite <- E2, length_sdrop.
  repeat split; auto. lia.
Qed.

Section Branches.
Context (fuel : nat) (input : string) (current : nat) (c : ascii) (s : string).
Context (Hsuffix : sdrop current input = String c s).
Context (Hfuel : String.length input - current + 1 <= fuel).

Lemma number_loop_lex :
  NUMBERS c = true ->
  number_loop fuel input "" (Some c) current =
    Done (String c (take_while NUMBERS s),
          S current + String.length (take_while NUMBERS s)) /\
  sdrop (S current + String.length (take_while NUMBERS s)) input = drop_while NUMBERS s.
Proof.
  intros Hc. destruct (suffix_cons _ _ _ _ Hsuffix) as (Hlt & Hget & Hs & Hlen).
  pose proof (length_take_while NUMBERS s).
  pose proof (sdrop_take_while NUMBERS current input) as D.
  unfold number_loop. rewrite <- Hget.
  rewrite (char_loop_stops _ NUMBERS (test_decides _)); rewrite Hsuffix in *;
    simpl in *; rewrite Hc in *; simpl; auto; try lia.
  simpl in D. rewrite Nat.add_succ_r in *. auto.
Qed.

Lemma string_loop_lex :
  is_empty (drop_while not_quote s) = false ->
  string_loop fuel input "" (String.get (S current) input) (S current) =
    Done (take_while not_quote s, S current + String.length (take_while not_quote s)) /\
  sdrop (S (S current + String.length (take_while not_quote s))) input =
    sdrop 1 (drop_while not_quote s).
Proof.
  intros Hend. destruct (suffix_cons _ _ _ _ Hsuffix) as (Hlt & Hget & Hs & Hlen).
  pose proof (length_take_while not_quote s).
  pose proof (sdrop_take_while not_quote (S current) input) as D.
  unfold string_loop.
  rewrite (char_loop_stops _ not_quote not_quote_decides); rewrite Hs in *; auto; try lia.
  split; [reflexivity|].
  rewrite <- D, sdrop_sdrop. f_equal. lia.
Qed.

Lemma name_loop_lex :
  LETTERS c = true -> is_empty (drop_while LETTERS s) = false ->
  name_loop fuel input "" (Some c) current =
    Done (String c (take_while LETTERS s),
          S current + String.length (take_while LETTERS s)) /\
  sdrop (S (S current + String.length (take_while LETTERS s))) input =
    sdrop 1 (drop_while LETTERS s).
Proof.
  intros Hc Hend. destruct (suffix_cons _ _ _ _ Hsuffix) as (Hlt & Hget & Hs & Hlen).
  pose proof (length_take_while LETTERS s).
  pose proof (sdrop_take_while LETTERS current input) as D.
  unfold name_loop. rewrite <- Hget.
  rewrite (char_loop_stops _ LETTERS (test_decides _)); rewrite Hsuffix in *;
    simpl in *; rewrite Hc in *; simpl; auto; try lia.
  simpl in D. rewrite Nat.add_succ_r in *. split; [reflexivity|].
  rewrite <- D, sdrop_sdrop. f_equal. lia.
Qed.

End Branches.

Lemma string_loop_diverges fuel input current c s :
  sdrop current input = String c s ->
  is_empty (drop_while not_quote s) = true ->
  string_loop fuel input "" (String.get (S current) input) (S current) = OutOfFuel.
Proof.
  intros Hsuffix Hend. destruct (suffix_cons _ _ _ _ Hsuffix) as (_ & _ & Hs & _).
  apply (char_loop_diverges _ not_quote not_quote_decides); rewrite ?Hs; auto.
Qed.

Lemma name_loop_diverges fuel input current c s :
  sdrop current input = String c s -> LETTERS c = true ->
  is_empty (drop_while LETTERS s) = true ->
  name_loop fuel input "" (Some c) current = OutOfFuel.
Proof.
  intros Hsuffix Hc Hend. destruct (suffix_cons _ _ _ _ Hsuffix) as (_ & Hget & _ & _).
  apply (char_loop_diverges _ LETTERS (test_decides _)); rewrite ?Hsuffix; simpl; rewrite ?Hc; auto.
Qed.

(** With [String.length input - current + 2] iterations or more, the loop
    started at [current] appends to [tokens] what [lex] returns on the rest
    of the input, throws what it throws, and runs out of fuel where it
    does. *)
Lemma tokenizer_loop_lex fuel input current tokens :
  String.length input - current + 2 <= fuel ->
  tokenizer_loop fuel input current tokens =
    omap (app tokens) (lex (sdrop current input)).
Proof.
  revert current tokens.
  induction fuel as [|fuel IH]; intros current tokens Hfuel; [lia|].
  simpl. destruct (sdrop current input) as [|c s] eqn:Hsuffix.
  { apply sdrop_nil in Hsuffix. simp lex. simpl. rewrite app_nil_r.
    destruct (Nat.ltb_spec current (String.length input)); [lia | reflexivity]. }
  destruct (suffix_cons _ _ _ _ Hsuffix) as (Hlt & Hget & Hs & Hlen).
  apply Nat.ltb_lt in Hlt as Hltb. rewrite Hltb, Hget, !test_Some. simp lex. simpl.
  destruct (PARENS c). { rewrite IH, Hs by lia. symmetry. apply omap_app_cons. }
  destruct (WHITESPACE c). { rewrite IH, Hs by lia. reflexivity. }
  destruct (NUMBERS c) eqn:Hn.
  { destruct (number_loop_lex fuel _ _ _ _ Hsuffix) as [-> D]; auto; [lia|]. cbn [bind].
    pose proof (length_take_while NUMBERS s).
    rewrite IH, D by lia. symmetry. apply omap_app_cons. }
  destruct (c =? quote)%char.
  { destruct (is_empty (drop_while not_quote s)) eqn:Hend.
    - now rewrite (string_loop_diverges _ _ _ _ _ Hsuffix Hend).
    - destruct (string_loop_lex fuel _ _ _ _ Hsuffix) as [-> D]; auto; [lia|]. cbn [bind].
      pose proof (length_take_while not_quote s).
      rewrite IH, D by lia. symmetry. apply omap_app_cons. }
  destruct (LETTERS c) eqn:Hl; [|reflexivity].
  destruct (is_empty (drop_while LETTERS s)) eqn:Hend.
  - now rewrite (name_loop_diverges _ _ _ _ _ Hsuffix Hl Hend).
  - destruct (name_loop_lex fuel _ _ _ _ Hsuffix) as [-> D]; auto; [lia|]. cbn [bind].
    pose proof (length_take_while LETTERS s).
    rewrite IH, D by lia. symmetry. apply omap_app_cons.
Qed.

(** ** Fuel *)

Lemma char_loop_no_throw cond fuel input value char current e :
  char_loop cond fuel input value char current <> Throw e.
Proof.
  revert value char current. induction fuel as [|fuel IH]; intros; simpl; [discriminate|].
  destruct (cond char); [apply IH | discriminate].
Qed.

(** One of the three branches with an inner loop, in the proof that fuel
    is monotone: the inner loop returned, so it returns the same with more
    fuel, and the induction hypothesis applies to the rest. *)
Ltac inner_loop_mono IH :=
  match goal with
  | H : terminates (bind (?loop ?fuel ?i ?v ?ch ?cur) _) |- _ =>
      let E := fresh "E" in
      destruct (loop fuel i v ch cur) as [[? ?]| |] eqn:E;
      [ erewrite (char_loop_mono _ fuel) by (try exact E; lia);
        cbn [bind] in *; apply IH; [assumption | lia]
      | exfalso; exact (char_loop_no_throw _ _ _ _ _ _ _ E)
      | exfalso; apply H; reflexivity ]
  end.

Lemma tokenizer_loop_mono fuel fuel' input current tokens :
  terminates (tokenizer_loop fuel input current tokens) -> fuel <= fuel' ->
  tokenizer_loop fuel' input current tokens = tokenizer_loop fuel input current tokens.
Proof.
  revert fuel' current tokens.
  induction fuel as [|fuel IH]; intros fuel' current tokens H Hle; [now elim H|].
  destruct fuel' as [|fuel']; [lia|]. simpl in *.
  unfold number_loop, string_loop, name_loop in *.
  repeat (break_match; try reflexivity; try (apply IH; [assumption | lia]));
    inner_loop_mono IH.
Qed.

(** The tokenizer computes [lex] as soon as it is given
    [tokenizer_fuel input] iterations. *)
Lemma tokenizer_lex fuel input :
  tokenizer_fuel input <= fuel -> tokenizer fuel input = lex input.
Proof.
  intros H. unfold tokenizer, tokenizer_fuel in *.
  rewrite tokenizer_loop_lex by lia. rewrite sdrop_0.
  destruct (lex input); reflexivity.
Qed.

(** Whatever the tokenizer returns or throws, with any fuel, is what
    [lex] says. *)
Lemma tokenizer_terminates_lex fuel input :
  terminates (tokenizer fuel input) -> tokenizer fuel input = lex input.
Proof.
  intros H. rewrite <- (tokenizer_lex (Nat.max fuel (tokenizer_fuel input))) by lia.
  symmetry. apply tokenizer_loop_mono; [assumption | lia].
Qed.

(** ** What [lex] does on each kind of lexeme *)

(** Case analysis on the class of [c]: at most one of the five tests
    holds. *)
Ltac class_cases c :=
  let H := fresh "Hdisj" in
  pose proof (classes_disjoint c) as H;
  destruct (PARENS c) eqn:?, (WHITESPACE c) eqn:?, (NUMBERS c) eqn:?,
    (c =? quote)%char eqn:?, (LETTERS c) eqn:?;
  simpl in H; try (exfalso; intuition discriminate); clear H.

Lemma lex_empty : lex "" = Done [].
Proof. now simp lex. Qed.

Lemma lex_paren c s :
  PARENS c = true -> lex (String c s) = omap (cons (mk "paren" (String c ""))) (lex s).
Proof. intros H. simp lex. now rewrite H. Qed.

Lemma lex_space c s : WHITESPACE c = true -> lex (String c s) = lex s.
Proof. intros H. simp lex. class_cases c; congruence. Qed.

Lemma lex_unknown c s :
  PARENS c = false -> WHITESPACE c = false -> NUMBERS c = false ->
  (c =? quote)%char = false -> LETTERS c = false ->
  lex (String c s) =
    Throw (TypeError ("I do not know what this character is: " ++ String c "")).
Proof. intros H1 H2 H3 H4 H5. simp lex. now rewrite H1, H2, H3, H4, H5. Qed.

(** A maximal run of digits is one [number] token. *)
Lemma lex_number c digits rest :
  NUMBERS c = true -> sforall NUMBERS digits = true ->
  (is_empty rest = true \/ exists d rest', rest = String d rest' /\ NUMBERS d = false) ->
  lex (String c (digits ++ rest)) = omap (cons (mk "number" (String c digits))) (lex rest).
Proof.
  intros Hc Hd Hrest. simp lex. class_cases c; try congruence.
  now destruct (take_while_all NUMBERS digits rest Hd Hrest) as [-> ->].
Qed.

(** A quoted run is one [string] token, and both quotes are consumed. *)
Lemma lex_string body rest :
  sforall not_quote body = true ->
  lex (String quote (body ++ String quote rest)) =
    omap (cons (mk "string" body)) (lex rest).
Proof.
  intros Hb. simp lex. simpl.
  destruct (take_while_all not_quote body (String quote rest) Hb) as [-> ->]; eauto.
Qed.

(** A run of letters followed by a character [d] that is not a letter is
    one [name] token, and [d] is consumed with it, whatever it is. *)
Lemma lex_name c letters d rest :
  LETTERS c = true -> sforall LETTERS letters = true -> LETTERS d = false ->
  lex (String c (letters ++ String d rest)) =
    omap (cons (mk "name" (String c letters))) (lex rest).
Proof.
  intros Hc Hl Hd. simp lex. class_cases c; try congruence.
  destruct (take_while_all LETTERS letters (String d rest) Hl) as [-> ->]; eauto.
Qed.

(** A run of letters up to the end of the input: the loop
    [while (LETTERS.test(char))] goes on with [char] undefined. *)
Lemma lex_name_at_end c letters :
  LETTERS c = true -> sforall LETTERS letters = true ->
  lex (String c letters) = OutOfFuel.
Proof.
  intros Hc Hl. simp lex. class_cases c; try congruence.
  rewrite <- (append_nil_r letters).
  destruct (take_while_all LETTERS letters "" Hl) as [_ ->]; auto.
Qed.

(** A string with no closing quote: the loop [while (char !== quote)] goes
    on with [char] undefined. *)
Lemma lex_string_unterminated body :
  sforall not_quote body = true -> lex (String quote body) = OutOfFuel.
Proof.
  intros Hb. simp lex. simpl.
  rewrite <- (append_nil_r body).
  destruct (take_while_all not_quote body "" Hb) as [_ ->]; auto.
Qed.

(** ** Shape of the tokens *)

Definition token_ok (t : token) : bool :=
  if (type t =? "paren")%string then
    ((value t =? "(") || (value t =? ")"))%string
  else if (type t =? "number")%string then
    negb (is_empty (value t)) && sforall NUMBERS (value t)
  else if (type t =? "string")%string then sforall not_quote (value t)
  else if (type t =? "name")%string then
    negb (is_empty (value t)) && sforall LETTERS (value t)
  else false.

(** Induction on the lexemes of an input, one case per branch of the
    loop. *)
Section LexInd.
Variable P : string -> outcome (list token) -> Prop.
Hypothesis Hend : P "" (Done []).
Hypothesis Hparen : forall c s, PARENS c = true -> P s (lex s) ->
  P (String c s) (omap (cons (mk "paren" (String c ""))) (lex s)).
Hypothesis Hspace : forall c s, WHITESPACE c = true -> P s (lex s) ->
  P (String c s) (lex s).
Hypothesis Hnumber : forall c s, NUMBERS c = true ->
  P (drop_while NUMBERS s) (lex (drop_while NUMBERS s)) ->
  P (String c s) (omap (cons (mk "number" (String c (take_while NUMBERS s))))
                       (lex (drop_while NUMBERS s))).
Hypothesis Hstring : forall c s, c = quote ->
  is_empty (drop_while not_quote s) = false ->
  P (sdrop 1 (drop_while not_quote s)) (lex (sdrop 1 (drop_while not_quote s))) ->
  P (String c s) (omap (cons (mk "string" (take_while not_quote s)))
                       (lex (sdrop 1 (drop_while not_quote s)))).
Hypothesis Hstring_open : forall c s, c = quote ->
  is_empty (drop_while not_quote s) = true -> P (String c s) OutOfFuel.
Hypothesis Hname : forall c s, LETTERS c = true ->
  is_empty (drop_while LETTERS s) = false ->
  P (sdrop 1 (drop_while LETTERS s)) (lex (sdrop 1 (drop_while LETTERS s))) ->
  P (String c s) (omap (cons (mk "name" (String c (take_while LETTERS s))))
                       (lex (sdrop 1 (drop_while LETTERS s)))).
Hypothesis Hname_open : forall c s, LETTERS c = true ->
  is_empty (drop_while LETTERS s) = true -> P (String c s) OutOfFuel.
Hypothesis Hunknown : forall c s,
  PARENS c = false -> WHITESPACE c = false -> NUMBERS c = false ->
  (c =? quote)%char = false -> LETTERS c = false ->
  P (String c s)
    (Throw (TypeError ("I do not know what this character is: " ++ String c ""))).

Lemma lex_cases s : P s (lex s).
Proof.
  funelim (lex s); [exact Hend|]. clear Heqcall.
  class_cases c; auto.
  - apply Ascii.eqb_eq in Heqb2.
    destruct (is_empty (drop_while not_quote s')) eqn:E; auto.
  - destruct (is_empty (drop_while LETTERS s')) eqn:E; auto.
Qed.
End LexInd.

Lemma paren_value c :
  PARENS c = true -> ((String c "" =? "(") || (String c "" =? ")"))%string = true.
Proof.
  unfold PARENS. intros H. apply orb_prop in H as [H|H];
    apply Ascii.eqb_eq in H; subst; reflexivity.
Qed.

Lemma lex_tokens_ok s tokens :
  lex s = Done tokens -> Forall (fun t => token_ok t = true) tokens.
Proof.
  revert tokens. pattern s, (lex s). apply lex_cases; clear s;
    intros; outcome_inv; auto; constructor; auto; unfold token_ok; simpl.
  - now apply paren_value.
  - now rewrite H, sforall_take_while.
  - apply sforall_take_while.
  - now rewrite H, sforall_take_while.
Qed.

(** ** Inputs on which the tokenizer never returns *)

(** [last_is p s]: [s] is not empty and its last character is in [p]. *)
Fixpoint last_is (p : ascii -> bool) (s : string) : bool :=
  match s with
  | EmptyString => false
  | String c s' => if is_empty s' then p c else last_is p s'
  end.

Lemma last_is_append p s c : last_is p (s ++ String c "") = p c.
Proof.
  induction s as [|d s IH]; simpl; [reflexivity|].
  rewrite IH. now destruct s.
Qed.

Lemma last_is_sdrop p n s :
  last_is p s = true -> is_empty (sdrop n s) = false -> last_is p (sdrop n s) = true.
Proof.
  revert s. induction n as [|n IH]; intros s; [now rewrite sdrop_0|].
  destruct s as [|c s]; [discriminate|]. cbn [sdrop last_is].
  destruct (is_empty s) eqn:E; [|apply IH].
  destruct s; [|discriminate]. now rewrite sdrop_empty.
Qed.

Lemma drop_while_sdrop q s : drop_while q s = sdrop (String.length (take_while q s)) s.
Proof. pose proof (sdrop_take_while q 0 s) as H. now rewrite !sdrop_0 in H. Qed.

Lemma last_is_drop_while p q s :
  last_is p s = true -> is_empty (drop_while q s) = false ->
  last_is p (drop_while q s) = true.
Proof. rewrite drop_while_sdrop. apply last_is_sdrop. Qed.

Lemma last_is_sdrop_drop_while p q s :
  last_is p s = true -> is_empty (sdrop 1 (drop_while q s)) = false ->
  last_is p (sdrop 1 (drop_while q s)) = true.
Proof. rewrite drop_while_sdrop, sdrop_sdrop. apply last_is_sdrop. Qed.

(** When [drop_while q] leaves nothing or a single character, the last
    character of a non-empty [s] is in [q] or is that character. *)
Lemma last_is_all p q s :
  last_is p s = true -> is_empty (drop_while q s) = true ->
  exists c, p c = true /\ q c = true.
Proof.
  induction s as [|c s IH]; simpl; [discriminate|].
  destruct (q c) eqn:Hq; [|discriminate].
  destruct (is_empty s) eqn:E; [eauto | assumption].
Qed.

Lemma last_is_single p q s :
  last_is p s = true -> is_empty (drop_while q s) = false ->
  is_empty (sdrop 1 (drop_while q s)) = true ->
  exists c, p c = true /\ q c = false.
Proof.
  induction s as [|c s IH]; simpl; [discriminate|].
  destruct (q c) eqn:Hq.
  - destruct (is_empty s) eqn:E; [|assumption].
    destruct s; discriminate.
  - cbn [sdrop]. intros Hp _ E. rewrite E in Hp. eauto.
Qed.

Lemma lex_trailing_letter s tokens :
  last_is LETTERS s = true -> lex s <> Done tokens.
Proof.
  revert tokens. pattern s, (lex s). apply lex_cases; clear s;
    try discriminate; intros c s Hc.
  - intros IH tokens Hl E. outcome_inv. simpl in Hl.
    destruct (is_empty s); [class_cases c; congruence | eapply IH; eauto].
  - intros IH tokens Hl E. simpl in Hl.
    destruct (is_empty s); [class_cases c; congruence | eapply IH; eauto].
  - intros IH tokens Hl E. outcome_inv. simpl in Hl.
    destruct (is_empty (drop_while NUMBERS s)) eqn:Hd.
    + destruct (is_empty s) eqn:Hs; [class_cases c; congruence|].
      destruct (last_is_all _ _ _ Hl Hd) as (d & ? & ?). class_cases d; congruence.
    + destruct (is_empty s) eqn:Hs; [destruct s; discriminate|].
      eapply IH; eauto using last_is_drop_while.
  - intros Hd IH tokens Hl E. outcome_inv. simpl in Hl.
    destruct (is_empty s) eqn:Hs; [destruct s; discriminate|].
    destruct (is_empty (sdrop 1 (drop_while not_quote s))) eqn:Hr.
    + destruct (last_is_single _ _ _ Hl Hd Hr) as (d & ? & Hq).
      apply negb_false_iff in Hq. class_cases d; congruence.
    + eapply IH; eauto using last_is_sdrop_drop_while.
  - intros Hd IH tokens Hl E. outcome_inv. simpl in Hl.
    destruct (is_empty s) eqn:Hs; [destruct s; discriminate|].
    destruct (is_empty (sdrop 1 (drop_while LETTERS s))) eqn:Hr.
    + destruct (last_is_single _ _ _ Hl Hd Hr) as (d & ? & Hq). congruence.
    + eapply IH; eauto using last_is_sdrop_drop_while.
Qed.

(** ** Errors *)

Definition unknown (c : ascii) : bool :=
  negb (PARENS c || WHITESPACE c || NUMBERS c || (c =? quote)%char || LETTERS c).

Definition occurs (c : ascii) (s : string) : bool := sexists (Ascii.eqb c) s.

Lemma occurs_sdrop c n s : occurs c (sdrop n s) = true -> occurs c s = true.
Proof.
  unfold occurs. revert s. induction n as [|n IH]; intros s; [now rewrite sdrop_0|].
  destruct s as [|d s]; cbn [sdrop sexists]; [auto|].
  intros H. rewrite (IH _ H). apply orb_true_r.
Qed.

Lemma occurs_drop_while c q s : occurs c (drop_while q s) = true -> occurs c s = true.
Proof. rewrite drop_while_sdrop. apply occurs_sdrop. Qed.

Lemma occurs_tail c d s : occurs c s = true -> occurs c (String d s) = true.
Proof. unfold occurs. simpl. intros ->. apply orb_true_r. Qed.

#[export] Hint Resolve occurs_sdrop occurs_drop_while occurs_tail : js.

Lemma lex_error s e :
  lex s = Throw e ->
  exists c, e = TypeError ("I do not know what this character is: " ++ String c "") /\
            unknown c = true /\ occurs c s = true.
Proof.
  revert e. pattern s, (lex s). apply lex_cases; clear s; try discriminate;
    intros c s; intros; outcome_inv;
    try match goal with
    | IH : forall e, _ = Throw e -> _, H : _ = Throw _ |- _ =>
        destruct (IH _ H) as (d & ? & ? & ?); exists d; eauto 6 with js
    end.
  exists c. unfold unknown, occurs. simpl.
  repeat match goal with H : _ = false |- _ => rewrite H; clear H end.
  now rewrite Ascii.eqb_refl.
Qed.

(** ** The tokens are pieces of the input

    [pieces values s]: the strings [values] stand in [s] one after the
    other, each in one piece, with any characters before, between and
    after them. *)

Inductive pieces : list string -> string -> Prop :=
| pieces_nil s : pieces [] s
| pieces_cons gap v values s :
    pieces values s -> pieces (v :: values) (gap ++ v ++ s).

Lemma pieces_skip gap values s : pieces values s -> pieces values (gap ++ s).
Proof.
  intros [s'|g v values' s' H]; [constructor|].
  rewrite <- append_assoc. now constructor.
Qed.

(** A value at the head of the input, and one behind an opening
    character; the rest is read after one more character. *)
Lemma pieces_head p c s values :
  pieces values (drop_while p s) ->
  pieces (String c (take_while p s) :: values) (String c s).
Proof.
  intros H. rewrite <- (take_drop_while p s) at 2.
  now apply (pieces_cons "" (String c (take_while p s))).
Qed.

Lemma pieces_sdrop values s : pieces values (sdrop 1 s) -> pieces values s.
Proof. destruct s as [|d s]; [easy|]. apply (pieces_skip (String d "")). Qed.

Lemma pieces_behind p c s values :
  pieces values (sdrop 1 (drop_while p s)) ->
  pieces (take_while p s :: values) (String c s).
Proof.
  intros H. rewrite <- (take_drop_while p s) at 2.
  apply (pieces_cons (String c "") (take_while p s)). now apply pieces_sdrop.
Qed.

Lemma lex_pieces s tokens : lex s = Done tokens -> pieces (map value tokens) s.
Proof.
  revert tokens. pattern s, (lex s). apply lex_cases; clear s;
    intros; outcome_inv; cbn [map value mk]; auto using pieces.
  - now apply (pieces_cons "" (String c "")), H0.
  - now apply (pieces_skip (String c "")), H0.
  - now apply pieces_head, H0.
  - now apply pieces_behind, H1.
  - now apply pieces_head, pieces_sdrop, H1.
Qed.

(** ** Printing tokens back

    [unlex] writes a token list as a text the tokenizer reads back: every
    token is followed by a space, which separates the numbers and is the
    character the tokenizer drops after a name. *)

Definition unlex_token (t : token) : string :=
  if type t =? "string" then String quote (value t ++ String quote " ")
  else value t ++ " ".

Fixpoint unlex (tokens : list token) : string :=
  match tokens with
  | [] => ""
  | t :: tokens => unlex_token t ++ unlex tokens
  end.

Lemma nonempty_sforall p v :
  negb (is_empty v) && sforall p v = true ->
  exists c v', v = String c v' /\ p c = true /\ sforall p v' = true.
Proof.
  destruct v as [|c v']; [discriminate|]. simpl. intros H.
  apply andb_prop in H as [Hc Hv]. eauto.
Qed.

Lemma lex_unlex_token t rest :
  token_ok t = true -> lex (unlex_token t ++ rest) = omap (cons t) (lex rest).
Proof.
  destruct t as [ty v]. unfold token_ok, unlex_token, mk in *. cbn [type value]. intros H.
  destruct (String.eqb_spec ty "paren") as [-> | _].
  - apply orb_prop in H as [H | H]; apply String.eqb_eq in H as ->;
      cbn [String.eqb Ascii.eqb Bool.eqb append];
      rewrite lex_paren, lex_space; reflexivity.
  - destruct (String.eqb_spec ty "number") as [-> | _].
    + apply nonempty_sforall in H as (c & v' & -> & Hc & Hv).
      cbn [String.eqb Ascii.eqb Bool.eqb append]. rewrite append_assoc.
      rewrite lex_number by (auto; right; now exists " "%char, rest).
      cbn [append]. now rewrite lex_space.
    + destruct (String.eqb_spec ty "string") as [-> | _].
      * cbn [append]. rewrite append_assoc. cbn [append].
        rewrite lex_string by exact H. now rewrite lex_space.
      * destruct (String.eqb_spec ty "name") as [-> | _]; [|discriminate].
        apply nonempty_sforall in H as (c & v' & -> & Hc & Hv).
        cbn [append]. rewrite append_assoc. cbn [append]. now rewrite lex_name.
Qed.

Lemma unlex_app tokens tokens' : unlex (tokens ++ tokens') = unlex tokens ++ unlex tokens'.
Proof.
  induction tokens as [|t tokens IH]; simpl; [reflexivity|].
  now rewrite IH, append_assoc.
Qed.

Lemma lex_unlex_app tokens rest :
  Forall (fun t => token_ok t = true) tokens ->
  lex (unlex tokens ++ rest) = omap (app tokens) (lex rest).
Proof.
  induction 1 as [|t tokens Ht _ IH]; cbn [unlex append].
  - now destruct (lex rest).
  - rewrite append_assoc, lex_unlex_token, IH, omap_omap by exact Ht. reflexivity.
Qed.

Lemma lex_unlex tokens :
  Forall (fun t => token_ok t = true) tokens -> lex (unlex tokens) = Done tokens.
Proof.
  intros H. rewrite <- (append_nil_r (unlex tokens)), lex_unlex_app by exact H.
  simp lex. simpl. now rewrite app_nil_r.
Qed.

(** A name followed by any character that is not a letter. *)
Lemma lex_name_then name d rest :
  negb (is_empty name) && sforall LETTERS name = true -> LETTERS d = false ->
  lex (name ++ String d rest) = omap (cons (mk "name" name)) (lex rest).
Proof.
  intros H Hd. apply nonempty_sforall in H as (c & v & -> & Hc & Hv).
  cbn [append]. now apply lex_name.
Qed.

(** Where [lex] does not return, no fuel makes the loop return. *)
Lemma tokenizer_diverges fuel input : lex input = OutOfFuel -> tokenizer fuel input = OutOfFuel.
Proof.
  intros H. destruct (tokenizer fuel input) eqn:E; [| |reflexivity];
    rewrite tokenizer_terminates_lex in E by (rewrite E; discriminate); congruence.
Qed.

(** ** The properties of the tokenizer *)

(** C3: The loop of [tokenizer] refines the reference lexer [lex]: given
    at least [tokenizer_fuel input] iterations, or whenever it returns or
    throws within the iterations it is given, it returns the tokens [lex]
    returns and throws what [lex] throws; and it runs out of any number of
    iterations exactly where [lex] says the loops do not stop. *)
Theorem tokenizer_refines_lex fuel input :
  tokenizer_fuel input <= fuel \/ terminates (tokenizer fuel input) ->
  tokenizer fuel input = lex input.
Proof. intros [H|H]; [now apply tokenizer_lex | now apply tokenizer_terminates_lex]. Qed.

Lemma tokenizer_refines_lex_witness :
  tokenizer 24 "(add 2 (subtract 4 2))" = lex "(add 2 (subtract 4 2))".
Proof. apply tokenizer_refines_lex. left. vm_compute. lia. Defined.

(** C16: An input whose last character is a letter is never tokenized:
    whatever the number of iterations allowed, [tokenizer] does not return
    a token list.  The loop that accumulates a name reads [undefined] past
    the end of the input, [LETTERS.test(undefined)] is true, and the loop
    goes on. *)
Theorem tokenizer_trailing_letter fuel s c tokens :
  LETTERS c = true -> tokenizer fuel (s ++ String c "") <> Done tokens.
Proof.
  intros Hc H. assert (T : terminates (tokenizer fuel (s ++ String c ""))) by (rewrite H; discriminate).
  rewrite (tokenizer_terminates_lex _ _ T) in H.
  revert H. apply lex_trailing_letter. now rewrite last_is_append.
Qed.

Lemma tokenizer_trailing_letter_witness :
  LETTERS "b" = true /\
  tokenizer 100 ("(add 2 " ++ String "b" "") <>
    Done [mk "paren" "("; mk "name" "add"; mk "number" "2"; mk "name" "b"].
Proof. split; [reflexivity|]. apply tokenizer_trailing_letter. reflexivity. Defined.

(** C17: A string that is not closed is never tokenized: after any
    well-formed tokens, an opening quote followed by characters that hold
    no quote makes the loop [while (char !== quote)] run past the end of
    the input, where [char] is [undefined] for ever. *)
Theorem tokenizer_unterminated_string fuel tokens body :
  Forall (fun t => token_ok t = true) tokens -> sforall not_quote body = true ->
  tokenizer fuel (unlex tokens ++ String quote body) = OutOfFuel.
Proof.
  intros Hok Hb. apply tokenizer_diverges.
  now rewrite lex_unlex_app, lex_string_unterminated.
Qed.

Lemma tokenizer_unterminated_string_witness :
  tokenizer 1000 (unlex [mk "paren" "("; mk "name" "f"] ++ String quote "abc)") = OutOfFuel.
Proof. apply tokenizer_unterminated_string; [repeat constructor | reflexivity]. Defined.

(** C18: The character that follows a name is consumed with the name,
    whatever it is: after the loop that accumulates the letters,
    [current++] steps over it.  The tokens of [name d rest] are the name
    token followed by the tokens of [rest]. *)
Theorem tokenizer_name_swallows_next fuel c letters d rest :
  LETTERS c = true -> sforall LETTERS letters = true -> LETTERS d = false ->
  tokenizer_fuel (String c (letters ++ String d rest)) <= fuel ->
  tokenizer fuel (String c (letters ++ String d rest)) =
    omap (cons (mk "name" (String c letters))) (tokenizer fuel rest).
Proof.
  intros Hc Hl Hd Hfuel. unfold tokenizer_fuel in Hfuel. simpl in Hfuel.
  rewrite length_append in Hfuel. simpl in Hfuel.
  rewrite !tokenizer_lex by (unfold tokenizer_fuel; simpl; rewrite ?length_append; simpl; lia).
  now apply lex_name.
Qed.

Lemma tokenizer_name_swallows_next_witness :
  tokenizer 20 "(a)" = omap (cons (mk "paren" "(")) (omap (cons (mk "name" "a")) (tokenizer 20 ""))
  /\ tokenizer 20 "ab)" = omap (cons (mk "name" "ab")) (tokenizer 20 "").
Proof.
  split; [reflexivity|].
  apply (tokenizer_name_swallows_next 20 "a" "b" ")" ""); try reflexivity.
  vm_compute. lia.
Defined.

(** C31: Every token [tokenizer] returns is well formed: its type is one
    of paren, number, string, name; a paren is one parenthesis, a number a
    non-empty run of digits, a name a non-empty run of letters, and a
    string holds no double quote. *)
Theorem tokenizer_tokens_ok fuel input tokens :
  tokenizer fuel input = Done tokens -> Forall (fun t => token_ok t = true) tokens.
Proof.
  intros H. apply (lex_tokens_ok input).
  rewrite <- H. symmetry. apply tokenizer_terminates_lex. rewrite H. discriminate.
Qed.

Lemma tokenizer_tokens_ok_witness :
  Forall (fun t => token_ok t = true)
    [mk "paren" "("; mk "name" "add"; mk "number" "2"; mk "paren" ")"].
Proof. apply (tokenizer_tokens_ok 20 "(add 2)"). reflexivity. Defined.

(** C33: The only exception [tokenizer] throws is the [TypeError] of its
    last statement, and its message names a character of the input that
    is in none of the classes the loop tests for. *)
Theorem tokenizer_error fuel input e :
  tokenizer fuel input = Throw e ->
  exists c, e = TypeError ("I do not know what this character is: " ++ String c "") /\
            unknown c = true /\ occurs c input = true.
Proof.
  intros H. apply lex_error.
  rewrite <- H. symmetry. apply tokenizer_terminates_lex. rewrite H. discriminate.
Qed.

Lemma tokenizer_error_witness :
  exists c, TypeError "I do not know what this character is: @" =
              TypeError ("I do not know what this character is: " ++ String c "") /\
            unknown c = true /\ occurs c "(add 2 @)" = true.
Proof. apply (tokenizer_error 20 "(add 2 @)"). reflexivity. Defined.

(** C11: Tokenizing inverts printing: on the text [unlex] writes for a
    list of well-formed tokens (each token followed by a space),
    [tokenizer] returns that list. *)
Theorem tokenizer_unlex fuel tokens :
  Forall (fun t => token_ok t = true) tokens ->
  tokenizer_fuel (unlex tokens) <= fuel ->
  tokenizer fuel (unlex tokens) = Done tokens.
Proof. intros Hok Hf. rewrite tokenizer_lex by exact Hf. now apply lex_unlex. Qed.

Lemma tokenizer_unlex_witness :
  tokenizer 20 (unlex [mk "paren" "("; mk "name" "f"; mk "string" "a b"; mk "number" "10";
                       mk "paren" ")"]) =
  Done [mk "paren" "("; mk "name" "f"; mk "string" "a b"; mk "number" "10"; mk "paren" ")"].
Proof.
  apply tokenizer_unlex; [repeat constructor | vm_compute; lia].
Defined.

(** C32: The tokenizer invents no character: the values of the tokens
    it returns stand in the input one after the other, each in one piece.
    Although the inner loops append [undefined] to a value once the
    cursor is past the end, no call that returns has done so. *)
Theorem tokenizer_pieces fuel input tokens :
  tokenizer fuel input = Done tokens -> pieces (map value tokens) input.
Proof.
  intros H. apply lex_pieces. rewrite <- H. symmetry.
  apply tokenizer_terminates_lex. now rewrite H.
Qed.

Lemma tokenizer_pieces_witness :
  pieces (map value [mk "paren" "("; mk "name" "add"; mk "number" "12"; mk "name" "x"])
    "(add 12 x)".
Proof. apply (tokenizer_pieces 20). reflexivity. Defined.

(** On the input of the repository's test, [tokenizer] returns the
    nine tokens the test expects. *)
Example tokenizer_fixture :
  tokenizer (tokenizer_fuel "(add 2 (subtract 4 2))") "(add 2 (subtract 4 2))" =
  Done [mk "paren" "("; mk "name" "add"; mk "number" "2"; mk "paren" "(";
        mk "name" "subtract"; mk "number" "4"; mk "number" "2";
        mk "paren" ")"; mk "paren" ")"].
Proof. reflexivity. Qed.

(** ** The tokenizer as a stage *)

#[export] Instance tokenizer_stage :
  Stage (fun input => tokenizer (tokenizer_fuel input) input) lex
    (fun _ => True) (Forall (fun t => token_ok t = true)).
Proof.
  split; [intros input _; now apply tokenizer_lex | intros input tokens _; apply lex_tokens_ok].
Qed.
