(* ===== verification/Parser.v ===== *)
(** * The parser ([parser], src/tiny-compiler.js lines 83-144)

    [walk] and the [while] loop that collects the parameters of a call
    share the cursor [current] into [tokens]; here they are two mutually
    recursive functions that take the cursor and return it with their
    result.  Reading [tokens[current]] past the end gives [undefined], and
    reading a property of it is the engine's [TypeError].  [walk_on],
    [params_on] and [body_on] are the same functions on the remaining
    suffix of the tokens instead of the cursor; the theorems are proved on
    them and carried over.  [flatten] prints a tree to tokens, and
    [reads] relates the token lists the parser takes for that print: the
    parser returns a tree exactly on the tokens that read as its print. *)

From Stdlib Require Import String Ascii List Arith Lia Bool.
From S2P Require Import Prelude Ast Tokenizer.
Import ListNotations.
Local Open Scope string_scope.
Local Open Scope js_scope.

(** ** Tests on tokens *)

(** [token.type === 'paren' && token.value === '('] *)
Definition is_open (token : token) : bool :=
  (type token =? "paren") && (value token =? "(").

(** The condition of the [while] that collects parameters:
    [token.type !== 'paren' || (token.type === 'paren' && token.value !== ')')] *)
Definition not_close (token : token) : bool :=
  negb (type token =? "paren") || ((type token =? "paren") && negb (value token =? ")")).

(** ** [walk] and the parameter loop *)

Fixpoint walk (fuel : nat) (tokens : list token) (current : nat)
    : outcome (Src.node * nat) :=
  match fuel with
  | 0 => OutOfFuel
  | S fuel =>
      match nth_error tokens current with
      | None => Throw (UndefinedRead "type")
      | Some token =>
          if type token =? "number" then
            Done (Src.NumberLiteral (value token), S current)
          else if type token =? "string" then
            Done (Src.StringLiteral (value token), S current)
          else if is_open token then
            let current := S current in
            match nth_error tokens current with
            | None => Throw (UndefinedRead "value")
            | Some token =>
                let name := value token in
                let current := S current in
                params_loop fuel tokens name [] current
            end
          else Throw (TypeError (type token))
      end
  end
with params_loop (fuel : nat) (tokens : list token) (name : string)
    (params : list Src.node) (current : nat) : outcome (Src.node * nat) :=
  match fuel with
  | 0 => OutOfFuel
  | S fuel =>
      match nth_error tokens current with
      | None => Throw (UndefinedRead "type")
      | Some token =>
          if not_close token then
            '(node, current) <- walk fuel tokens current ;;
            params_loop fuel tokens name (params ++ [node])%list current
          else Done (Src.CallExpression name params, S current)
      end
  end.

(** ** The top-level loop *)

Fixpoint parser_loop (fuel : nat) (tokens : list token) (current : nat)
    (body : list Src.node) : outcome Src.node :=
  match fuel with
  | 0 => OutOfFuel
  | S fuel =>
      if (current <? List.length tokens)%nat then
        '(node, current) <- walk fuel tokens current ;;
        parser_loop fuel tokens current (body ++ [node])%list
      else Done (Src.Program body)
  end.

Definition parser (fuel : nat) (tokens : list token) : outcome Src.node :=
  parser_loop fuel tokens 0 [].

(** Calls that are enough for any token list. *)
Definition parser_fuel (tokens : list token) : nat := 2 * List.length tokens + 2.

(** ** The same functions on the remaining tokens *)

Fixpoint walk_on (fuel : nat) (ts : list token) : outcome (Src.node * list token) :=
  match fuel with
  | 0 => OutOfFuel
  | S fuel =>
      match ts with
      | [] => Throw (UndefinedRead "type")
      | token :: ts1 =>
          if type token =? "number" then Done (Src.NumberLiteral (value token), ts1)
          else if type token =? "string" then Done (Src.StringLiteral (value token), ts1)
          else if is_open token then
            match ts1 with
            | [] => Throw (UndefinedRead "value")
            | token :: ts2 => params_on fuel (value token) [] ts2
            end
          else Throw (TypeError (type token))
      end
  end
with params_on (fuel : nat) (name : string) (params : list Src.node)
    (ts : list token) : outcome (Src.node * list token) :=
  match fuel with
  | 0 => OutOfFuel
  | S fuel =>
      match ts with
      | [] => Throw (UndefinedRead "type")
      | token :: ts1 =>
          if not_close token then
            '(node, ts') <- walk_on fuel ts ;;
            params_on fuel name (params ++ [node])%list ts'
          else Done (Src.CallExpression name params, ts1)
      end
  end.

Fixpoint body_on (fuel : nat) (body : list Src.node) (ts : list token)
    : outcome Src.node :=
  match fuel with
  | 0 => OutOfFuel
  | S fuel =>
      match ts with
      | [] => Done (Src.Program body)
      | _ :: _ =>
          '(node, ts') <- walk_on fuel ts ;;
          body_on fuel (body ++ [node])%list ts'
      end
  end.

(** ** The printer from trees to tokens *)

Fixpoint flatten (n : Src.node) : list token :=
  match n with
  | Src.NumberLiteral v => [mk "number" v]
  | Src.StringLiteral v => [mk "string" v]
  | Src.CallExpression name params =>
      mk "paren" "(" :: mk "name" name :: flat_map flatten params ++ [mk "paren" ")"]
  | Src.Program body => flat_map flatten body
  | Src.Other _ => []
  end.

(** ** Soundness on the remaining tokens

    What [walk_on] consumes is, value by value, the printed form of the
    tree it returns, and the tree is an expression.  The types agree too,
    except for the token after an opening parenthesis, whose value is
    taken as the name of the call whatever its type. *)

Definition values (ts : list token) : list string := map value ts.

(** [agree t t']: the token [t] is read by the parser as the printed
    token [t']: the same value, and the same type unless [t'] is the name
    of a call. *)
Definition agree (t t' : token) : bool :=
  (value t =? value t') && ((type t' =? "name") || (type t =? type t')).

Definition reads (ts ts' : list token) : Prop :=
  Forall2 (fun t t' => agree t t' = true) ts ts'.

Lemma values_app ts ts' : values (ts ++ ts') = (values ts ++ values ts')%list.
Proof. apply map_app. Qed.

Lemma agree_refl t : agree t t = true.
Proof. unfold agree. now rewrite !String.eqb_refl, orb_true_r. Qed.

Lemma agree_mk t ty : type t = ty -> agree t (mk ty (value t)) = true.
Proof. intros <-. unfold agree. simpl. now rewrite !String.eqb_refl, orb_true_r. Qed.

Lemma agree_name t : agree t (mk "name" (value t)) = true.
Proof. unfold agree. simpl. now rewrite String.eqb_refl. Qed.

(** Away from the names the printed token is the token read. *)
Lemma agree_eq t ty v : agree t (mk ty v) = true -> (ty =? "name") = false -> t = mk ty v.
Proof.
  unfold agree, mk. cbn [type value]. intros H E. rewrite E in H. cbn [orb] in H.
  apply andb_prop in H as [Hv Ht].
  apply String.eqb_eq in Hv, Ht. destruct t. simpl in *. now subst.
Qed.

Lemma agree_value t t' : agree t t' = true -> value t = value t'.
Proof. unfold agree. intros H. apply andb_prop in H as [Hv _]. now apply String.eqb_eq. Qed.

Lemma reads_refl ts : reads ts ts.
Proof. induction ts; constructor; auto using agree_refl. Qed.

Lemma reads_app ts1 ts1' ts2 ts2' :
  reads ts1 ts1' -> reads ts2 ts2' -> reads (ts1 ++ ts2) (ts1' ++ ts2').
Proof. apply Forall2_app. Qed.

Lemma reads_values ts ts' : reads ts ts' -> values ts = values ts'.
Proof. induction 1; simpl; [reflexivity|]. f_equal; auto using agree_value. Qed.

Lemma reads_length ts ts' : reads ts ts' -> List.length ts = List.length ts'.
Proof. induction 1; simpl; auto. Qed.

#[export] Hint Resolve agree_refl agree_mk agree_name reads_refl reads_app : js.

Lemma not_close_false token :
  not_close token = false -> type token = "paren" /\ value token = ")".
Proof.
  unfold not_close. destruct (String.eqb_spec (type token) "paren"); simpl; [|discriminate].
  destruct (String.eqb_spec (value token) ")"); simpl; [auto | discriminate].
Qed.

Lemma is_open_true token :
  is_open token = true -> type token = "paren" /\ value token = "(".
Proof.
  unfold is_open. intros H. apply andb_prop in H as [H1 H2].
  now apply String.eqb_eq in H1, H2.
Qed.

Definition walk_sound_at (fuel : nat) : Prop :=
  forall ts n rest, walk_on fuel ts = Done (n, rest) ->
  exists pre, ts = (pre ++ rest)%list /\ reads pre (flatten n) /\
              Src.expr n = true.

Definition params_sound_at (fuel : nat) : Prop :=
  forall name params ts n rest, params_on fuel name params ts = Done (n, rest) ->
  exists pre ps, ts = (pre ++ rest)%list /\
    n = Src.CallExpression name (params ++ ps) /\
    reads pre (flat_map flatten ps ++ [mk "paren" ")"]) /\
    forallb Src.expr ps = true.

Lemma walk_on_sound_step fuel :
  params_sound_at fuel -> walk_sound_at (S fuel).
Proof.
  intros IHp ts n rest H. simpl in H.
  destruct ts as [|token ts1]; [discriminate|].
  destruct (String.eqb_spec (type token) "number");
    [injection H as <- <-; exists [token]; repeat constructor; auto with js|].
  destruct (String.eqb_spec (type token) "string");
    [injection H as <- <-; exists [token]; repeat constructor; auto with js|].
  destruct (is_open token) eqn:Ho; [|discriminate].
  destruct ts1 as [|tname ts2]; [discriminate|].
  apply IHp in H as (pre & ps & -> & -> & Hv & He).
  apply is_open_true in Ho as [Ht Ho].
  exists (token :: tname :: pre). repeat split; [|exact He].
  cbn [flatten]. repeat constructor; [|apply agree_name|exact Hv].
  rewrite <- Ho. now apply agree_mk.
Qed.

Lemma params_on_sound_step fuel :
  walk_sound_at fuel -> params_sound_at fuel -> params_sound_at (S fuel).
Proof.
  intros IHw IHp name params ts n rest H. simpl in H.
  destruct ts as [|token ts1]; [discriminate|].
  destruct (not_close token) eqn:Hc.
  - apply bind_Done_inv in H as ([node ts'] & Hw & H).
    apply IHw in Hw as (pre1 & -> & Hv1 & He1).
    apply IHp in H as (pre2 & ps & -> & -> & Hv2 & He2).
    exists (pre1 ++ pre2)%list, (node :: ps). simpl.
    rewrite <- !app_assoc, He1, He2. repeat split; auto with js.
  - injection H as <- <-. apply not_close_false in Hc as [Ht Hc].
    exists [token], []. simpl. rewrite app_nil_r. repeat split.
    repeat constructor. rewrite <- Hc. now apply agree_mk.
Qed.

Lemma walk_params_sound fuel : walk_sound_at fuel /\ params_sound_at fuel.
Proof.
  induction fuel as [|fuel [IHw IHp]].
  - split; red; intros; easy.
  - split; [now apply walk_on_sound_step | now apply params_on_sound_step].
Qed.

Lemma walk_on_sound fuel : walk_sound_at fuel.
Proof. apply walk_params_sound. Qed.

Lemma params_on_sound fuel : params_sound_at fuel.
Proof. apply walk_params_sound. Qed.

(** An expression prints to at least one token, so [walk_on] makes
    progress. *)
Lemma flatten_expr_length n : Src.expr n = true -> 0 < List.length (flatten n).
Proof. destruct n; simpl; try discriminate; lia. Qed.

Lemma walk_on_progress fuel ts n rest :
  walk_on fuel ts = Done (n, rest) ->
  exists pre, ts = (pre ++ rest)%list /\ 0 < List.length pre.
Proof.
  intros H. apply walk_on_sound in H as (pre & -> & Hv & He). exists pre. split; auto.
  apply flatten_expr_length in He. apply reads_length in Hv. lia.
Qed.

Lemma params_on_progress fuel name params ts n rest :
  params_on fuel name params ts = Done (n, rest) ->
  exists pre, ts = (pre ++ rest)%list /\ 0 < List.length pre.
Proof.
  intros H. apply params_on_sound in H as (pre & ps & -> & _ & Hv & _). exists pre. split; auto.
  apply reads_length in Hv. rewrite length_app in Hv. simpl in Hv. lia.
Qed.

(** ** The cursor against the remaining tokens *)

(** The cursor after a result that leaves [rest] of [tokens]. *)
Definition cursor (tokens : list token) (r : Src.node * list token) : Src.node * nat :=
  (fst r, List.length tokens - List.length (snd r)).

Lemma skipn_cons {A} (l : list A) n x l' :
  skipn n l = x :: l' ->
  nth_error l n = Some x /\ skipn (S n) l = l' /\ n < List.length l.
Proof.
  revert l. induction n as [|n IH]; intros l H.
  - destruct l; simpl in *; [discriminate|]. injection H as -> ->. simpl. auto with arith.
  - destruct l as [|y l]; simpl in H; [discriminate|].
    apply IH in H as (H1 & H2 & H3). simpl. auto with arith.
Qed.

Lemma skipn_nil {A} (l : list A) n :
  skipn n l = [] -> nth_error l n = None /\ List.length l <= n.
Proof.
  intros H. assert (L : List.length l <= n).
  { pose proof (length_skipn n l) as E. rewrite H in E. simpl in E. lia. }
  split; [now apply nth_error_None | assumption].
Qed.

(** Where a result that consumed [pre] leaves the cursor. *)
Lemma skipn_consumed (tokens pre rest : list token) current :
  skipn current tokens = (pre ++ rest)%list ->
  skipn (List.length tokens - List.length rest) tokens = rest.
Proof.
  intros H. assert (L := length_skipn current tokens).
  rewrite H, length_app in L.
  destruct (Nat.le_gt_cases (List.length tokens) current) as [Hle|Hgt].
  - rewrite skipn_all2 in H by assumption.
    symmetry in H. apply app_eq_nil in H as [-> ->]. simpl.
    rewrite Nat.sub_0_r. apply skipn_all.
  - replace (List.length tokens - List.length rest) with (List.length pre + current) by lia.
    rewrite <- skipn_skipn, H. now rewrite skipn_app, skipn_all, Nat.sub_diag.
Qed.

#[local] Arguments nth_error : simpl never.
#[local] Arguments skipn : simpl never.

Definition walk_cursor_at (fuel : nat) : Prop :=
  forall tokens current,
  walk fuel tokens current = omap (cursor tokens) (walk_on fuel (skipn current tokens)).

Definition params_cursor_at (fuel : nat) : Prop :=
  forall tokens name params current,
  params_loop fuel tokens name params current =
    omap (cursor tokens) (params_on fuel name params (skipn current tokens)).

Lemma walk_cursor_step fuel : params_cursor_at fuel -> walk_cursor_at (S fuel).
Proof.
  intros IHp tokens current. simpl.
  destruct (skipn current tokens) as [|token ts1] eqn:E.
  { now apply skipn_nil in E as [-> _]. }
  apply skipn_cons in E as (-> & E1 & L).
  destruct (type token =? "number"), (type token =? "string"); simpl;
    try (unfold cursor; simpl; rewrite <- E1, length_skipn; do 2 f_equal; lia).
  destruct (is_open token); [|reflexivity].
  destruct ts1 as [|tname ts2].
  { now apply skipn_nil in E1 as [-> _]. }
  apply skipn_cons in E1 as (-> & E2 & _). now rewrite IHp, E2.
Qed.

Lemma params_cursor_step fuel :
  walk_cursor_at fuel -> params_cursor_at fuel -> params_cursor_at (S fuel).
Proof.
  intros IHw IHp tokens name params current. simpl.
  destruct (skipn current tokens) as [|token ts1] eqn:E.
  { now apply skipn_nil in E as [-> _]. }
  rewrite <- E. apply skipn_cons in E as (-> & E1 & L).
  destruct (not_close token).
  - rewrite IHw. destruct (walk_on fuel (skipn current tokens)) as [[node ts']| |] eqn:W;
      try reflexivity.
    apply walk_on_progress in W as (pre & W & _).
    apply skipn_consumed in W.
    cbn [omap bind cursor fst snd]. now rewrite IHp, W.
  - unfold cursor; simpl. rewrite <- E1, length_skipn. do 3 f_equal. lia.
Qed.

Lemma walk_params_cursor fuel : walk_cursor_at fuel /\ params_cursor_at fuel.
Proof.
  induction fuel as [|fuel [IHw IHp]].
  - split; red; reflexivity.
  - split; [now apply walk_cursor_step | now apply params_cursor_step].
Qed.

Lemma parser_loop_body_on fuel tokens current body :
  parser_loop fuel tokens current body = body_on fuel body (skipn current tokens).
Proof.
  revert current body. induction fuel as [|fuel IH]; intros current body; [reflexivity|].
  simpl. destruct (skipn current tokens) as [|token ts1] eqn:E.
  - apply skipn_nil in E as [_ L].
    destruct (Nat.ltb_spec current (List.length tokens)); [lia | reflexivity].
  - rewrite <- E. apply skipn_cons in E as (_ & _ & L).
    apply Nat.ltb_lt in L as ->. rewrite (proj1 (walk_params_cursor fuel)).
    destruct (walk_on fuel (skipn current tokens)) as [[node ts']| |] eqn:W; try reflexivity.
    apply walk_on_progress in W as (pre & W & _).
    apply skipn_consumed in W.
    cbn [omap bind cursor fst snd]. now rewrite IH, W.
Qed.

Lemma parser_body_on fuel tokens : parser fuel tokens = body_on fuel [] tokens.
Proof. apply parser_loop_body_on. Qed.

(** ** Fuel *)

Definition walk_mono_at (fuel : nat) : Prop :=
  forall fuel' ts, terminates (walk_on fuel ts) -> fuel <= fuel' ->
  walk_on fuel' ts = walk_on fuel ts.

Definition params_mono_at (fuel : nat) : Prop :=
  forall fuel' name params ts, terminates (params_on fuel name params ts) -> fuel <= fuel' ->
  params_on fuel' name params ts = params_on fuel name params ts.

Lemma walk_params_mono fuel : walk_mono_at fuel /\ params_mono_at fuel.
Proof.
  induction fuel as [|fuel [IHw IHp]]; [split; red; intros; now exfalso|].
  split.
  - intros [|fuel'] ts T Hle; [lia|]. simpl in *.
    repeat (break_match; try reflexivity). apply IHp; [assumption | lia].
  - intros [|fuel'] name params ts T Hle; [lia|]. simpl in *.
    repeat (break_match; try reflexivity).
    apply terminates_bind in T as [T1 T2]. rewrite (IHw fuel') by (auto; lia).
    apply bind_ext. intros [node ts'] E. apply IHp; [exact (T2 _ E) | lia].
Qed.

Lemma body_on_mono fuel fuel' body ts :
  terminates (body_on fuel body ts) -> fuel <= fuel' ->
  body_on fuel' body ts = body_on fuel body ts.
Proof.
  revert fuel' body ts. induction fuel as [|fuel IH]; intros [|fuel'] body ts T Hle;
    try lia; try (now exfalso). simpl in *.
  destruct ts as [|token ts1]; [reflexivity|].
  apply terminates_bind in T as [T1 T2].
  rewrite (proj1 (walk_params_mono fuel) fuel') by (auto; lia).
  apply bind_ext. intros [node ts'] E. apply IH; [exact (T2 _ E) | lia].
Qed.

(** [walk] makes at most two calls per token that is left. *)
Definition walk_total_at (fuel : nat) : Prop :=
  forall ts, 2 * List.length ts + 1 <= fuel -> terminates (walk_on fuel ts).

Definition params_total_at (fuel : nat) : Prop :=
  forall name params ts, 2 * List.length ts + 2 <= fuel ->
  terminates (params_on fuel name params ts).

Lemma walk_params_total fuel : walk_total_at fuel /\ params_total_at fuel.
Proof.
  induction fuel as [|fuel [IHw IHp]]; [split; red; intros; lia|].
  split.
  - intros ts Hf. simpl.
    repeat (break_match; try discriminate). subst. apply IHp. simpl in *. lia.
  - intros name params ts Hf. simpl.
    repeat (break_match; try discriminate). subst.
    specialize (IHw (t :: l)).
    destruct (walk_on fuel (t :: l)) as [[node ts']| |] eqn:W; simpl;
      [|discriminate | apply IHw; simpl in *; lia].
    apply walk_on_progress in W as (pre & W & L).
    apply (f_equal (@List.length _)) in W. rewrite length_app in W.
    apply IHp. simpl in *. lia.
Qed.

Lemma body_on_total fuel body ts :
  2 * List.length ts + 2 <= fuel -> terminates (body_on fuel body ts).
Proof.
  revert body ts. induction fuel as [|fuel IH]; intros body ts Hf; [lia|].
  simpl. destruct ts as [|token ts1]; [discriminate|].
  pose proof (proj1 (walk_params_total fuel) (token :: ts1)) as T.
  destruct (walk_on fuel (token :: ts1)) as [[node ts']| |] eqn:W; simpl;
    [|discriminate | exfalso; apply T; [simpl in *; lia | reflexivity]].
  apply walk_on_progress in W as (pre & W & L).
  apply (f_equal (@List.length _)) in W. rewrite length_app in W.
  apply IH. simpl in *. lia.
Qed.

(** With [parser_fuel tokens] calls or more, the fuel does not matter. *)
Lemma parser_fuel_enough fuel tokens :
  parser_fuel tokens <= fuel ->
  parser fuel tokens = parser (parser_fuel tokens) tokens /\
  terminates (parser fuel tokens).
Proof.
  intros H. rewrite !parser_body_on.
  assert (T : terminates (body_on (parser_fuel tokens) [] tokens))
    by (apply body_on_total; unfold parser_fuel; lia).
  rewrite (body_on_mono (parser_fuel tokens) fuel) by (assumption || lia). auto.
Qed.

(** ** Parsing what [flatten] prints *)

Lemma flatten_expr_head n :
  Src.expr n = true -> exists t l, flatten n = t :: l /\ not_close t = true.
Proof. destruct n; simpl; try discriminate; eauto. Qed.

Lemma params_on_more fuel name params t l :
  not_close t = true ->
  params_on (S fuel) name params (t :: l) =
    bind (walk_on fuel (t :: l))
         (fun r => params_on fuel name (params ++ [fst r]) (snd r)).
Proof. intros H. simpl. rewrite H. apply bind_ext. now intros []. Qed.

Lemma body_on_more fuel body t l :
  body_on (S fuel) body (t :: l) =
    bind (walk_on fuel (t :: l)) (fun r => body_on fuel (body ++ [fst r]) (snd r)).
Proof. simpl. apply bind_ext. now intros []. Qed.

Lemma reads_cons_inv ts t' l' :
  reads ts (t' :: l') -> exists t l, ts = t :: l /\ agree t t' = true /\ reads l l'.
Proof. intros H. inversion H; subst. eauto. Qed.

Lemma reads_nil_inv ts : reads ts [] -> ts = [].
Proof. intros H. now inversion H. Qed.

Lemma reads_app_inv ts l1 l2 :
  reads ts (l1 ++ l2) -> exists ts1 ts2, ts = (ts1 ++ ts2)%list /\ reads ts1 l1 /\ reads ts2 l2.
Proof. intros H. apply Forall2_app_inv_r in H as (ts1 & ts2 & H1 & H2 & ->). eauto. Qed.

(** Tokens read as one printed token that is not a name. *)
Lemma reads_single ts ty v :
  reads ts [mk ty v] -> (ty =? "name") = false -> ts = [mk ty v].
Proof.
  intros H E. apply reads_cons_inv in H as (t & l & -> & Ht & Hl).
  apply reads_nil_inv in Hl as ->. now rewrite (agree_eq _ _ _ Ht E).
Qed.

Lemma reads_expr_head n pre :
  Src.expr n = true -> reads pre (flatten n) ->
  exists t l, pre = t :: l /\ not_close t = true.
Proof.
  destruct n; simpl; try discriminate; intros _ H;
    apply reads_cons_inv in H as (t & l & -> & Ht & _);
    apply agree_eq in Ht as ->; eauto.
Qed.

(** [walk_on] returns [n] on every token list that reads as the printed
    form of [n]. *)
Definition reparses (n : Src.node) : Prop :=
  Src.expr n = true ->
  exists f0, forall fuel pre rest, f0 <= fuel -> reads pre (flatten n) ->
    walk_on fuel (pre ++ rest) = Done (n, rest).

Lemma params_on_reads name ps :
  Forall reparses ps -> forallb Src.expr ps = true ->
  exists f0, forall fuel acc pre rest, f0 <= fuel ->
    reads pre (flat_map flatten ps ++ [mk "paren" ")"]) ->
    params_on fuel name acc (pre ++ rest) =
      Done (Src.CallExpression name (acc ++ ps), rest).
Proof.
  induction 1 as [|p ps Hp _ IH]; simpl; intros He.
  - exists 1. intros [|fuel] acc pre rest Hf Hr; [lia|].
    apply reads_single in Hr as ->; [|reflexivity]. simpl. now rewrite app_nil_r.
  - apply andb_prop in He as [He1 He2].
    destruct (Hp He1) as (f1 & Hw), (IH He2) as (f2 & Hps).
    exists (S (Nat.max f1 f2)). intros [|fuel] acc pre rest Hf Hr; [lia|].
    rewrite <- app_assoc in Hr. apply reads_app_inv in Hr as (pre1 & pre2 & -> & Hr1 & Hr2).
    destruct (reads_expr_head p pre1 He1 Hr1) as (t & l & Ht & Hc).
    rewrite <- app_assoc.
    assert (E : forall X, (pre1 ++ X = t :: l ++ X)%list) by (now rewrite Ht).
    rewrite E, params_on_more, <- E, Hw by (auto; lia).
    cbn [bind fst snd]. rewrite Hps by (auto; lia). now rewrite <- app_assoc.
Qed.

Lemma walk_on_reads n : reparses n.
Proof.
  induction n as [| name params IH | v | v |] using Src.node_ind; intros He; try discriminate.
  - destruct (params_on_reads name params IH He) as (f0 & Hps).
    exists (S f0). intros [|fuel] pre rest Hf Hr; [lia|]. cbn [flatten] in Hr.
    apply reads_cons_inv in Hr as (t1 & l1 & -> & Ht1 & Hr).
    apply reads_cons_inv in Hr as (t2 & l2 & -> & Ht2 & Hr).
    apply agree_eq in Ht1 as ->; [|reflexivity]. apply agree_value in Ht2.
    simpl in *. subst name. now apply Hps; [lia|].
  - exists 1. intros [|fuel] pre rest Hf Hr; [lia|].
    now apply reads_single in Hr as ->.
  - exists 1. intros [|fuel] pre rest Hf Hr; [lia|].
    now apply reads_single in Hr as ->.
Qed.

Lemma body_on_reads es :
  forallb Src.expr es = true ->
  exists f0, forall fuel body ts, f0 <= fuel -> reads ts (flat_map flatten es) ->
    body_on fuel body ts = Done (Src.Program (body ++ es)).
Proof.
  induction es as [|e es IH]; simpl; intros He.
  - exists 1. intros [|fuel] body ts Hf Hr; [lia|].
    apply reads_nil_inv in Hr as ->. simpl. now rewrite app_nil_r.
  - apply andb_prop in He as [He1 He2].
    destruct (walk_on_reads e He1) as (f1 & Hw), (IH He2) as (f2 & Hes).
    exists (S (Nat.max f1 f2)). intros [|fuel] body ts Hf Hr; [lia|].
    apply reads_app_inv in Hr as (pre1 & pre2 & -> & Hr1 & Hr2).
    destruct (reads_expr_head e pre1 He1 Hr1) as (t & l & Ht & _).
    assert (E : forall X, (pre1 ++ X = t :: l ++ X)%list) by (now rewrite Ht).
    rewrite E, body_on_more, <- E, Hw by (auto; lia).
    cbn [bind fst snd]. rewrite Hes by (auto; lia). now rewrite <- app_assoc.
Qed.

(** The printed form itself is a special case. *)
Lemma params_on_flatten name ps :
  forallb Src.expr ps = true ->
  exists f0, forall fuel acc rest, f0 <= fuel ->
    params_on fuel name acc (flat_map flatten ps ++ mk "paren" ")" :: rest) =
      Done (Src.CallExpression name (acc ++ ps), rest).
Proof.
  intros He. destruct (params_on_reads name ps) as (f0 & H); auto.
  { apply Forall_forall. intros n _. apply walk_on_reads. }
  exists f0. intros fuel acc rest Hf.
  rewrite <- (H fuel acc (flat_map flatten ps ++ [mk "paren" ")"])%list rest Hf); auto with js.
  now rewrite <- app_assoc.
Qed.

Lemma walk_on_flatten n :
  Src.expr n = true ->
  exists f0, forall fuel rest, f0 <= fuel -> walk_on fuel (flatten n ++ rest) = Done (n, rest).
Proof.
  intros He. destruct (walk_on_reads n He) as (f0 & H). exists f0. auto with js.
Qed.

Lemma body_on_flatten es :
  forallb Src.expr es = true ->
  exists f0, forall fuel body, f0 <= fuel ->
    body_on fuel body (flat_map flatten es) = Done (Src.Program (body ++ es)).
Proof.
  intros He. destruct (body_on_reads es He) as (f0 & H). exists f0. auto with js.
Qed.

Lemma body_on_sound fuel body ts ast :
  body_on fuel body ts = Done ast ->
  exists es, ast = Src.Program (body ++ es) /\
             reads ts (flat_map flatten es) /\ forallb Src.expr es = true.
Proof.
  revert body ts. induction fuel as [|fuel IH]; intros body ts H; [discriminate|].
  simpl in H. destruct ts as [|token ts1].
  - injection H as <-. exists []. rewrite app_nil_r. repeat split. constructor.
  - apply bind_Done_inv in H as ([node ts'] & W & H).
    apply walk_on_sound in W as (pre & -> & Hv & He).
    apply IH in H as (es & -> & Hv' & He').
    exists (node :: es). simpl. rewrite <- app_assoc, He, He'. repeat split; auto with js.
Qed.

(** A result that holds from some fuel on holds from [parser_fuel] on. *)
Lemma parser_at_bound tokens r :
  (exists f0, forall fuel, f0 <= fuel -> parser fuel tokens = r) ->
  forall fuel, parser_fuel tokens <= fuel -> parser fuel tokens = r.
Proof.
  intros (f0 & H) fuel Hf.
  rewrite (proj1 (parser_fuel_enough fuel tokens Hf)).
  rewrite <- (H (Nat.max f0 (parser_fuel tokens))) by lia.
  symmetry. apply parser_fuel_enough. lia.
Qed.

(** ** Errors *)

(** A token [walk] throws on: not a number, not a string, not an opening
    parenthesis. *)
Definition rejected (t : token) : bool :=
  negb (type t =? "number") && negb (type t =? "string") && negb (is_open t).

Definition parse_error (ts : list token) (e : exn) : Prop :=
  e = UndefinedRead "type" \/ e = UndefinedRead "value" \/
  exists t, In t ts /\ rejected t = true /\ e = TypeError (type t).

Lemma parse_error_suffix pre rest e : parse_error rest e -> parse_error (pre ++ rest) e.
Proof.
  intros [H | [H | (t & H1 & H2)]]; [left | right; left | right; right]; auto.
  exists t. split; [apply in_or_app|]; auto.
Qed.

Lemma parse_error_tail t ts e : parse_error ts e -> parse_error (t :: ts) e.
Proof. apply (parse_error_suffix [t]). Qed.

#[export] Hint Resolve parse_error_suffix parse_error_tail : js.

Definition walk_error_at (fuel : nat) : Prop :=
  forall ts e, walk_on fuel ts = Throw e -> parse_error ts e.

Definition params_error_at (fuel : nat) : Prop :=
  forall name params ts e, params_on fuel name params ts = Throw e -> parse_error ts e.

Lemma walk_params_error fuel : walk_error_at fuel /\ params_error_at fuel.
Proof.
  induction fuel as [|fuel [IHw IHp]]; [split; red; intros; easy|].
  split.
  - intros ts e H. simpl in H.
    destruct ts as [|t ts1]; [injection H as <-; left; reflexivity|].
    destruct (type t =? "number") eqn:E1; [discriminate|].
    destruct (type t =? "string") eqn:E2; [discriminate|].
    destruct (is_open t) eqn:E3.
    + destruct ts1 as [|tname ts2]; [injection H as <-; right; left; reflexivity|].
      apply IHp in H. auto with js.
    + injection H as <-. right. right. exists t. unfold rejected.
      rewrite E1, E2, E3. simpl. auto.
  - intros name params ts e H. simpl in H.
    destruct ts as [|t ts1]; [injection H as <-; left; reflexivity|].
    destruct (not_close t); [|discriminate].
    apply bind_Throw_inv in H as [H | ([node ts'] & W & H)]; [now apply IHw|].
    apply walk_on_progress in W as (pre & -> & _). apply IHp in H. auto with js.
Qed.

Lemma body_on_error fuel body ts e :
  body_on fuel body ts = Throw e -> parse_error ts e.
Proof.
  revert body ts. induction fuel as [|fuel IH]; intros body ts H; [discriminate|].
  simpl in H. destruct ts as [|t ts1]; [discriminate|].
  apply bind_Throw_inv in H as [H | ([node ts'] & W & H)].
  - now apply (proj1 (walk_params_error fuel)).
  - apply walk_on_progress in W as (pre & -> & _). apply IH in H. auto with js.
Qed.

(** The expressions at the front of the tokens are parsed one per turn
    of the top loop, whatever follows. *)
Lemma body_on_app es :
  forallb Src.expr es = true ->
  exists f0, forall fuel body rest, f0 <= fuel ->
    body_on (List.length es + fuel) body (flat_map flatten es ++ rest) =
    body_on fuel (body ++ es) rest.
Proof.
  induction es as [|e es IH]; cbn [forallb flat_map List.length Nat.add]; intros He.
  - exists 0. intros fuel body rest _. simpl. now rewrite app_nil_r.
  - apply andb_prop in He as [He1 He2].
    destruct (walk_on_flatten e He1) as (f1 & Hw), (IH He2) as (f2 & Hes).
    destruct (flatten_expr_head e He1) as (t & l & Ht & _).
    exists (Nat.max f1 f2). intros fuel body rest Hf. rewrite <- app_assoc.
    assert (E : forall X, (flatten e ++ X = t :: l ++ X)%list) by (now rewrite Ht).
    rewrite E, body_on_more, <- E, Hw by lia.
    cbn [bind fst snd]. rewrite Hes by lia. now rewrite <- app_assoc.
Qed.

(** After any expressions, an opening parenthesis and one more token at
    the end of the tokens: the parameter loop reads past the end. *)
Lemma body_on_open_at_end es tname :
  forallb Src.expr es = true ->
  exists f0, forall fuel, f0 <= fuel ->
    body_on fuel [] (flat_map flatten es ++ [mk "paren" "("; tname]) =
      Throw (UndefinedRead "type").
Proof.
  intros He. destruct (body_on_app es He) as (f0 & H).
  exists (List.length es + (f0 + 3)). intros fuel Hf.
  replace fuel with (List.length es + (fuel - List.length es)) by lia.
  rewrite H by lia.
  destruct (fuel - List.length es) as [|[|[|f]]] eqn:E; try lia. reflexivity.
Qed.

(** A call that is not closed: the parameter loop reads past the end. *)
Lemma params_on_unclosed name ps :
  forallb Src.expr ps = true ->
  exists f0, forall fuel acc, f0 <= fuel ->
    params_on fuel name acc (flat_map flatten ps) = Throw (UndefinedRead "type").
Proof.
  induction ps as [|p ps IH]; simpl; intros He.
  - exists 1. intros [|fuel] acc Hf; [lia | reflexivity].
  - apply andb_prop in He as [He1 He2].
    destruct (walk_on_flatten p He1) as (f1 & Hw), (IH He2) as (f2 & Hps).
    destruct (flatten_expr_head p He1) as (t & l & Ht & Hc).
    exists (S (Nat.max f1 f2)). intros [|fuel] acc Hf; [lia|].
    assert (E : forall X, (flatten p ++ X = t :: l ++ X)%list) by (now rewrite Ht).
    rewrite E, params_on_more, <- E, Hw by (auto; lia).
    cbn [bind fst snd]. now rewrite Hps by lia.
Qed.

(** ** The properties of the parser *)

(** C14: The cursor-based functions of the source compute the same as
    their counterparts on the remaining tokens: [walk] at [current] returns
    the node [walk_on] returns on [tokens] from [current] on, with the
    cursor moved past what was consumed, and throws what it throws; and
    [parser] is [body_on] from the first token. *)
Theorem parser_cursor_refines fuel tokens current :
  walk fuel tokens current = omap (cursor tokens) (walk_on fuel (skipn current tokens)) /\
  parser fuel tokens = body_on fuel [] tokens.
Proof. split; [apply walk_params_cursor | apply parser_body_on]. Qed.

(** C15: [parser] is total: with [parser_fuel tokens] calls or more it
    returns or throws on every token list, and what it returns or throws
    does not depend on the fuel. *)
Theorem parser_total tokens k :
  terminates (parser (parser_fuel tokens + k) tokens) /\
  parser (parser_fuel tokens + k) tokens = parser (parser_fuel tokens) tokens.
Proof.
  destruct (parser_fuel_enough (parser_fuel tokens + k) tokens) as [E T]; [lia|]. auto.
Qed.

(** C4: Parsing inverts printing, whatever stands for the names: on every
    token list that reads as the printed form of a program (the tokens of
    [flatten], except that the token after an opening parenthesis may be
    any token that carries the name as its value), [parser] returns that
    program. *)
Theorem parser_complete fuel tokens body :
  forallb Src.expr body = true ->
  reads tokens (flatten (Src.Program body)) ->
  parser_fuel tokens <= fuel ->
  parser fuel tokens = Done (Src.Program body).
Proof.
  intros He Hr. apply parser_at_bound.
  destruct (body_on_reads body He) as (f0 & H). exists f0. intros fuel' Hf.
  rewrite parser_body_on. now apply H.
Qed.

Lemma parser_complete_witness :
  parser 20 [mk "paren" "("; mk "name" "add"; mk "number" "2"; mk "paren" "(";
             mk "name" "subtract"; mk "number" "4"; mk "number" "2";
             mk "paren" ")"; mk "paren" ")"] =
  Done (Src.Program [Src.CallExpression "add" [Src.NumberLiteral "2";
          Src.CallExpression "subtract" [Src.NumberLiteral "4"; Src.NumberLiteral "2"]]]).
Proof.
  apply parser_complete; [reflexivity | apply reads_refl | vm_compute; lia].
Defined.

(** C9: What [parser] returns is a [Program] whose statements are
    expressions (calls and literals only), and the tokens read as its
    printed form: token by token the values are those [flatten] prints,
    and so are the types except for the names of the calls. *)
Theorem parser_sound fuel tokens ast :
  parser fuel tokens = Done ast ->
  Src.program ast = true /\ reads tokens (flatten ast).
Proof.
  rewrite parser_body_on. intros H.
  apply body_on_sound in H as (es & -> & Hv & He). auto.
Qed.

Lemma parser_sound_witness :
  Src.program (Src.Program [Src.CallExpression "a" [Src.StringLiteral "b"]]) = true /\
  reads [mk "paren" "("; mk "name" "a"; mk "string" "b"; mk "paren" ")"]
    (flatten (Src.Program [Src.CallExpression "a" [Src.StringLiteral "b"]])).
Proof.
  apply (parser_sound 10 [mk "paren" "("; mk "name" "a"; mk "string" "b"; mk "paren" ")"]).
  reflexivity.
Defined.

(** C34: The exceptions of [parser]: the engine's [TypeError] for reading
    [type] or [value] of [undefined] (the cursor ran past the last token),
    or the [TypeError] that [walk] throws with the type of a token of the
    input that is neither a number, a string nor an opening parenthesis. *)
Theorem parser_error fuel tokens e :
  parser fuel tokens = Throw e -> parse_error tokens e.
Proof. rewrite parser_body_on. apply body_on_error. Qed.

Lemma parser_error_witness :
  parse_error [mk "paren" "("; mk "name" "a"; mk "paren" ")"; mk "paren" ")"]
    (TypeError "paren").
Proof.
  apply (parser_error 10 [mk "paren" "("; mk "name" "a"; mk "paren" ")"; mk "paren" ")"]).
  reflexivity.
Defined.

(** C35: A call whose closing parenthesis is missing at the end of the
    tokens makes [parser] throw the engine's [TypeError]: the loop that
    collects the parameters reads [tokens[current]] past the end and then
    its [type]. *)
Theorem parser_unclosed_call fuel tname params :
  forallb Src.expr params = true ->
  parser_fuel (mk "paren" "(" :: tname :: flat_map flatten params) <= fuel ->
  parser fuel (mk "paren" "(" :: tname :: flat_map flatten params) =
    Throw (UndefinedRead "type").
Proof.
  intros He. apply parser_at_bound.
  destruct (params_on_unclosed (value tname) params He) as (f0 & H).
  exists (S (S f0)). intros [|[|fuel']] Hf; try lia.
  rewrite parser_body_on. simpl. now rewrite H by lia.
Qed.

Lemma parser_unclosed_call_witness :
  parser 12 [mk "paren" "("; mk "name" "add"; mk "number" "1"; mk "number" "2"] =
    Throw (UndefinedRead "type").
Proof.
  apply (parser_unclosed_call 12 (mk "name" "add") [Src.NumberLiteral "1"; Src.NumberLiteral "2"]).
  - reflexivity.
  - vm_compute. lia.
Defined.

(** C36: The token after an opening parenthesis is taken as the name of
    the call whatever its type: [walk] reads its [value] and never its
    [type].  A string, a number or a parenthesis in that place is
    accepted. *)
Theorem parser_any_name_token fuel tname params :
  forallb Src.expr params = true ->
  parser_fuel (mk "paren" "(" :: tname :: flat_map flatten params ++ [mk "paren" ")"]) <= fuel ->
  parser fuel (mk "paren" "(" :: tname :: flat_map flatten params ++ [mk "paren" ")"]) =
    Done (Src.Program [Src.CallExpression (value tname) params]).
Proof.
  intros He. apply parser_at_bound.
  destruct (params_on_flatten (value tname) params) as (f0 & H); auto.
  exists (S (S f0)). intros [|[|fuel']] Hf; try lia.
  rewrite parser_body_on. simpl. rewrite H by lia. reflexivity.
Qed.

Lemma parser_any_name_token_witness :
  parser 8 [mk "paren" "("; mk "string" "hello"; mk "paren" ")"] =
    Done (Src.Program [Src.CallExpression "hello" []]) /\
  parser 8 [mk "paren" "("; mk "paren" "("; mk "paren" ")"] =
    Done (Src.Program [Src.CallExpression "(" []]).
Proof.
  split.
  - apply (parser_any_name_token 8 (mk "string" "hello") []); [reflexivity | vm_compute; lia].
  - apply (parser_any_name_token 8 (mk "paren" "(") []); [reflexivity | vm_compute; lia].
Defined.

(** ** The parser as a stage *)

#[export] Instance parser_stage :
  Stage (fun tokens => parser (parser_fuel tokens) tokens)
    (fun tokens => body_on (parser_fuel tokens) [] tokens)
    (fun _ => True) (fun ast => Src.program ast = true).
Proof.
  split; [intros tokens _; apply parser_body_on|].
  intros tokens ast _ H. now apply body_on_sound in H as (es & -> & _ & He).
Qed.
