(* ===== verification/Traverser.v ===== *)
(** * The traverser ([traverser], src/tiny-compiler.js lines 146-184)

    A depth-first walk over a source tree that calls the [enter] and
    [exit] methods a visitor has for the type of each node.  The methods
    act on the world by side effect; here they are functions on a state
    [State] that may throw.  The objects a method receives are references:
    a node together with its position [path] in the tree that is
    traversed, which stands for the identity of the JavaScript object.
    [events] is the specification of the order of the calls: it is nested
    like the tree, enters the nodes in preorder and leaves them in
    postorder, and its references name the nodes of the tree. *)

From Stdlib Require Import String Ascii List Arith Lia Bool.
From S2P Require Import Prelude Ast.
Import ListNotations.
Local Open Scope js_scope.

(** ** References, methods and visitors *)

Record ref : Type := { path : list nat; node : Src.node }.

Section Traverser.
Context {State : Type}.

(** [enter(node, parent)] and [exit(node, parent)]; [parent] is [null] at
    the root. *)
Definition method : Type := ref -> option ref -> State -> outcome State.

Record methods : Type := { enter : option method; exit : option method }.

(** [visitor[node.type]] *)
Definition visitor : Type := string -> option methods.

(** [if (methods && methods.enter) methods.enter(node, parent)] *)
Definition call_enter (m : option methods) (self : ref) (parent : option ref)
    (s : State) : outcome State :=
  match m with
  | Some {| enter := Some f |} => f self parent s
  | _ => Done s
  end.

(** [if (methods && methods.exit) methods.exit(node, parent)] *)
Definition call_exit (m : option methods) (self : ref) (parent : option ref)
    (s : State) : outcome State :=
  match m with
  | Some {| exit := Some f |} => f self parent s
  | _ => Done s
  end.

(** [array.forEach(child => traverseNode(child, parent))]; the child at
    index [i] of the array of the node at [path] is at [path ++ [i]].
    [traverseArray_from] is the loop of [forEach] from index [i] on. *)
Definition traverseArray_from (traverseNode : ref -> option ref -> State -> outcome State)
    (parent : ref) : list Src.node -> nat -> State -> outcome State :=
  fix each (l : list Src.node) (i : nat) (s : State) : outcome State :=
    match l with
    | [] => Done s
    | child :: l' =>
        s <- traverseNode {| path := path parent ++ [i]; node := child |} (Some parent) s ;;
        each l' (S i) s
    end.

Definition traverseArray (traverseNode : ref -> option ref -> State -> outcome State)
    (array : list Src.node) (parent : ref) : State -> outcome State :=
  traverseArray_from traverseNode parent array 0.

Fixpoint traverseNode_at (v : visitor) (n : Src.node) (p : list nat)
    (parent : option ref) (s : State) : outcome State :=
  let self := {| path := p; node := n |} in
  let methods := v (Src.type n) in
  s <- call_enter methods self parent s ;;
  s <- match n with
       | Src.Program body =>
           traverseArray (fun r => traverseNode_at v (node r) (path r)) body self s
       | Src.CallExpression _ params =>
           traverseArray (fun r => traverseNode_at v (node r) (path r)) params self s
       | Src.NumberLiteral _ | Src.StringLiteral _ => Done s
       | Src.Other t => Throw (TypeError (proj1_sig t))
       end ;;
  call_exit methods self parent s.

Definition traverseNode (v : visitor) (self : ref) (parent : option ref)
    (s : State) : outcome State :=
  traverseNode_at v (node self) (path self) parent s.

(** [traverseNode(ast, null)] *)
Definition traverser (ast : Src.node) (v : visitor) (s : State) : outcome State :=
  traverseNode v {| path := []; node := ast |} None s.

(** ** The order of the calls *)

Inductive event : Type :=
| Enter (self : ref) (parent : option ref)
| Exit (self : ref) (parent : option ref).

(** The calls a traversal of [n] makes, in order: [enter] on the node, the
    calls for its children from left to right, [exit] on the node. *)
Fixpoint events_at (n : Src.node) (p : list nat) (parent : option ref) : list event :=
  let self := {| path := p; node := n |} in
  let children (l : list Src.node) :=
    (fix each (l : list Src.node) (i : nat) : list event :=
       match l with
       | [] => []
       | child :: l' => events_at child (p ++ [i]) (Some self) ++ each l' (S i)
       end) l 0 in
  Enter self parent ::
  match n with
  | Src.Program body => children body
  | Src.CallExpression _ params => children params
  | _ => []
  end ++ [Exit self parent].

Fixpoint events_from (parent : ref) (l : list Src.node) (i : nat) : list event :=
  match l with
  | [] => []
  | child :: l' =>
      events_at child (path parent ++ [i]) (Some parent) ++ events_from parent l' (S i)
  end.

Definition events (ast : Src.node) : list event := events_at ast [] None.

(** The call one event stands for. *)
Definition dispatch (v : visitor) (e : event) (s : State) : outcome State :=
  match e with
  | Enter self parent => call_enter (v (Src.type (node self))) self parent s
  | Exit self parent => call_exit (v (Src.type (node self))) self parent s
  end.

Fixpoint run_events (v : visitor) (evs : list event) (s : State) : outcome State :=
  match evs with
  | [] => Done s
  | e :: evs' => s <- dispatch v e s ;; run_events v evs' s
  end.

End Traverser.

Arguments method : clear implicits.
Arguments methods : clear implicits.
Arguments visitor : clear implicits.

(** ** The traversal makes the calls of [events] *)

Section Events.
Context {State : Type} (v : visitor State).

Lemma run_events_app evs evs' (s : State) :
  run_events v (evs ++ evs') s = (s' <- run_events v evs s ;; run_events v evs' s').
Proof.
  revert s. induction evs as [|e evs IH]; intros s; simpl; [reflexivity|].
  rewrite bind_assoc. apply bind_ext. intros s' _. apply IH.
Qed.

Lemma events_at_unfold n p parent :
  events_at n p parent =
    Enter {| path := p; node := n |} parent ::
    match n with
    | Src.Program body => events_from {| path := p; node := n |} body 0
    | Src.CallExpression _ params => events_from {| path := p; node := n |} params 0
    | _ => []
    end ++ [Exit {| path := p; node := n |} parent].
Proof.
  assert (E : forall l i r,
    (fix each (l : list Src.node) (i : nat) : list event :=
       match l with
       | [] => []
       | child :: l' => events_at child (path r ++ [i]) (Some r) ++ each l' (S i)
       end) l i = events_from r l i).
  { induction l as [|c l IH]; intros i r; simpl; [reflexivity | now rewrite IH]. }
  destruct n; simpl; try reflexivity; now rewrite (E _ _ {| path := p; node := _ |}).
Qed.

Definition traversal_ok (n : Src.node) : Prop :=
  Src.known n = true -> forall p parent (s : State),
  traverseNode_at v n p parent s = run_events v (events_at n p parent) s.

Lemma traverseArray_events parent l :
  Forall traversal_ok l -> forallb Src.known l = true -> forall i (s : State),
  traverseArray_from (fun r => traverseNode_at v (node r) (path r)) parent l i s =
    run_events v (events_from parent l i) s.
Proof.
  induction 1 as [|c l Hc _ IH]; simpl; intros Hk i s; [reflexivity|].
  apply andb_prop in Hk as [Hk1 Hk2].
  rewrite run_events_app, Hc by assumption.
  apply bind_ext. intros s' _. now apply IH.
Qed.

Lemma traverseNode_events n : traversal_ok n.
Proof.
  induction n as [body IH | name params IH | | |] using Src.node_ind;
    intros Hk p parent s; try discriminate;
    rewrite events_at_unfold; cbn [traverseNode_at run_events dispatch node];
    apply bind_ext; intros s1 _; rewrite run_events_app; simpl;
    rewrite ?bind_Done_r; try reflexivity.
  - unfold traverseArray. rewrite traverseArray_events by assumption.
    apply bind_ext. intros s2 _. now rewrite bind_Done_r.
  - unfold traverseArray. rewrite traverseArray_events by assumption.
    apply bind_ext. intros s2 _. now rewrite bind_Done_r.
Qed.

End Events.

(** ** A visitor that records the calls *)

Definition recorder : visitor (list event) :=
  fun _ => Some {| enter := Some (fun self parent log => Done (log ++ [Enter self parent]));
                   exit := Some (fun self parent log => Done (log ++ [Exit self parent])) |}.

Lemma run_events_recorder evs log : run_events recorder evs log = Done (log ++ evs).
Proof.
  revert log. induction evs as [|e evs IH]; intros log; simpl; [now rewrite app_nil_r|].
  destruct e; simpl; rewrite IH, <- app_assoc; reflexivity.
Qed.

(** ** The calls are nested like the tree

    [nested parent evs]: [evs] is the sequence of calls for a list of
    siblings whose parent is [parent]: for each, [enter], the calls for its
    own children with it as parent, then [exit]. *)

Inductive nested : option ref -> list event -> Prop :=
| nested_nil parent : nested parent []
| nested_node self parent inner rest :
    nested (Some self) inner -> nested parent rest ->
    nested parent (Enter self parent :: inner ++ Exit self parent :: rest).

Lemma nested_app parent evs evs' :
  nested parent evs -> nested parent evs' -> nested parent (evs ++ evs').
Proof.
  induction 1 as [|self parent inner rest Hin _ _ IH]; intros H'; simpl; [assumption|].
  rewrite <- app_assoc. simpl. constructor; auto.
Qed.

Lemma events_from_nested parent l :
  Forall (fun n => forall p parent, nested parent (events_at n p parent)) l ->
  forall i, nested (Some parent) (events_from parent l i).
Proof.
  induction 1 as [|c l Hc _ IH]; intros i; simpl; [constructor|].
  apply nested_app; auto.
Qed.

Lemma events_at_nested n p parent : nested parent (events_at n p parent).
Proof.
  revert p parent.
  induction n as [body IH | name params IH | | |] using Src.node_ind; intros p parent;
    rewrite events_at_unfold; constructor;
    try apply events_from_nested; try assumption; constructor.
Qed.

(** ** Preorder and postorder

    The nodes [enter] is called on are the nodes of the tree in preorder,
    the nodes [exit] is called on the same nodes in postorder. *)

Definition children (n : Src.node) : list Src.node :=
  match n with
  | Src.Program body => body
  | Src.CallExpression _ params => params
  | _ => []
  end.

Fixpoint preorder (n : Src.node) : list Src.node :=
  n :: match n with
       | Src.Program body => flat_map preorder body
       | Src.CallExpression _ params => flat_map preorder params
       | _ => []
       end.

Fixpoint postorder (n : Src.node) : list Src.node :=
  match n with
  | Src.Program body => flat_map postorder body
  | Src.CallExpression _ params => flat_map postorder params
  | _ => []
  end ++ [n].

Definition entered (evs : list event) : list Src.node :=
  flat_map (fun e => match e with Enter self _ => [node self] | Exit _ _ => [] end) evs.

Definition exited (evs : list event) : list Src.node :=
  flat_map (fun e => match e with Exit self _ => [node self] | Enter _ _ => [] end) evs.

Lemma entered_app evs evs' : entered (evs ++ evs') = entered evs ++ entered evs'.
Proof. apply flat_map_app. Qed.

Lemma exited_app evs evs' : exited (evs ++ evs') = exited evs ++ exited evs'.
Proof. apply flat_map_app. Qed.

Definition orders (n : Src.node) : Prop :=
  forall p parent,
    entered (events_at n p parent) = preorder n /\
    exited (events_at n p parent) = postorder n.

Lemma events_from_orders parent l i :
  Forall orders l ->
  entered (events_from parent l i) = flat_map preorder l /\
  exited (events_from parent l i) = flat_map postorder l.
Proof.
  intros H. revert i. induction H as [|c l Hc _ IH]; intros i; [now split|].
  cbn [events_from flat_map]. rewrite entered_app, exited_app.
  destruct (Hc (path parent ++ [i]) (Some parent)) as [-> ->].
  now destruct (IH (S i)) as [-> ->].
Qed.

Lemma events_at_children n p parent :
  events_at n p parent =
    Enter {| path := p; node := n |} parent ::
    events_from {| path := p; node := n |} (children n) 0 ++
    [Exit {| path := p; node := n |} parent].
Proof. rewrite events_at_unfold. now destruct n. Qed.

Lemma entered_Enter self parent evs :
  entered (Enter self parent :: evs) = node self :: entered evs.
Proof. reflexivity. Qed.

Lemma exited_Enter self parent evs : exited (Enter self parent :: evs) = exited evs.
Proof. reflexivity. Qed.

Lemma preorder_children n : preorder n = n :: flat_map preorder (children n).
Proof. now destruct n. Qed.

Lemma postorder_children n : postorder n = flat_map postorder (children n) ++ [n].
Proof. now destruct n. Qed.

Lemma events_at_orders n : orders n.
Proof.
  assert (step : forall m, Forall orders (children m) -> orders m).
  { clear n. intros n IH p parent.
    rewrite events_at_children, preorder_children, postorder_children.
    rewrite entered_Enter, exited_Enter, entered_app, exited_app.
    destruct (events_from_orders {| path := p; node := n |} (children n) 0 IH) as [-> ->].
    cbn. now rewrite app_nil_r. }
  induction n using Src.node_ind; apply step; simpl; auto.
Qed.

(** ** References name the nodes of the tree

    The path of every reference a method receives leads, from the root of
    the tree that is traversed, to the node the reference carries, and the
    parent it is called with is the reference one step up: a path
    determines the object, as the identity of the object does in the
    program. *)

Fixpoint subtree (n : Src.node) (p : list nat) : option Src.node :=
  match p with
  | [] => Some n
  | i :: p' =>
      match nth_error (children n) i with
      | Some c => subtree c p'
      | None => None
      end
  end.

Definition self_of (e : event) : ref :=
  match e with Enter self _ | Exit self _ => self end.

Definition parent_of (e : event) : option ref :=
  match e with Enter _ parent | Exit _ parent => parent end.

Definition ref_ok (ast : Src.node) (r : ref) : Prop :=
  subtree ast (path r) = Some (node r).

Definition parent_ok (ast : Src.node) (p : list nat) (parent : option ref) : Prop :=
  match parent with
  | None => p = []
  | Some r => ref_ok ast r /\ exists i, p = path r ++ [i]
  end.

Definition event_ok (ast : Src.node) (e : event) : Prop :=
  ref_ok ast (self_of e) /\ parent_ok ast (path (self_of e)) (parent_of e).

Lemma subtree_snoc ast p i :
  subtree ast (p ++ [i]) =
    match subtree ast p with
    | Some n => nth_error (children n) i
    | None => None
    end.
Proof.
  revert ast. induction p as [|j p IH]; intros ast; simpl.
  - now destruct (nth_error (children ast) i).
  - destruct (nth_error (children ast) j); auto.
Qed.

Definition located (ast n : Src.node) : Prop :=
  forall p parent, subtree ast p = Some n -> parent_ok ast p parent ->
  Forall (event_ok ast) (events_at n p parent).

Lemma events_from_located ast parent l :
  Forall (located ast) l -> ref_ok ast parent -> forall i,
  (forall k c, nth_error l k = Some c ->
               nth_error (children (node parent)) (i + k) = Some c) ->
  Forall (event_ok ast) (events_from parent l i).
Proof.
  intros H Hr. induction H as [|c l Hc _ IH]; intros i Hl; [constructor|].
  cbn [events_from]. apply Forall_app. split.
  - apply Hc; [|split; eauto]. rewrite subtree_snoc, Hr.
    rewrite <- (Nat.add_0_r i). now apply Hl.
  - apply IH. intros k c' Hk. rewrite Nat.add_succ_comm. now apply Hl.
Qed.

Lemma events_at_located ast n : located ast n.
Proof.
  assert (step : forall m, Forall (located ast) (children m) -> located ast m).
  { clear n. intros n IH p parent Hp Hparent. rewrite events_at_children.
    constructor; [now split|]. apply Forall_app. split; [|now repeat constructor].
    now apply events_from_located. }
  induction n using Src.node_ind; apply step; simpl; auto.
Qed.

(** ** Visitors whose methods always return *)

Section Total.
Context {State : Type} (v : visitor State).

Definition total_method (f : method State) : Prop :=
  forall self parent s, exists s', f self parent s = Done s'.

Definition total_visitor : Prop :=
  forall ty m, v ty = Some m ->
  (forall f, enter m = Some f -> total_method f) /\
  (forall f, exit m = Some f -> total_method f).

Hypothesis Htotal : total_visitor.

Lemma call_enter_total ty self parent s :
  exists s', call_enter (v ty) self parent s = Done s'.
Proof.
  unfold call_enter. destruct (v ty) as [[[f|] ex]|] eqn:E; eauto.
  destruct (Htotal _ _ E) as [H _]. now apply H.
Qed.

Lemma call_exit_total ty self parent s :
  exists s', call_exit (v ty) self parent s = Done s'.
Proof.
  unfold call_exit. destruct (v ty) as [[en [f|]]|] eqn:E; eauto.
  destruct (Htotal _ _ E) as [_ H]. now apply H.
Qed.

Lemma run_events_total evs s : exists s', run_events v evs s = Done s'.
Proof.
  revert s. induction evs as [|e evs IH]; intros s; simpl; [eauto|].
  destruct e as [self parent | self parent]; simpl;
    [destruct (call_enter_total (Src.type (node self)) self parent s) as (s1 & ->)
    |destruct (call_exit_total (Src.type (node self)) self parent s) as (s1 & ->)];
    simpl; apply IH.
Qed.

End Total.

(** ** What every call maintains

    [R k s s'] is read as: [s'] comes from [s] by at most [k] calls of
    [enter].  When it holds of every call the visitor receives, it holds
    of a whole traversal, with the number of nodes of the tree for [k]. *)

(** A node is visited with no parent, or at one step below its parent. *)
Definition linked (p : list nat) (parent : option ref) : Prop :=
  match parent with
  | None => True
  | Some r => exists i, p = path r ++ [i]
  end.

Section Steps.
Context {State : Type} (v : visitor State) (R : nat -> State -> State -> Prop).
Hypothesis R_refl : forall s, R 0 s s.
Hypothesis R_trans : forall j k s s1 s2, R j s s1 -> R k s1 s2 -> R (j + k) s s2.
Hypothesis R_enter : forall ty self parent s s', linked (path self) parent ->
  call_enter (v ty) self parent s = Done s' -> R 1 s s'.
Hypothesis R_exit : forall ty self parent s s', linked (path self) parent ->
  call_exit (v ty) self parent s = Done s' -> R 0 s s'.

Definition steps (n : Src.node) : Prop :=
  forall p parent s s', linked p parent ->
  traverseNode_at v n p parent s = Done s' -> R (Src.size n) s s'.

Lemma traverseArray_steps parent l :
  Forall steps l -> forall i s s',
  traverseArray_from (fun r => traverseNode_at v (node r) (path r)) parent l i s = Done s' ->
  R (list_sum (map Src.size l)) s s'.
Proof.
  induction 1 as [|c l Hc _ IH]; intros i s s' T; simpl in T.
  - injection T as <-. apply R_refl.
  - apply bind_Done_inv in T as (s1 & T1 & T2). simpl.
    apply Hc in T1; [eauto | now exists i].
Qed.

Lemma traverseNode_steps n : steps n.
Proof.
  induction n as [body IH | name params IH | | |] using Src.node_ind;
    intros p parent s s' L T; cbn [traverseNode_at] in T;
    apply bind_Done_inv in T as (s1 & E & T); apply bind_Done_inv in T as (s2 & C & X);
    (apply R_enter in E; [|exact L]); (apply R_exit in X; [|exact L]); try discriminate;
    try (apply traverseArray_steps in C; [|assumption]);
    try (injection C as <-);
    cbn [Src.size]; rewrite <- (Nat.add_0_r (S _)); eapply R_trans; eauto;
    try (apply (R_trans 1 _ s s1 s2); assumption).
Qed.

End Steps.

(** ** Visitors whose methods use no fuel *)

Section Terminates.
Context {State : Type} (v : visitor State).
Hypothesis enter_terminates : forall ty self parent s,
  terminates (call_enter (v ty) self parent s).
Hypothesis exit_terminates : forall ty self parent s,
  terminates (call_exit (v ty) self parent s).

Lemma traverseArray_terminates parent l :
  Forall (fun n => forall p parent s, terminates (traverseNode_at v n p parent s)) l ->
  forall i s,
  terminates (traverseArray_from (fun r => traverseNode_at v (node r) (path r)) parent l i s).
Proof.
  induction 1 as [|c l Hc _ IH]; intros i s T; simpl in T; [discriminate|].
  apply bind_OutOfFuel_inv in T as [T | (s1 & _ & T)]; [now apply Hc in T | now apply IH in T].
Qed.

Lemma traverseNode_terminates n p parent s : terminates (traverseNode_at v n p parent s).
Proof.
  revert p parent s.
  induction n as [body IH | name params IH | | |] using Src.node_ind;
    intros p parent s T; cbn [traverseNode_at] in T;
    apply bind_OutOfFuel_inv in T as [T | (s1 & _ & T)];
    try (now apply enter_terminates in T);
    apply bind_OutOfFuel_inv in T as [T | (s2 & _ & T)];
    try (now apply exit_terminates in T); try discriminate;
    now apply traverseArray_terminates in T.
Qed.

End Terminates.

(** ** The exceptions of a traversal

    A traversal throws what a method throws, or the [TypeError] of the
    [default:] branch. *)

Section Throws.
Context {State : Type} (v : visitor State) (E : exn -> Prop).
Hypothesis enter_throws : forall ty self parent s e,
  call_enter (v ty) self parent s = Throw e -> E e.
Hypothesis exit_throws : forall ty self parent s e,
  call_exit (v ty) self parent s = Throw e -> E e.
Hypothesis default_throws : forall t : Src.unhandled, E (TypeError (proj1_sig t)).

Lemma traverseArray_throws parent l :
  Forall (fun n => forall p parent s e, traverseNode_at v n p parent s = Throw e -> E e) l ->
  forall i s e,
  traverseArray_from (fun r => traverseNode_at v (node r) (path r)) parent l i s = Throw e ->
  E e.
Proof.
  induction 1 as [|c l Hc _ IH]; intros i s e T; simpl in T; [discriminate|].
  apply bind_Throw_inv in T as [T | (s1 & _ & T)]; [now apply Hc in T | now apply IH in T].
Qed.

Lemma traverseNode_throws n p parent s e :
  traverseNode_at v n p parent s = Throw e -> E e.
Proof.
  revert p parent s e.
  induction n as [body IH | name params IH | | |] using Src.node_ind;
    intros p parent s e T; cbn [traverseNode_at] in T;
    apply bind_Throw_inv in T as [T | (s1 & _ & T)];
    try (now apply enter_throws in T);
    apply bind_Throw_inv in T as [T | (s2 & _ & T)];
    try (now apply exit_throws in T); try discriminate;
    try (now apply traverseArray_throws in T).
  now injection T as <-.
Qed.

End Throws.

(** ** Unknown nodes *)

(** The type of the first node, in the order of the traversal, that is
    none of the four kinds. *)
Fixpoint first_unknown (n : Src.node) : option string :=
  let among (l : list Src.node) :=
    (fix each (l : list Src.node) : option string :=
       match l with
       | [] => None
       | child :: l' =>
           match first_unknown child with
           | Some t => Some t
           | None => each l'
           end
       end) l in
  match n with
  | Src.Program body => among body
  | Src.CallExpression _ params => among params
  | Src.NumberLiteral _ | Src.StringLiteral _ => None
  | Src.Other t => Some (proj1_sig t)
  end.

Fixpoint first_unknown_among (l : list Src.node) : option string :=
  match l with
  | [] => None
  | child :: l' =>
      match first_unknown child with
      | Some t => Some t
      | None => first_unknown_among l'
      end
  end.

Lemma first_unknown_unfold n :
  first_unknown n =
    match n with
    | Src.Program body => first_unknown_among body
    | Src.CallExpression _ params => first_unknown_among params
    | Src.NumberLiteral _ | Src.StringLiteral _ => None
    | Src.Other t => Some (proj1_sig t)
    end.
Proof.
  assert (E : forall l,
    (fix each (l : list Src.node) : option string :=
       match l with
       | [] => None
       | child :: l' =>
           match first_unknown child with
           | Some t => Some t
           | None => each l'
           end
       end) l = first_unknown_among l).
  { induction l as [|c l IH]; simpl; [reflexivity | now rewrite IH]. }
  destruct n; simpl; auto.
Qed.

Lemma known_first_unknown n : Src.known n = true <-> first_unknown n = None.
Proof.
  induction n as [body IH | name params IH | | |] using Src.node_ind;
    rewrite first_unknown_unfold; simpl; try easy;
    induction IH as [|c l Hc _ IHl]; simpl; try easy;
    rewrite andb_true_iff, Hc, IHl; destruct (first_unknown c); intuition congruence.
Qed.

Section Unknown.
Context {State : Type} (v : visitor State) (Htotal : total_visitor v).

Definition throws_unknown (n : Src.node) : Prop :=
  forall t, first_unknown n = Some t -> forall p parent (s : State),
  traverseNode_at v n p parent s = Throw (TypeError t).

Lemma traverseArray_unknown parent l t :
  Forall throws_unknown l -> first_unknown_among l = Some t -> forall i (s : State),
  traverseArray_from (fun r => traverseNode_at v (node r) (path r)) parent l i s =
    Throw (TypeError t).
Proof.
  induction 1 as [|c l Hc _ IH]; simpl; intros Hu i s; [discriminate|].
  destruct (first_unknown c) as [t'|] eqn:E.
  - injection Hu as ->. now rewrite (Hc t).
  - apply known_first_unknown in E.
    rewrite (traverseNode_events v c E).
    destruct (run_events_total v Htotal (events_at c (path parent ++ [i]) (Some parent)) s)
      as (s' & ->). simpl. now apply IH.
Qed.

Lemma traverseNode_unknown n : throws_unknown n.
Proof.
  induction n as [body IH | name params IH | value | value | ty] using Src.node_ind;
    intros t Hu p parent s; rewrite first_unknown_unfold in Hu; try discriminate;
    cbn [traverseNode_at];
    match goal with |- context [call_enter ?m ?self ?par s] =>
      destruct (call_enter_total v Htotal (Src.type (node self)) self par s) as (s1 & E);
      cbn [node] in E; rewrite E; cbn [bind]
    end.
  - unfold traverseArray. now rewrite (traverseArray_unknown _ _ t).
  - unfold traverseArray. now rewrite (traverseArray_unknown _ _ t).
  - now injection Hu as ->.
Qed.

End Unknown.

Lemma recorder_total : total_visitor recorder.
Proof.
  intros ty m [= <-]. split; intros f [= <-]; intros self parent s; eauto.
Qed.

(** The record of a traversal is [events]. *)
Lemma traverser_recorder ast :
  Src.known ast = true -> traverser ast recorder [] = Done (events ast).
Proof.
  intros H. unfold traverser, traverseNode. simpl.
  rewrite (traverseNode_events recorder ast H). apply run_events_recorder.
Qed.

(** ** The properties of the traverser *)

(** C6: On a tree of known nodes, [traverser] makes exactly the calls of
    [events], in that order: [enter] on a node, then the calls for its
    children from left to right with the node as their parent, then [exit]
    on the node; each call is the method the visitor has for the type of
    the node, or nothing.  The state after the traversal is the state
    after these calls, and the first call that throws ends it. *)
Theorem traverser_events {State : Type} (v : visitor State) ast s :
  Src.known ast = true -> traverser ast v s = run_events v (events ast) s.
Proof. intros H. now apply traverseNode_events. Qed.

Lemma traverser_events_witness :
  traverser (Src.Program [Src.CallExpression "a" [Src.NumberLiteral "1"]]) recorder [] =
  run_events recorder (events (Src.Program [Src.CallExpression "a" [Src.NumberLiteral "1"]])) [].
Proof. apply traverser_events. reflexivity. Defined.

(** C26: The calls [traverser] makes are nested like the tree: with the
    visitor that records every call, the record of a traversal is the
    sequence [events], in which every [enter] on a node is followed by the
    calls for its children, which receive that node as parent, and then by
    the [exit] on the same node with the same parent; the root's parent is
    [null]. *)
Theorem traverser_nested ast :
  Src.known ast = true ->
  traverser ast recorder [] = Done (events ast) /\ nested None (events ast).
Proof.
  intros H. split; [now apply traverser_recorder | apply events_at_nested].
Qed.

Lemma traverser_nested_witness :
  traverser (Src.Program [Src.NumberLiteral "1"; Src.StringLiteral "s"]) recorder [] =
    Done (events (Src.Program [Src.NumberLiteral "1"; Src.StringLiteral "s"])) /\
  nested None (events (Src.Program [Src.NumberLiteral "1"; Src.StringLiteral "s"])).
Proof. apply traverser_nested. reflexivity. Defined.

(** C27: Preorder and postorder: the nodes on which [traverser] calls
    [enter] are the nodes of the tree in preorder, and the nodes on which
    it calls [exit] are the same nodes in postorder; every node is
    entered once and left once. *)
Theorem traverser_orders ast :
  Src.known ast = true ->
  exists log, traverser ast recorder [] = Done log /\
              entered log = preorder ast /\ exited log = postorder ast.
Proof.
  intros H. exists (events ast).
  split; [now apply traverser_recorder | apply events_at_orders].
Qed.

Lemma traverser_orders_witness :
  exists log,
    traverser (Src.Program [Src.CallExpression "a" [Src.NumberLiteral "1"];
                            Src.StringLiteral "s"]) recorder [] = Done log /\
    entered log = preorder (Src.Program [Src.CallExpression "a" [Src.NumberLiteral "1"];
                                         Src.StringLiteral "s"]) /\
    exited log = postorder (Src.Program [Src.CallExpression "a" [Src.NumberLiteral "1"];
                                         Src.StringLiteral "s"]).
Proof. apply traverser_orders. reflexivity. Defined.

(** C28: The references the methods receive name nodes of the tree: in
    every call [traverser] makes, the path of the node leads from the
    root to that node, the parent is the node one step up that path, and
    the root is visited with no parent. *)
Theorem traverser_refs ast :
  Src.known ast = true ->
  exists log, traverser ast recorder [] = Done log /\ Forall (event_ok ast) log.
Proof.
  intros H. exists (events ast).
  split; [now apply traverser_recorder | now apply events_at_located].
Qed.

Lemma traverser_refs_witness :
  exists log,
    traverser (Src.Program [Src.CallExpression "a" [Src.NumberLiteral "1"]]) recorder [] =
      Done log /\
    Forall (event_ok (Src.Program [Src.CallExpression "a" [Src.NumberLiteral "1"]])) log.
Proof. apply traverser_refs. reflexivity. Defined.

(** C29: With a visitor whose methods always return, [traverser] returns
    on every tree of known nodes. *)
Theorem traverser_total {State : Type} (v : visitor State) ast s :
  total_visitor v -> Src.known ast = true -> exists s', traverser ast v s = Done s'.
Proof.
  intros Ht Hk. unfold traverser, traverseNode. simpl.
  rewrite (traverseNode_events v ast Hk). now apply run_events_total.
Qed.

Lemma traverser_total_witness :
  exists s', traverser (Src.Program [Src.CallExpression "a" []]) recorder [] = Done s'.
Proof. apply traverser_total; [exact recorder_total | reflexivity]. Defined.

(** C30: With a visitor whose methods always return, [traverser] throws
    on a tree that holds a node of an unknown type: a [TypeError] with the
    type of the first such node in the order of the traversal. *)
Theorem traverser_unknown {State : Type} (v : visitor State) ast s t :
  total_visitor v -> first_unknown ast = Some t ->
  traverser ast v s = Throw (TypeError t).
Proof. intros Ht Hu. now apply traverseNode_unknown. Qed.

Lemma traverser_unknown_witness :
  traverser (Src.Program [Src.NumberLiteral "1"; Src.Other (Src.tag "Identifier" eq_refl);
                          Src.Other (Src.tag "X" eq_refl)])
    recorder [] = Throw (TypeError "Identifier").
Proof. apply traverser_unknown; [exact recorder_total | reflexivity]. Defined.
