(* ===== verification/Transformer.v ===== *)
(** * The transformer ([transformer], src/tiny-compiler.js lines 186-240)

    The source builds the new tree top down while [traverser] walks the
    old one: every node of the old tree that can have children carries,
    in its property [_context], a reference to the array of the new tree
    its children append to.  The model keeps this sharing: [store] holds
    the arrays of the new tree by location, and the [_context] of the old
    nodes by the position of the node.  The methods of the visitor are
    functions on the store; [reify] reads the finished graph of arrays as
    a [Tgt.node].  [transform] is the specification, a pure recursive
    function, and the theorems show [transformer] computes it, which
    references it leaves on the old tree, and that it does not depend
    on the references an earlier call left there ([transformer_from]). *)

From stdpp Require Import base gmap list.
From Stdlib Require Import String Ascii.
From S2P Require Import Prelude Ast Traverser.
Local Open Scope js_scope.

(** ** The store *)

(** A location names one array of the new tree. *)
Definition loc : Type := nat.

(** The objects of the new tree; an array-valued property holds the
    location of the array. *)
Inductive value : Type :=
| VProgram (body : loc)
| VExpressionStatement (expression : value)
| VCallExpression (callee : value) (arguments : loc)
| VIdentifier (name : string)
| VNumberLiteral (value : string)
| VStringLiteral (value : string).

Record store : Type := {
  arrays : gmap loc (list value);
  next : loc;
  context : gmap (list nat) loc
}.

(** [[]]: a new empty array. *)
Definition alloc (s : store) : loc * store :=
  (next s, {| arrays := <[next s := []]> (arrays s);
              next := S (next s);
              context := context s |}).

(** [array.push(v)] on the array at [l]. *)
Definition push (l : loc) (v : value) (s : store) : store :=
  {| arrays := alter (fun a => a ++ [v]) l (arrays s);
     next := next s;
     context := context s |}.

(** [node._context = array] for the node at [p]. *)
Definition set_context (p : list nat) (l : loc) (s : store) : store :=
  {| arrays := arrays s; next := next s; context := <[p := l]> (context s) |}.

(** [parent._context.push(v)]: [parent] may be [null], and its
    [_context] may be [undefined]. *)
Definition parent_context_push (parent : option ref) (v : value) (s : store)
    : outcome store :=
  match parent with
  | None => Throw (UndefinedRead "_context")
  | Some r =>
      match context s !! path r with
      | None => Throw (UndefinedRead "push")
      | Some l => Done (push l v s)
      end
  end.

(** ** The visitor

    [traverser] calls the method registered for a type on nodes of that
    type only; on any other node the methods below do nothing. *)

Definition NumberLiteral_enter : method store := fun self parent s =>
  match node self with
  | Src.NumberLiteral value => parent_context_push parent (VNumberLiteral value) s
  | _ => Done s
  end.

Definition StringLiteral_enter : method store := fun self parent s =>
  match node self with
  | Src.StringLiteral value => parent_context_push parent (VStringLiteral value) s
  | _ => Done s
  end.

Definition CallExpression_enter : method store := fun self parent s =>
  match node self with
  | Src.CallExpression name _ =>
      let '(arguments, s) := alloc s in
      let expression := VCallExpression (VIdentifier name) arguments in
      let s := set_context (path self) arguments s in
      match parent with
      | None => Throw (UndefinedRead "type")
      | Some r =>
          let expression :=
            if negb (Src.type (node r) =? "CallExpression")%string
            then VExpressionStatement expression
            else expression in
          parent_context_push parent expression s
      end
  | _ => Done s
  end.

Definition transformer_visitor : visitor store := fun type =>
  if (type =? "NumberLiteral")%string then
    Some {| enter := Some NumberLiteral_enter; exit := None |}
  else if (type =? "StringLiteral")%string then
    Some {| enter := Some StringLiteral_enter; exit := None |}
  else if (type =? "CallExpression")%string then
    Some {| enter := Some CallExpression_enter; exit := None |}
  else None.

(** ** Reading the new tree *)

Fixpoint reify (fuel : nat) (h : gmap loc (list value)) (v : value) : option Tgt.node :=
  match fuel with
  | 0 => None
  | S fuel =>
      match v with
      | VProgram body =>
          a ← h !! body; Tgt.Program <$> mapM (reify fuel h) a
      | VExpressionStatement expression =>
          Tgt.ExpressionStatement <$> reify fuel h expression
      | VCallExpression callee arguments =>
          c ← reify fuel h callee;
          a ← h !! arguments;
          Tgt.CallExpression c <$> mapM (reify fuel h) a
      | VIdentifier name => Some (Tgt.Identifier name)
      | VNumberLiteral value => Some (Tgt.NumberLiteral value)
      | VStringLiteral value => Some (Tgt.StringLiteral value)
      end
  end.

(** ** [transformer] *)

Definition initial_store : store :=
  {| arrays := {[ 0 := [] ]}; next := 1; context := {[ [] := 0 ]} |}.

Definition transformer (ast : Src.node) : outcome Tgt.node :=
  let newAst := VProgram 0 in
  s <- traverser ast transformer_visitor initial_store ;;
  match reify (2 * Src.size ast + 1) (arrays s) newAst with
  | Some t => Done t
  | None => OutOfFuel
  end.

(** A call of [transformer] on a tree that went through it before: the
    store holds the arrays of the earlier trees already, and the nodes
    carry the [_context] references the earlier calls left on them.
    The new [body] array is allocated and line 193 overwrites the
    reference of the root. *)
Definition enter_store (s0 : store) : store :=
  {| arrays := <[next s0 := []]> (arrays s0);
     next := S (next s0);
     context := <[ [] := next s0 ]> (context s0) |}.

Definition transformer_from (s0 : store) (ast : Src.node) : outcome Tgt.node :=
  let newAst := VProgram (next s0) in
  s <- traverser ast transformer_visitor (enter_store s0) ;;
  match reify (2 * Src.size ast + 1) (arrays s) newAst with
  | Some t => Done t
  | None => OutOfFuel
  end.

(** The store before the first object is made, and the stores in which
    no array sits at a location that was not handed out yet. *)
Definition empty_store : store := {| arrays := ∅; next := 0; context := ∅ |}.

Definition fresh (s : store) : Prop := ∀ l, next s ≤ l → arrays s !! l = None.

(** The exceptions that leave [transformer]: the three reads on [null]
    and [undefined] in its methods, and the [TypeError] of [traverser]
    for a tag it has no case for. *)
Definition transformer_exn (e : exn) : bool :=
  match e with
  | UndefinedRead property =>
      (property =? "type")%string || (property =? "_context")%string ||
      (property =? "push")%string
  | TypeError tag => negb (Src.handled tag)
  end.

(** ** The specification *)

(** A node in argument position; on a node that is not an expression the
    value is arbitrary. *)
Fixpoint transform_expression (n : Src.node) : Tgt.node :=
  match n with
  | Src.NumberLiteral value => Tgt.NumberLiteral value
  | Src.StringLiteral value => Tgt.StringLiteral value
  | Src.CallExpression name params =>
      Tgt.CallExpression (Tgt.Identifier name) (List.map transform_expression params)
  | Src.Program body => Tgt.Program (List.map transform_expression body)
  | Src.Other _ => Tgt.Program []
  end.

(** A node in statement position: a call is wrapped. *)
Definition transform_statement (n : Src.node) : Tgt.node :=
  match n with
  | Src.CallExpression _ _ => Tgt.ExpressionStatement (transform_expression n)
  | _ => transform_expression n
  end.

Definition transform (ast : Src.node) : Tgt.node :=
  match ast with
  | Src.Program body => Tgt.Program (List.map transform_statement body)
  | _ => transform_expression ast
  end.

(** The source tree a target tree comes from: the wrapper of a statement
    is dropped and the callee gives the name. *)
Fixpoint untransform (t : Tgt.node) : Src.node :=
  match t with
  | Tgt.Program body => Src.Program (List.map untransform body)
  | Tgt.ExpressionStatement expression => untransform expression
  | Tgt.CallExpression (Tgt.Identifier name) arguments =>
      Src.CallExpression name (List.map untransform arguments)
  | Tgt.NumberLiteral value => Src.NumberLiteral value
  | Tgt.StringLiteral value => Src.StringLiteral value
  | _ => Src.Program []
  end.

(** ** Reading is monotone

    More fuel and more arrays do not change what [reify] reads. *)

Lemma reify_mono fuel fuel' (h h' : gmap loc (list value)) v t :
  reify fuel h v = Some t → fuel ≤ fuel' → h ⊆ h' → reify fuel' h' v = Some t.
Proof.
  revert fuel' v t. induction fuel as [|fuel IH]; intros [|fuel'] v t H Hle Hsub;
    try done; try lia.
  assert (Hm : ∀ a k, mapM (reify fuel h) a = Some k → mapM (reify fuel' h') a = Some k).
  { intros a k Hk. apply mapM_Some. apply mapM_Some in Hk.
    eapply Forall2_impl; [exact Hk|]. intros x y Hxy. apply (IH fuel'); [done | lia | done]. }
  destruct v; simpl in *; simplify_option_eq; try done.
  - erewrite lookup_weaken by done. simpl. by erewrite Hm.
  - erewrite IH by (done || lia). done.
  - erewrite IH by (done || lia). simpl.
    erewrite lookup_weaken by done. simpl. by erewrite Hm.
Qed.

Lemma mapM_reify_mono fuel fuel' (h h' : gmap loc (list value)) a k :
  mapM (reify fuel h) a = Some k → fuel ≤ fuel' → h ⊆ h' →
  mapM (reify fuel' h') a = Some k.
Proof.
  intros Hk Hle Hsub. apply mapM_Some. apply mapM_Some in Hk.
  eapply Forall2_impl; [exact Hk|]. intros x y Hxy.
  eapply reify_mono; [exact Hxy | done | done].
Qed.

(** The arrays at the locations from [lo] up to [hi]. *)
Definition window (lo hi : loc) (h : gmap loc (list value)) : gmap loc (list value) :=
  filter (λ lv, lo ≤ lv.1 < hi) h.

Lemma window_subseteq lo hi lo' hi' (h h' : gmap loc (list value)) :
  lo' ≤ lo → hi ≤ hi' → (∀ l, lo ≤ l < hi → h !! l = h' !! l) →
  window lo hi h ⊆ window lo' hi' h'.
Proof.
  intros Hlo Hhi Hagree. apply map_subseteq_spec. intros l a.
  unfold window. rewrite !map_lookup_filter_Some. simpl.
  intros [Ha Hl]. rewrite <- Hagree by done. split; [done | lia].
Qed.

Lemma window_subseteq_all lo hi (h h' : gmap loc (list value)) :
  (∀ l, lo ≤ l < hi → h !! l = h' !! l) → window lo hi h ⊆ h'.
Proof.
  intros Hagree. apply map_subseteq_spec. intros l a.
  unfold window. rewrite map_lookup_filter_Some. simpl.
  intros [Ha Hl]. by rewrite <- Hagree.
Qed.

Lemma window_lookup lo hi (h : gmap loc (list value)) l a :
  h !! l = Some a → lo ≤ l < hi → window lo hi h !! l = Some a.
Proof. intros. unfold window. by apply map_lookup_filter_Some. Qed.

(** ** Stores that grow

    [ready parent lp a s]: the node [parent] has the array at [lp] as its
    [_context], the array holds [a], and no location from [next s] on is
    in use. *)

Definition ready (parent : ref) (lp : loc) (a : list value) (s : store) : Prop :=
  context s !! path parent = Some lp ∧ arrays s !! lp = Some a ∧
  ∀ l, next s ≤ l → arrays s !! l = None.

Lemma ready_lt parent lp a s : ready parent lp a s → lp < next s.
Proof.
  intros (_ & Ha & Hfresh). destruct (decide (lp < next s)) as [|Hge]; [done|].
  rewrite Hfresh in Ha by lia. done.
Qed.

(** [grows lp a vals depth s s']: from [s] to [s'], [vals] were appended
    to the array at [lp]; the other arrays of [s] and the [_context] of
    the nodes at depth at most [depth] are unchanged. *)
Record grows (lp : loc) (a vals : list value) (depth : nat) (s s' : store) : Prop := {
  grows_next : next s ≤ next s';
  grows_parent : arrays s' !! lp = Some (a ++ vals);
  grows_frame : ∀ l, l < next s → l ≠ lp → arrays s' !! l = arrays s !! l;
  grows_fresh : ∀ l, next s' ≤ l → arrays s' !! l = None;
  grows_context : ∀ q : list nat, List.length q ≤ depth → context s' !! q = context s !! q
}.

Lemma grows_refl parent lp a depth s : ready parent lp a s → grows lp a [] depth s s.
Proof. intros (Hc & Ha & Hf). split; auto. by rewrite app_nil_r. Qed.

Lemma grows_trans lp a vals vals' depth s s1 s2 :
  lp < next s → grows lp a vals depth s s1 → grows lp (a ++ vals) vals' depth s1 s2 →
  grows lp a (vals ++ vals') depth s s2.
Proof.
  intros Hlt [N1 P1 F1 R1 C1] [N2 P2 F2 R2 C2]. split.
  - lia.
  - by rewrite app_assoc.
  - intros l Hl Hne. rewrite F2 by (done || lia). by apply F1.
  - done.
  - intros q Hq. rewrite C2 by done. by apply C1.
Qed.

Lemma grows_ready parent lp a vals depth s s' :
  ready parent lp a s → List.length (path parent) ≤ depth → grows lp a vals depth s s' →
  ready parent lp (a ++ vals) s'.
Proof.
  intros (Hc & Ha & Hf) Hd [N P F R C]. split; [|done]. by rewrite C.
Qed.

Lemma grows_nested lp a vals depth l1 a1 vals1 depth1 s s1 s2 :
  grows lp a vals depth s s1 → grows l1 a1 vals1 depth1 s1 s2 →
  lp < next s → next s ≤ l1 → depth ≤ depth1 → grows lp a vals depth s s2.
Proof.
  intros [N1 P1 F1 R1 C1] [N2 P2 F2 R2 C2] Hlt Hl1 Hd. split.
  - lia.
  - rewrite F2 by lia. done.
  - intros l Hl Hne. rewrite F2 by lia. by apply F1.
  - done.
  - intros q Hq. rewrite C2 by lia. by apply C1.
Qed.

(** ** The methods of the visitor on a ready store *)

Lemma push_grows parent lp a v depth s :
  ready parent lp a s →
  parent_context_push (Some parent) v s = Done (push lp v s) ∧
  grows lp a [v] depth s (push lp v s).
Proof.
  intros Hr. pose proof (ready_lt _ _ _ _ Hr) as Hlt. destruct Hr as (Hc & Ha & Hf).
  unfold parent_context_push. rewrite Hc. split; [done|]. split; simpl.
  - done.
  - by rewrite lookup_alter_eq, Ha.
  - intros l _ Hne. by rewrite lookup_alter_ne.
  - intros l Hl. rewrite lookup_alter_ne by lia. by apply Hf.
  - done.
Qed.

(** The value [CallExpression_enter] appends for a call under [parent]. *)
Definition call_value (parent : Src.node) (name : string) (arguments : loc) : value :=
  if negb (Src.type parent =? "CallExpression")%string
  then VExpressionStatement (VCallExpression (VIdentifier name) arguments)
  else VCallExpression (VIdentifier name) arguments.

Lemma reify_statement fuel (h : gmap loc (list value)) e :
  reify (S fuel) h (VExpressionStatement e) = Tgt.ExpressionStatement <$> reify fuel h e.
Proof. done. Qed.

Lemma reify_program fuel (h : gmap loc (list value)) l vals ts :
  h !! l = Some vals → mapM (reify fuel h) vals = Some ts →
  reify (S fuel) h (VProgram l) = Some (Tgt.Program ts).
Proof. intros Hl Hts. cbn [reify]. rewrite Hl. cbn. by rewrite Hts. Qed.

Lemma reify_call fuel (h : gmap loc (list value)) name l vals args :
  h !! l = Some vals → mapM (reify (S fuel) h) vals = Some args →
  reify (S (S fuel)) h (VCallExpression (VIdentifier name) l) =
    Some (Tgt.CallExpression (Tgt.Identifier name) args).
Proof.
  intros Hl Hargs.
  change (reify (S (S fuel)) h (VCallExpression (VIdentifier name) l))
    with (a ← h !! l; Tgt.CallExpression (Tgt.Identifier name) <$> mapM (reify (S fuel) h) a).
  rewrite Hl. unfold mbind, option_bind. apply fmap_Some. by exists args.
Qed.

Lemma reify_call_value fuel (h : gmap loc (list value)) parent name l vals args :
  h !! l = Some vals → mapM (reify (S fuel) h) vals = Some args →
  reify (S (S (S fuel))) h (call_value parent name l) =
    Some (if negb (Src.type parent =? "CallExpression")%string
          then Tgt.ExpressionStatement (Tgt.CallExpression (Tgt.Identifier name) args)
          else Tgt.CallExpression (Tgt.Identifier name) args).
Proof.
  intros Hl Hargs. unfold call_value. destruct (negb _).
  - by rewrite reify_statement, (reify_call _ _ _ _ _ _ Hl Hargs).
  - apply (reify_call _ _ _ _ _ _ Hl).
    by apply (mapM_reify_mono (S fuel) (S (S fuel)) h h); [| lia |].
Qed.

Lemma CallExpression_enter_grows name params p parent lp a s :
  List.length p = S (List.length (path parent)) → ready parent lp a s →
  ∃ s1, CallExpression_enter {| path := p; node := Src.CallExpression name params |}
          (Some parent) s = Done s1 ∧
    next s1 = S (next s) ∧
    grows lp a [call_value (node parent) name (next s)] (List.length (path parent)) s s1 ∧
    ready {| path := p; node := Src.CallExpression name params |} (next s) [] s1.
Proof.
  intros Hp Hr. pose proof (ready_lt _ _ _ _ Hr) as Hlt. destruct Hr as (Hc & Ha & Hf).
  assert (Hne : p ≠ path parent) by (intros ->; lia).
  eexists. unfold CallExpression_enter, parent_context_push. simpl.
  rewrite lookup_insert_ne, Hc by done. split; [done|]. simpl.
  split; [done|]. split; [split|split; [|split]]; simpl.
  - lia.
  - rewrite lookup_alter_eq, lookup_insert_ne, Ha by lia. done.
  - intros l Hl Hnl. rewrite lookup_alter_ne, lookup_insert_ne by lia. done.
  - intros l Hl. rewrite lookup_alter_ne, lookup_insert_ne by lia. apply Hf. lia.
  - intros q Hq. rewrite lookup_insert_ne; [done|]. intros ->. lia.
  - by rewrite lookup_insert_eq.
  - rewrite lookup_alter_ne, lookup_insert_eq by lia. done.
  - intros l Hl. rewrite lookup_alter_ne, lookup_insert_ne by lia. apply Hf. lia.
Qed.

(** ** The traversal builds [transform] *)

(** What a node becomes under [parent]: a call is wrapped in a statement
    unless its parent is a call. *)
Definition transform_in (parent n : Src.node) : Tgt.node :=
  if (Src.type parent =? "CallExpression")%string
  then transform_expression n
  else transform_statement n.

(** The traversal of the expression [n] under a ready [parent] appends
    one value to the array of the parent, and that value reads as the
    transform of [n] in the arrays allocated meanwhile. *)
Definition transforms (n : Src.node) : Prop :=
  Src.expr n = true → ∀ p parent lp a s,
  List.length p = S (List.length (path parent)) → ready parent lp a s →
  ∃ s' val,
    traverseNode_at transformer_visitor n p (Some parent) s = Done s' ∧
    grows lp a [val] (List.length (path parent)) s s' ∧
    reify (2 * Src.size n + 1) (window (next s) (next s') (arrays s')) val =
      Some (transform_in (node parent) n).

Lemma traverseArray_transforms parent l :
  Forall transforms l → forallb Src.expr l = true → ∀ i lp a s,
  ready parent lp a s →
  ∃ s' vals,
    traverseArray_from (λ r, traverseNode_at transformer_visitor (node r) (path r))
      parent l i s = Done s' ∧
    grows lp a vals (List.length (path parent)) s s' ∧
    Forall2 (λ val n,
        reify (2 * list_sum (List.map Src.size l) + 1)
          (window (next s) (next s') (arrays s')) val =
        Some (transform_in (node parent) n)) vals l.
Proof.
  induction 1 as [|c l Hc _ IH]; intros He i lp a s Hr.
  { exists s, []. split; [done|]. split; [by eapply grows_refl | constructor]. }
  simpl in He. apply andb_prop in He as [He1 He2].
  pose proof (ready_lt _ _ _ _ Hr) as Hlt.
  destruct (Hc He1 (path parent ++ [i]) parent lp a s) as (s1 & val & T1 & G1 & R1);
    [rewrite length_app; simpl; lia | done |].
  destruct (IH He2 (S i) lp (a ++ [val]) s1) as (s2 & vals & T2 & G2 & R2);
    [by eapply grows_ready|].
  exists s2, (val :: vals). simpl. rewrite T1. simpl. split; [done|].
  split; [by apply (grows_trans lp a [val] vals _ s s1 s2)|].
  destruct G1 as [N1 _ _ _ _]. pose proof G2 as [N2 _ F2 _ _]. constructor.
  - eapply reify_mono; [exact R1 | lia |].
    apply window_subseteq; [lia | lia |]. intros l' Hl'. symmetry. apply F2; lia.
  - eapply Forall2_impl; [exact R2|]. intros v n Hv.
    eapply reify_mono; [exact Hv | lia |]. apply window_subseteq; [lia | lia | done].
Qed.

Lemma transformer_visitor_call :
  transformer_visitor "CallExpression"%string =
    Some {| enter := Some CallExpression_enter; exit := None |}.
Proof. reflexivity. Qed.

Lemma transformer_visitor_number :
  transformer_visitor "NumberLiteral"%string =
    Some {| enter := Some NumberLiteral_enter; exit := None |}.
Proof. reflexivity. Qed.

Lemma transformer_visitor_string :
  transformer_visitor "StringLiteral"%string =
    Some {| enter := Some StringLiteral_enter; exit := None |}.
Proof. reflexivity. Qed.

(** What the traversal of each kind of node is. *)
Lemma traverse_number v p parent s :
  traverseNode_at transformer_visitor (Src.NumberLiteral v) p parent s =
    parent_context_push parent (VNumberLiteral v) s.
Proof.
  cbn [traverseNode_at Src.type]. rewrite transformer_visitor_number. apply bind_Done_r.
Qed.

Lemma traverse_string v p parent s :
  traverseNode_at transformer_visitor (Src.StringLiteral v) p parent s =
    parent_context_push parent (VStringLiteral v) s.
Proof.
  cbn [traverseNode_at Src.type]. rewrite transformer_visitor_string. apply bind_Done_r.
Qed.

Lemma traverse_call name params p parent s :
  traverseNode_at transformer_visitor (Src.CallExpression name params) p parent s =
    (s1 <- CallExpression_enter {| path := p; node := Src.CallExpression name params |}
             parent s ;;
     traverseArray_from (λ r, traverseNode_at transformer_visitor (node r) (path r))
       {| path := p; node := Src.CallExpression name params |} params 0 s1).
Proof.
  cbn [traverseNode_at Src.type]. rewrite transformer_visitor_call.
  apply bind_ext. intros s1 _. apply bind_Done_r.
Qed.

Lemma traverse_program body p parent s :
  traverseNode_at transformer_visitor (Src.Program body) p parent s =
    traverseArray_from (λ r, traverseNode_at transformer_visitor (node r) (path r))
      {| path := p; node := Src.Program body |} body 0 s.
Proof. cbn [traverseNode_at Src.type]. apply bind_Done_r. Qed.

Lemma reify_arguments fuel fuel' (h h' : gmap loc (list value)) name params vals ps :
  Forall2 (λ val n, reify fuel h val =
                      Some (transform_in (Src.CallExpression name params) n)) vals ps →
  fuel ≤ fuel' → h ⊆ h' →
  mapM (reify fuel' h') vals = Some (List.map transform_expression ps).
Proof.
  intros R Hle Hsub. apply mapM_Some_2, Forall2_fmap_r.
  eapply Forall2_impl; [exact R|]. intros x y Hxy.
  eapply reify_mono; [exact Hxy | done | done].
Qed.

(** A node whose traversal is one [push] of a value that reads as its
    transform. *)
Lemma literal_transforms n val :
  (∀ p parent s, traverseNode_at transformer_visitor n p parent s =
                   parent_context_push parent val s) →
  (∀ parent h, reify (2 * Src.size n + 1) h val = Some (transform_in parent n)) →
  transforms n.
Proof.
  intros Ht Hv _ p parent lp a s Hp Hr.
  destruct (push_grows parent lp a val (List.length (path parent)) s Hr) as [E G].
  exists (push lp val s), val. by rewrite Ht.
Qed.

Lemma traverseNode_transforms n : transforms n.
Proof.
  induction n as [body IH | name params IH | v | v | ty] using Src.node_ind; try done.
  - intros He p parent lp a s Hp Hr.
    destruct (CallExpression_enter_grows name params p parent lp a s Hp Hr)
      as (s1 & E1 & N1 & G1 & R1).
    destruct (traverseArray_transforms _ params IH He 0 (next s) [] s1 R1)
      as (s2 & vals & T2 & G2 & R2).
    pose proof (ready_lt _ _ _ _ Hr) as Hlt. pose proof G2 as [N2 P2 _ _ _].
    exists s2, (call_value (node parent) name (next s)). split; [|split].
    + rewrite traverse_call, E1. done.
    + eapply grows_nested; [exact G1 | exact G2 | lia | lia | simpl; lia].
    + assert (Hl : window (next s) (next s2) (arrays s2) !! next s = Some vals)
        by (apply window_lookup; [done | lia]).
      replace (2 * Src.size (Src.CallExpression name params) + 1)
        with (S (S (S (2 * list_sum (List.map Src.size params))))) by (simpl; lia).
      rewrite (reify_call_value _ _ _ _ _ vals (List.map transform_expression params) Hl).
      * unfold transform_in. by destruct (_ =? _)%string.
      * eapply reify_arguments; [exact R2 | lia |].
        apply window_subseteq; [lia | lia | done].
  - apply (literal_transforms _ (VNumberLiteral v)); [apply traverse_number|].
    intros parent h. unfold transform_in. by destruct (_ =? _)%string.
  - apply (literal_transforms _ (VStringLiteral v)); [apply traverse_string|].
    intros parent h. unfold transform_in. by destruct (_ =? _)%string.
Qed.

(** ** The shape of a transform *)

Lemma transform_expression_expr n :
  Src.expr n = true → Tgt.expr (transform_expression n) = true.
Proof.
  induction n as [body IH | name params IH | v | v | ty] using Src.node_ind;
    simpl; try done.
  intros He. rewrite forallb_forall in He. rewrite Forall_forall in IH.
  apply forallb_forall. intros t Ht. apply in_map_iff in Ht as (n & <- & Hn).
  apply IH; [by apply list_elem_of_In | auto].
Qed.

Lemma transform_statement_statement n :
  Src.expr n = true → Tgt.statement (transform_statement n) = true.
Proof.
  destruct n; try done. intros He.
  apply (transform_expression_expr (Src.CallExpression _ _) He).
Qed.

Lemma transform_program ast : Src.program ast = true → Tgt.program (transform ast) = true.
Proof.
  destruct ast as [body| | | |]; simpl; try done. intros He.
  rewrite forallb_forall in He. apply forallb_forall. intros t Ht.
  apply in_map_iff in Ht as (n & <- & Hn). auto using transform_statement_statement.
Qed.

Lemma ready_enter_store body s0 :
  fresh s0 →
  ready {| path := []; node := Src.Program body |} (next s0) [] (enter_store s0).
Proof.
  intros Hf. split; [by apply lookup_insert_eq|]. split; [by apply lookup_insert_eq|].
  intros l Hl. simpl in *. rewrite lookup_insert_ne by lia. apply Hf. lia.
Qed.

Lemma fresh_empty : fresh empty_store.
Proof. by intros l _. Qed.

Lemma ready_initial body :
  ready {| path := []; node := Src.Program body |} 0 [] initial_store.
Proof. apply (ready_enter_store body empty_store), fresh_empty. Qed.

(** The traversal of a program from a store in which the root is ready. *)
Lemma traverser_ready body lp s0 :
  forallb Src.expr body = true →
  ready {| path := []; node := Src.Program body |} lp [] s0 →
  ∃ s vals,
    traverser (Src.Program body) transformer_visitor s0 = Done s ∧
    traverseArray_from (λ r, traverseNode_at transformer_visitor (node r) (path r))
      {| path := []; node := Src.Program body |} body 0 s0 = Done s ∧
    grows lp [] vals 0 s0 s ∧
    Forall2 (λ val n,
        reify (2 * list_sum (List.map Src.size body) + 1)
          (window (next s0) (next s) (arrays s)) val = Some (transform_statement n)) vals body.
Proof.
  intros He Hr. pose (root := {| path := []; node := Src.Program body |}).
  destruct (traverseArray_transforms root body) with (i := 0) (lp := lp) (a := @nil value)
    (s := s0) as (s & vals & T & G & R);
    [apply Forall_forall; intros; apply traverseNode_transforms | done | done |].
  exists s, vals. split; [|done].
  unfold traverser, traverseNode. cbn [node path]. by rewrite traverse_program.
Qed.

(** The traversal of a program from the initial store. *)
Lemma traverser_program body :
  forallb Src.expr body = true →
  ∃ s vals,
    traverser (Src.Program body) transformer_visitor initial_store = Done s ∧
    traverseArray_from (λ r, traverseNode_at transformer_visitor (node r) (path r))
      {| path := []; node := Src.Program body |} body 0 initial_store = Done s ∧
    grows 0 [] vals 0 initial_store s ∧
    Forall2 (λ val n,
        reify (2 * list_sum (List.map Src.size body) + 1)
          (window 1 (next s) (arrays s)) val = Some (transform_statement n)) vals body.
Proof. intros He. apply (traverser_ready body 0 initial_store He), ready_initial. Qed.

(** The new tree, read from the array of the root. *)
Lemma reify_root body lp lo vals s0 s :
  grows lp [] vals 0 s0 s →
  Forall2 (λ val n,
      reify (2 * list_sum (List.map Src.size body) + 1)
        (window lo (next s) (arrays s)) val = Some (transform_statement n)) vals body →
  reify (2 * Src.size (Src.Program body) + 1) (arrays s) (VProgram lp) =
    Some (Tgt.Program (List.map transform_statement body)).
Proof.
  intros [_ P _ _ _] R.
  replace (2 * Src.size (Src.Program body) + 1)
    with (S (2 * list_sum (List.map Src.size body) + 2)) by (simpl; lia).
  apply (reify_program _ _ _ vals); [done|]. apply mapM_Some_2, Forall2_fmap_r.
  eapply Forall2_impl; [exact R|]. intros x y Hxy.
  eapply reify_mono; [exact Hxy | lia | by apply window_subseteq_all].
Qed.

Lemma transformer_from_program s0 body :
  fresh s0 → forallb Src.expr body = true →
  transformer_from s0 (Src.Program body) =
    Done (Tgt.Program (List.map transform_statement body)).
Proof.
  intros Hf He.
  destruct (traverser_ready body (next s0) (enter_store s0) He (ready_enter_store body s0 Hf))
    as (s & vals & T & _ & G & R).
  unfold transformer_from. rewrite T. cbn [bind]. by erewrite reify_root.
Qed.

Lemma transformer_from_empty ast : transformer_from empty_store ast = transformer ast.
Proof. reflexivity. Qed.

Lemma transformer_program body :
  forallb Src.expr body = true →
  transformer (Src.Program body) = Done (Tgt.Program (List.map transform_statement body)).
Proof.
  intros He. rewrite <- transformer_from_empty.
  by apply transformer_from_program; [apply fresh_empty|].
Qed.

(** ** Nothing is lost *)

Lemma map_untransform (f : Src.node → Tgt.node) l :
  Forall (λ n, Src.expr n = true → untransform (f n) = n) l →
  forallb Src.expr l = true → List.map untransform (List.map f l) = l.
Proof.
  induction 1 as [|n l Hn _ IH]; simpl; [done|].
  intros He. apply andb_prop in He as [He1 He2]. by rewrite Hn, IH.
Qed.

Lemma untransform_expression n :
  Src.expr n = true → untransform (transform_expression n) = n.
Proof.
  induction n as [body IH | name params IH | v | v | ty] using Src.node_ind;
    try done.
  intros He. simpl. by rewrite (map_untransform _ params IH He).
Qed.

Lemma untransform_statement n :
  Src.expr n = true → untransform (transform_statement n) = n.
Proof.
  destruct n; try done. intros He.
  apply (untransform_expression (Src.CallExpression _ _) He).
Qed.

Lemma untransform_transform ast : Src.program ast = true → untransform (transform ast) = ast.
Proof.
  destruct ast as [body| | | |]; try done. intros He. simpl.
  rewrite (map_untransform transform_statement body); [done | | done].
  apply Forall_forall. intros n _. apply untransform_statement.
Qed.

(** ** The references left on the old tree

    The traversal of a node changes the [_context] of that node and of
    the nodes below it only, and it leaves on every call of the old tree
    a reference to the array of arguments of the call built for it. *)

Lemma parent_context_push_context parent v s s' :
  parent_context_push parent v s = Done s' → context s' = context s.
Proof.
  unfold parent_context_push. destruct parent as [r|]; [|done].
  destruct (context s !! path r); [|done]. by intros [= <-].
Qed.

Lemma CallExpression_enter_context name params p parent s s' :
  CallExpression_enter {| path := p; node := Src.CallExpression name params |} parent s =
    Done s' →
  context s' = <[p := next s]> (context s).
Proof.
  unfold CallExpression_enter. cbn. destruct parent as [r|]; [|done].
  intros H. by apply parent_context_push_context in H.
Qed.

Definition keeps (n : Src.node) : Prop :=
  ∀ p parent s s', traverseNode_at transformer_visitor n p parent s = Done s' →
  ∀ q, ¬ p `prefix_of` q → context s' !! q = context s !! q.

Lemma traverseArray_keeps parent l :
  Forall keeps l → ∀ i s s',
  traverseArray_from (λ r, traverseNode_at transformer_visitor (node r) (path r))
    parent l i s = Done s' →
  ∀ q, (∀ j, i ≤ j → ¬ (path parent ++ [j]) `prefix_of` q) →
  context s' !! q = context s !! q.
Proof.
  induction 1 as [|c l Hc _ IH]; intros i s s' T q Hq; simpl in T.
  - by injection T as <-.
  - apply bind_Done_inv in T as (s1 & T1 & T2).
    rewrite (IH _ _ _ T2) by (intros j Hj; apply Hq; lia).
    eapply Hc; [exact T1 | apply Hq; lia].
Qed.

Lemma traverseNode_keeps n : keeps n.
Proof.
  induction n as [body IH | name params IH | v | v | ty] using Src.node_ind;
    intros p parent s s' T q Hq.
  - rewrite traverse_program in T. eapply (traverseArray_keeps _ body IH); [exact T|].
    intros j _ Hj. apply Hq. by eapply prefix_app_l.
  - rewrite traverse_call in T. apply bind_Done_inv in T as (s1 & E & T).
    rewrite (traverseArray_keeps _ params IH _ _ _ T q)
      by (intros j _ Hj; apply Hq; by eapply prefix_app_l).
    rewrite (CallExpression_enter_context _ _ _ _ _ _ E).
    apply lookup_insert_ne. by intros ->.
  - rewrite traverse_number in T. by rewrite (parent_context_push_context _ _ _ _ T).
  - rewrite traverse_string in T. by rewrite (parent_context_push_context _ _ _ _ T).
  - cbn [traverseNode_at] in T. by destruct (call_enter _ _ _ _).
Qed.

(** [annotated n p lo hi s]: every call in the tree [n], which stands at
    [p], has as [_context] an array allocated between [lo] and [hi], and
    that array reads as the transformed parameters of the call. *)
Definition annotated (n : Src.node) (p : list nat) (lo hi : loc) (s : store) : Prop :=
  ∀ q name ps, subtree n q = Some (Src.CallExpression name ps) →
  ∃ l vals fuel,
    context s !! (p ++ q) = Some l ∧
    window lo hi (arrays s) !! l = Some vals ∧
    mapM (reify fuel (window lo hi (arrays s))) vals =
      Some (List.map transform_expression ps).

Lemma annotated_mono n p lo hi lo' hi' s s' :
  annotated n p lo hi s →
  window lo hi (arrays s) ⊆ window lo' hi' (arrays s') →
  (∀ q, p `prefix_of` q → context s' !! q = context s !! q) →
  annotated n p lo' hi' s'.
Proof.
  intros H Hsub Hctx q name ps Hq.
  destruct (H q name ps Hq) as (l & vals & fuel & Hc & Hl & Hm).
  exists l, vals, fuel. split; [|split].
  - rewrite Hctx; [done | by apply prefix_app_r].
  - by eapply lookup_weaken.
  - by eapply mapM_reify_mono.
Qed.

Definition annotates (n : Src.node) : Prop :=
  Src.expr n = true → ∀ p parent lp a s s',
  List.length p = S (List.length (path parent)) → ready parent lp a s →
  traverseNode_at transformer_visitor n p (Some parent) s = Done s' →
  annotated n p (next s) (next s') s'.

Lemma prefix_snoc_inj (p : list nat) i j q :
  p ++ [i] `prefix_of` q → p ++ [j] `prefix_of` q → i = j.
Proof.
  intros [k1 ->] [k2 H]. rewrite <- !app_assoc in H.
  apply app_inv_head in H. by injection H.
Qed.

Lemma traverseArray_annotates parent l :
  Forall annotates l → forallb Src.expr l = true → ∀ i lp a s s',
  ready parent lp a s →
  traverseArray_from (λ r, traverseNode_at transformer_visitor (node r) (path r))
    parent l i s = Done s' →
  ∀ k c, nth_error l k = Some c →
  annotated c (path parent ++ [i + k]) (next s) (next s') s'.
Proof.
  induction 1 as [|c l Hc _ IH]; intros He i lp a s s' Hr T k c' Hk;
    [by destruct k|].
  simpl in He. apply andb_prop in He as [He1 He2].
  pose proof (ready_lt _ _ _ _ Hr) as Hlt.
  destruct (traverseNode_transforms c He1 (path parent ++ [i]) parent lp a s)
    as (s1 & val & T1 & G1 & _); [rewrite length_app; simpl; lia | done |].
  simpl in T. rewrite T1 in T. cbn [bind] in T.
  assert (Hr1 : ready parent lp (a ++ [val]) s1) by by eapply grows_ready.
  destruct (traverseArray_transforms parent l) with (i := S i) (lp := lp)
    (a := a ++ [val]) (s := s1) as (s2 & vals & T2 & G2 & _);
    [apply Forall_forall; intros; apply traverseNode_transforms | done | done |].
  rewrite T2 in T. injection T as <-.
  destruct G1 as [N1 _ _ _ _]. pose proof G2 as [N2 _ F2 _ _].
  destruct k as [|k]; simpl in Hk.
  - injection Hk as <-. rewrite Nat.add_0_r.
    eapply annotated_mono.
    + eapply (Hc He1); [|exact Hr|exact T1]. rewrite length_app. simpl. lia.
    + apply window_subseteq; [lia | lia |]. intros l' Hl'. symmetry. apply F2; lia.
    + intros q Hq. apply (traverseArray_keeps parent l) with (i := S i) (s := s1);
        [apply Forall_forall; intros; apply traverseNode_keeps | done |].
      intros j Hj Hpre. pose proof (prefix_snoc_inj _ _ _ _ Hq Hpre). lia.
  - rewrite Nat.add_succ_r, <- Nat.add_succ_l.
    eapply annotated_mono; [by eapply (IH He2 (S i)) | | done].
    apply window_subseteq; [lia | lia | done].
Qed.

Lemma traverseNode_annotates n : annotates n.
Proof.
  induction n as [body IH | name params IH | v | v | ty] using Src.node_ind;
    intros He p parent lp a s s' Hp Hr T; try done.
  - destruct (CallExpression_enter_grows name params p parent lp a s Hp Hr)
      as (s1 & E1 & N1 & G1 & R1).
    destruct (traverseArray_transforms
                {| path := p; node := Src.CallExpression name params |} params)
      with (i := 0) (lp := next s) (a := @nil value) (s := s1)
      as (s2 & vals & T2 & G2 & R2);
      [apply Forall_forall; intros; apply traverseNode_transforms | done | done |].
    rewrite traverse_call, E1 in T. cbn [bind] in T. rewrite T2 in T. injection T as <-.
    pose proof G2 as [N2 P2 _ _ _]. intros [|i q] name' ps Hq; simpl in Hq.
    + injection Hq as <- <-. exists (next s), vals, (2 * list_sum (List.map Src.size params) + 1).
      rewrite app_nil_r. split; [|split].
      * rewrite (traverseArray_keeps {| path := p; node := Src.CallExpression name params |} params) with (i := 0) (s := s1) (s' := s2);
          [by destruct R1 | apply Forall_forall; intros; apply traverseNode_keeps | done |].
        intros j _. apply prefix_snoc_not.
      * apply window_lookup; [done | lia].
      * eapply reify_arguments; [exact R2 | done |].
        apply window_subseteq; [lia | lia | done].
    + destruct (nth_error params i) as [c|] eqn:Hi; [|done].
      assert (Hann : annotated c (p ++ [i]) (next s) (next s2) s2).
      { eapply annotated_mono;
          [exact (traverseArray_annotates {| path := p; node := Src.CallExpression name params |} params IH He 0 _ _ s1 s2 R1 T2 i c Hi)
          | apply window_subseteq; [lia | lia | done] | done]. }
      destruct (Hann q name' ps Hq) as (l & vals' & fuel & Hc & Hl & Hm).
      exists l, vals', fuel. by rewrite <- app_assoc in Hc.
  - intros [|i q] name ps Hq; simpl in Hq; [done | by destruct i].
  - intros [|i q] name ps Hq; simpl in Hq; [done | by destruct i].
Qed.

(** ** The new tree can always be read

    Whatever the tree, the arrays the methods build refer to one another
    downwards only, so that the bound of [reify] is never reached:
    [transformer] returns or throws. *)

(** The shapes of the values the methods push; [r] is the array of
    arguments a call refers to. *)
Inductive shaped : value → option loc → Prop :=
| shaped_number v : shaped (VNumberLiteral v) None
| shaped_string v : shaped (VStringLiteral v) None
| shaped_call name r : shaped (VCallExpression (VIdentifier name) r) (Some r)
| shaped_statement name r :
    shaped (VExpressionStatement (VCallExpression (VIdentifier name) r)) (Some r).

(** Every location below [next] holds an array, every value of an array
    refers to a later array, every [_context] to an array. *)
Record wf (s : store) : Prop := {
  wf_alloc : ∀ l, l < next s → is_Some (arrays s !! l);
  wf_values : ∀ l vals v, arrays s !! l = Some vals → v ∈ vals →
    ∃ r, shaped v r ∧ ∀ l', r = Some l' → l < l' < next s;
  wf_context : ∀ p l, context s !! p = Some l → l < next s
}.

(** [s'] comes from the well-formed [s] by at most [k] allocations. *)
Definition extends (k : nat) (s s' : store) : Prop :=
  wf s → wf s' ∧ next s ≤ next s' ≤ next s + k.

Lemma extends_refl s : extends 0 s s.
Proof. intros H. split; [done | lia]. Qed.

Lemma extends_trans j k s s1 s2 : extends j s s1 → extends k s1 s2 → extends (j + k) s s2.
Proof. intros H1 H2 H. destruct (H1 H) as [W1 N1], (H2 W1) as [W2 N2]. split; [done | lia]. Qed.

Lemma extends_le j k s s' : j ≤ k → extends j s s' → extends k s s'.
Proof. intros Hle H W. destruct (H W) as [W' N]. split; [done | lia]. Qed.

Lemma push_wf lp v r s :
  wf s → lp < next s → shaped v r → (∀ l', r = Some l' → lp < l' < next s) →
  wf (push lp v s).
Proof.
  intros [A V C] Hlp Hv Hr. split; simpl.
  - intros l Hl. destruct (decide (l = lp)) as [->|Hne].
    + rewrite lookup_alter_eq. destruct (A lp Hlp) as [a ->]. by eexists.
    + rewrite lookup_alter_ne by done. by apply A.
  - intros l vals v' Hl Hin. destruct (decide (l = lp)) as [->|Hne].
    + rewrite lookup_alter_eq in Hl. destruct (arrays s !! lp) as [a|] eqn:E; [|done].
      injection Hl as <-. apply elem_of_app in Hin as [Hin | Hin%list_elem_of_singleton];
        [by eapply V | subst; eauto].
    + rewrite lookup_alter_ne in Hl by done. by eapply V.
  - done.
Qed.

Lemma alloc_wf s : wf s → wf (alloc s).2.
Proof.
  intros [A V C]. split; simpl.
  - intros l Hl. destruct (decide (l = next s)) as [->|Hne].
    + rewrite lookup_insert_eq. by eexists.
    + rewrite lookup_insert_ne by done. apply A. lia.
  - intros l vals v Hl Hin. destruct (decide (l = next s)) as [->|Hne].
    + rewrite lookup_insert_eq in Hl. injection Hl as <-. by apply elem_of_nil in Hin.
    + rewrite lookup_insert_ne in Hl by done.
      destruct (V l vals v Hl Hin) as (r & Hs & Hr). exists r. split; [done|].
      intros l' Hl'. specialize (Hr l' Hl'). lia.
  - intros p l Hl. apply C in Hl. lia.
Qed.

Lemma set_context_wf p l s : wf s → l < next s → wf (set_context p l s).
Proof.
  intros [A V C] Hl. split; simpl; [done | done |].
  intros q l' Hq. destruct (decide (q = p)) as [->|Hne].
  - rewrite lookup_insert_eq in Hq. by injection Hq as <-.
  - rewrite lookup_insert_ne in Hq by done. by eapply C.
Qed.

Lemma parent_context_push_extends parent v s s' :
  shaped v None → parent_context_push parent v s = Done s' → extends 0 s s'.
Proof.
  intros Hv H W. unfold parent_context_push in H. destruct parent as [r|]; [|done].
  destruct (context s !! path r) as [lp|] eqn:E; [|done]. injection H as <-.
  split; [|simpl; lia]. eapply push_wf; [done | by eapply wf_context | done | done].
Qed.

Lemma CallExpression_enter_extends self parent s s' :
  linked (path self) parent →
  CallExpression_enter self parent s = Done s' → extends 1 s s'.
Proof.
  unfold CallExpression_enter. intros L. destruct (node self) as [|name params| | |];
    try (intros [= <-]; apply (extends_le 0); [lia | apply extends_refl]).
  cbn. destruct parent as [r|]; [|done]. destruct L as [i L].
  unfold parent_context_push. cbn.
  rewrite lookup_insert_ne
    by (intros E; apply (f_equal List.length) in L; rewrite E, length_app in L;
        simpl in L; lia).
  destruct (context s !! path r) as [lp|] eqn:E; [|done].
  intros [= <-] W. split; [|simpl; lia].
  pose proof (wf_context _ W _ _ E) as Hlp.
  eapply push_wf with (r := Some (next s)).
  - apply (set_context_wf _ _ (alloc s).2); [by apply alloc_wf | simpl; lia].
  - simpl. lia.
  - destruct (negb _); constructor.
  - intros l' [= <-]. simpl. lia.
Qed.

Lemma transformer_visitor_enter ty self parent s s' :
  linked (path self) parent →
  call_enter (transformer_visitor ty) self parent s = Done s' → extends 1 s s'.
Proof.
  intros L. unfold transformer_visitor.
  destruct (ty =? "NumberLiteral")%string; [|destruct (ty =? "StringLiteral")%string;
    [|destruct (ty =? "CallExpression")%string]]; cbn [call_enter enter].
  - unfold NumberLiteral_enter. intros H. apply (extends_le 0); [lia|].
    destruct (node self); try (injection H as <-; apply extends_refl).
    eapply parent_context_push_extends; [constructor | done].
  - unfold StringLiteral_enter. intros H. apply (extends_le 0); [lia|].
    destruct (node self); try (injection H as <-; apply extends_refl).
    eapply parent_context_push_extends; [constructor | done].
  - by apply CallExpression_enter_extends.
  - intros [= <-]. apply (extends_le 0); [lia | apply extends_refl].
Qed.

Lemma transformer_visitor_exit ty self parent s s' :
  call_exit (transformer_visitor ty) self parent s = Done s' → extends 0 s s'.
Proof.
  unfold transformer_visitor.
  destruct (ty =? "NumberLiteral")%string; [|destruct (ty =? "StringLiteral")%string;
    [|destruct (ty =? "CallExpression")%string]]; cbn [call_exit exit];
    intros [= <-]; apply extends_refl.
Qed.

Lemma transformer_visitor_terminates ty self parent s :
  terminates (call_enter (transformer_visitor ty) self parent s) ∧
  terminates (call_exit (transformer_visitor ty) self parent s).
Proof.
  unfold transformer_visitor, terminates.
  destruct (ty =? "NumberLiteral")%string; [|destruct (ty =? "StringLiteral")%string;
    [|destruct (ty =? "CallExpression")%string]]; cbn [call_enter call_exit enter exit];
    split; try done;
    unfold NumberLiteral_enter, StringLiteral_enter, CallExpression_enter,
      parent_context_push;
    destruct (node self); try done; cbn; destruct parent as [r|]; try done;
    by destruct (_ !! path r).
Qed.

(** In a well-formed store the values of an array below which at most
    [j] arrays were allocated are read with fuel [2 * j + 1]. *)
Lemma reify_leaf fuel (h : gmap loc (list value)) v :
  shaped v None → is_Some (reify (S fuel) h v).
Proof. intros H. inversion H; by eexists. Qed.

Lemma reify_array s :
  wf s → ∀ j l vals, arrays s !! l = Some vals → next s ≤ S l + j →
  is_Some (mapM (reify (2 * j + 1) (arrays s)) vals).
Proof.
  intros W. induction j as [|j IH]; intros l vals Hl Hle;
    apply mapM_is_Some, Forall_forall; intros v Hin; unfold compose;
    destruct (wf_values _ W l vals v Hl Hin) as ([la|] & Hs & Hla);
    try (rewrite Nat.add_1_r; by apply reify_leaf);
    specialize (Hla la eq_refl); [lia|].
  destruct (wf_alloc _ W la) as [vals' Hla']; [lia|].
  destruct (IH la vals' Hla') as [args Hargs]; [lia|].
  replace (2 * j + 1) with (S (2 * j)) in Hargs by lia.
  replace (2 * S j + 1) with (S (S (S (2 * j)))) by lia.
  inversion Hs; subst.
  - eapply mk_is_Some, reify_mono; [by eapply reify_call | lia | done].
  - rewrite reify_statement. erewrite reify_call by done. by eexists.
Qed.

Lemma wf_initial : wf initial_store.
Proof.
  split; simpl.
  - intros l Hl. replace l with 0 by lia. by eexists.
  - intros l vals v Hl Hin. apply lookup_singleton_Some in Hl as [_ <-].
    by apply elem_of_nil in Hin.
  - intros p l Hl. apply lookup_singleton_Some in Hl as [_ <-]. lia.
Qed.

(** The arrays after the traversal of a program. *)
Lemma traverser_wf body s :
  traverser (Src.Program body) transformer_visitor initial_store = Done s →
  wf s ∧ 1 ≤ next s ≤ Src.size (Src.Program body).
Proof.
  unfold traverser, traverseNode. cbn [node path]. rewrite traverse_program. intros T.
  assert (HF : Forall (steps transformer_visitor extends) body).
  { apply Forall_forall. intros n _.
    apply traverseNode_steps; eauto using extends_refl, extends_trans,
      transformer_visitor_enter, transformer_visitor_exit. }
  destruct (traverseArray_steps transformer_visitor extends extends_refl extends_trans
              _ body HF _ _ _ T wf_initial) as [W N].
  simpl in *. split; [done | lia].
Qed.

(** ** The exceptions of the transformer *)

Lemma parent_context_push_throws parent v s e :
  parent_context_push parent v s = Throw e → transformer_exn e = true.
Proof.
  unfold parent_context_push. destruct parent as [r|]; [|by intros [= <-]].
  destruct (context s !! path r); [done | by intros [= <-]].
Qed.

Lemma transformer_visitor_throws ty self parent s e :
  call_enter (transformer_visitor ty) self parent s = Throw e → transformer_exn e = true.
Proof.
  unfold transformer_visitor, call_enter.
  repeat (destruct (_ =? _)%string; [|]); try done;
    unfold NumberLiteral_enter, StringLiteral_enter, CallExpression_enter;
    destruct (node self); try done; try apply parent_context_push_throws.
  cbn. destruct parent as [r|]; [apply parent_context_push_throws | by intros [= <-]].
Qed.

Lemma transformer_visitor_exit_throws ty self parent (s : store) e :
  call_exit (transformer_visitor ty) self parent s = Throw e → transformer_exn e = true.
Proof.
  unfold transformer_visitor, call_exit. by repeat (destruct (_ =? _)%string; [|]).
Qed.

Lemma traverser_throws ast s e :
  traverser ast transformer_visitor s = Throw e → transformer_exn e = true.
Proof.
  apply (traverseNode_throws transformer_visitor (λ e, transformer_exn e = true));
    eauto using transformer_visitor_throws, transformer_visitor_exit_throws.
  intros [t Ht]. simpl. by rewrite Ht.
Qed.

(** ** The properties of the transformer *)

(** C2: [transformer] computes [transform]: on every program the parser
    can return, the graph of arrays built through the [_context]
    references during the traversal reads as the tree the pure recursive
    function [transform] gives, and [transformer] returns it; no method of
    the visitor throws and the bound on reading the graph is not reached. *)
Theorem transformer_transform ast :
  Src.program ast = true → transformer ast = Done (transform ast).
Proof. destruct ast; try done. apply transformer_program. Qed.

Lemma transformer_transform_witness :
  transformer (Src.Program [Src.CallExpression "add" [Src.NumberLiteral "2";
      Src.CallExpression "subtract" [Src.NumberLiteral "4"; Src.NumberLiteral "2"]]]) =
  Done (transform (Src.Program [Src.CallExpression "add" [Src.NumberLiteral "2";
      Src.CallExpression "subtract" [Src.NumberLiteral "4"; Src.NumberLiteral "2"]]])).
Proof. apply transformer_transform. reflexivity. Defined.

(** C8: The shape of what [transformer] returns: a [Program] whose
    statements are literals or [ExpressionStatement]s of calls, and in
    which every call below another call is a bare [CallExpression] with an
    [Identifier] as callee; no [ExpressionStatement] occurs in argument
    position and no top-level call is left bare. *)
Theorem transformer_shape ast :
  Src.program ast = true →
  ∃ t, transformer ast = Done t ∧ Tgt.program t = true.
Proof.
  intros H. exists (transform ast).
  split; [by destruct ast; try done; apply transformer_program | by apply transform_program].
Qed.

Lemma transformer_shape_witness :
  ∃ t, transformer (Src.Program [Src.CallExpression "a" [Src.CallExpression "b" []];
                                 Src.NumberLiteral "1"]) = Done t ∧
       Tgt.program t = true.
Proof. apply transformer_shape. reflexivity. Defined.

(** C12: Nothing is lost: the tree [transformer] returns determines the
    tree it was given.  Dropping the statement wrappers and reading the
    callees as names gives the source program back. *)
Theorem transformer_lossless ast t :
  Src.program ast = true → transformer ast = Done t → untransform t = ast.
Proof.
  intros Hp H. destruct ast as [body| | | |]; try done.
  rewrite transformer_program in H by done. injection H as <-.
  by apply (untransform_transform (Src.Program body)).
Qed.

Lemma transformer_lossless_witness :
  untransform (Tgt.Program [Tgt.ExpressionStatement
    (Tgt.CallExpression (Tgt.Identifier "add") [Tgt.NumberLiteral "2";
       Tgt.CallExpression (Tgt.Identifier "subtract")
         [Tgt.NumberLiteral "4"; Tgt.NumberLiteral "2"]])]) =
  Src.Program [Src.CallExpression "add" [Src.NumberLiteral "2";
      Src.CallExpression "subtract" [Src.NumberLiteral "4"; Src.NumberLiteral "2"]]].
Proof. apply transformer_lossless; [reflexivity | vm_compute; reflexivity]. Defined.

(** C25: A tree that went through [transformer] before is transformed
    again as if it had not: whatever arrays the store holds, and whatever
    [_context] references earlier calls left on the nodes of the tree,
    [transformer] on a program the parser can return gives what it gives
    on the untouched tree, because every [_context] it reads it has
    written in this call. *)
Theorem transformer_again s0 ast :
  fresh s0 → Src.program ast = true → transformer_from s0 ast = transformer ast.
Proof.
  intros Hf Hp. destruct ast as [body| | | |]; try done.
  by rewrite transformer_from_program, transformer_program.
Qed.

Lemma transformer_again_witness :
  fresh {| arrays := {[ 0 := [VExpressionStatement
                                (VCallExpression (VIdentifier "a") 1)];
                        1 := [VNumberLiteral "1"] ]};
           next := 2;
           context := {[ [] := 0; [0] := 1 ]} |} ∧
  transformer_from
    {| arrays := {[ 0 := [VExpressionStatement
                            (VCallExpression (VIdentifier "a") 1)];
                    1 := [VNumberLiteral "1"] ]};
       next := 2;
       context := {[ [] := 0; [0] := 1 ]} |}
    (Src.Program [Src.CallExpression "a" [Src.NumberLiteral "1"]]) =
  transformer (Src.Program [Src.CallExpression "a" [Src.NumberLiteral "1"]]).
Proof.
  assert (Hf : fresh {| arrays := {[ 0 := [VExpressionStatement
                                             (VCallExpression (VIdentifier "a") 1)];
                                     1 := [VNumberLiteral "1"] ]};
                        next := 2;
                        context := {[ [] := 0; [0] := 1 ]} |}).
  { intros l Hl. simpl in *. rewrite lookup_insert_ne, lookup_singleton_ne by lia. done. }
  split; [exact Hf | by apply transformer_again].
Defined.

(** C13: [transformer] always returns or throws: on every tree, well
    formed or not, the arrays its methods build refer to one another
    downwards only and are no more than the nodes of the tree, so that
    the new tree is read back within the bound. *)
Theorem transformer_total ast : terminates (transformer ast).
Proof.
  unfold transformer, terminates.
  destruct (traverser ast transformer_visitor initial_store) as [s| |] eqn:T; cbn [bind];
    [|done|].
  - destruct ast as [body|name params|v|v|ty];
      try (unfold traverser, traverseNode in T; cbn [node path] in T;
           rewrite ?traverse_call, ?traverse_number, ?traverse_string in T; done).
    + destruct (traverser_wf body s T) as [W N].
      destruct (wf_alloc _ W 0) as [vals H0]; [lia|].
      destruct (reify_array s W (list_sum (List.map Src.size body)) 0 vals H0)
        as [ts Hts]; [simpl in N; lia|].
      replace (2 * Src.size (Src.Program body) + 1)
        with (S (S (2 * list_sum (List.map Src.size body) + 1))) by (simpl; lia).
      erewrite reify_program; [done | exact H0 |].
      eapply mapM_reify_mono; [exact Hts | lia | done].
    + unfold traverser, traverseNode in T. cbn [traverseNode_at] in T.
      apply bind_Done_inv in T as (s1 & _ & T). done.
  - by apply (traverseNode_terminates transformer_visitor) in T;
      [| apply transformer_visitor_terminates | apply transformer_visitor_terminates].
Qed.

(** C10: [transformer] leaves its references on the tree it is given:
    after the traversal the root carries as [_context] the [body] array
    of the new tree, and every call of the old tree carries as [_context]
    an array of the new tree, which reads as the transformed parameters
    of that call: the old tree shares the arrays of the new one. *)
Theorem transformer_leaves_context ast :
  Src.program ast = true →
  ∃ s, traverser ast transformer_visitor initial_store = Done s ∧
       context s !! [] = Some 0 ∧
       ∀ q name ps, subtree ast q = Some (Src.CallExpression name ps) →
       ∃ l vals fuel, context s !! q = Some l ∧ arrays s !! l = Some vals ∧
         mapM (reify fuel (arrays s)) vals = Some (List.map transform_expression ps).
Proof.
  destruct ast as [body| | | |]; try done. intros He.
  destruct (traverser_program body He) as (s & vals & T & TA & [N _ _ _ C] & _).
  exists s. split; [done|]. split; [by rewrite C|].
  intros [|i q] name ps Hq; simpl in Hq; [done|].
  destruct (nth_error body i) as [c|] eqn:Hi; [|done].
  destruct (traverseArray_annotates {| path := []; node := Src.Program body |} body)
    with (i := 0) (lp := 0) (a := @nil value) (s := initial_store) (s' := s) (k := i) (c := c)
    (q := q) (name := name) (ps := ps) as (l & vals' & fuel & Hc & Hl & Hm);
    [apply Forall_forall; intros; apply traverseNode_annotates | done
    | apply ready_initial | done | done | done |].
  exists l, vals', fuel. split; [done|].
  split; [by eapply lookup_weaken, window_subseteq_all|].
  by eapply mapM_reify_mono, window_subseteq_all.
Qed.

Lemma transformer_leaves_context_witness :
  ∃ s, traverser (Src.Program [Src.CallExpression "a" [Src.CallExpression "b" []]])
         transformer_visitor initial_store = Done s ∧
       context s !! [] = Some 0 ∧
       ∀ q name ps,
         subtree (Src.Program [Src.CallExpression "a" [Src.CallExpression "b" []]]) q =
           Some (Src.CallExpression name ps) →
       ∃ l vals fuel, context s !! q = Some l ∧ arrays s !! l = Some vals ∧
         mapM (reify fuel (arrays s)) vals = Some (List.map transform_expression ps).
Proof. apply transformer_leaves_context. reflexivity. Defined.

(** C38: The exceptions of [transformer]: it throws on no tree the parser
    can return, and what it throws on another tree is the engine's
    [TypeError] for a read of [type] or [_context] on [null] or of [push]
    on [undefined], or the [TypeError] of [traverser] that carries a tag
    it has no case for. *)
Theorem transformer_error ast e :
  transformer ast = Throw e → transformer_exn e = true ∧ Src.program ast = false.
Proof.
  intros H. split.
  - unfold transformer in H. apply bind_Throw_inv in H as [H | (s & _ & H)];
      [by apply traverser_throws in H | by destruct (reify _ _ _)].
  - destruct ast as [body| | | |]; try done. destruct (forallb Src.expr body) eqn:He; [|done].
    by rewrite transformer_program in H.
Qed.

Lemma transformer_error_witness :
  transformer_exn (UndefinedRead "push") = true ∧
  Src.program (Src.Program [Src.CallExpression "f"
                              [Src.Program [Src.NumberLiteral "1"]]]) = false.
Proof.
  apply (transformer_error (Src.Program [Src.CallExpression "f"
                                           [Src.Program [Src.NumberLiteral "1"]]])).
  vm_compute. reflexivity.
Defined.

(** C39: A tree whose root is not a [Program] makes [transformer] throw:
    the method for the root reads a property of its parent, which is
    [null]: [type] for a call, [_context] for a literal. *)
Theorem transformer_root_not_program name params v :
  transformer (Src.CallExpression name params) = Throw (UndefinedRead "type") ∧
  transformer (Src.NumberLiteral v) = Throw (UndefinedRead "_context") ∧
  transformer (Src.StringLiteral v) = Throw (UndefinedRead "_context").
Proof. done. Qed.

(** On the tree of the repository's test, [transformer] returns the
    new tree the test expects. *)
Example transformer_fixture :
  transformer (Src.Program [Src.CallExpression "add" [Src.NumberLiteral "2";
      Src.CallExpression "subtract" [Src.NumberLiteral "4"; Src.NumberLiteral "2"]]]) =
  Done (Tgt.Program [Tgt.ExpressionStatement
    (Tgt.CallExpression (Tgt.Identifier "add") [Tgt.NumberLiteral "2";
       Tgt.CallExpression (Tgt.Identifier "subtract")
         [Tgt.NumberLiteral "4"; Tgt.NumberLiteral "2"]])]).
Proof. vm_compute. reflexivity. Qed.

(** ** The transformer as a stage *)

#[export] Instance transformer_stage :
  Stage transformer (λ ast, Done (transform ast))
    (λ ast, Src.program ast = true) (λ t, Tgt.program t = true).
Proof.
  split.
  - intros [body| | | |] Hp; try done. by apply transformer_program.
  - intros ast t Hp [= <-]. by apply transform_program.
Qed.
