(* ===== verification/CodeGenerator.v ===== *)
(** * CodeGenerator: the printer of the target tree

    [codeGenerator] (src/tiny-compiler.js, lines 242-271) is a recursive
    function from a node of the new tree to a string, by a [switch] on the
    tag of the node; an object of any other tag makes it throw a
    [TypeError] carrying the tag.  This file holds the function as the
    source writes it (in the [outcome] monad, the arrays mapped in order so
    that the first exception wins), the pure printer [print] it computes on
    trees without unknown objects, the tag [unknown_tag] it throws with
    on the others, the theorems that relate the three, and the lemmas
    by which the items of a joined array are read back from its text. *)

From Stdlib Require Import String Ascii List Arith Lia Bool.
From S2P Require Import Prelude Ast.
Import ListNotations.
Local Open Scope string_scope.
Local Open Scope js_scope.

(** ** The function of the source *)

(** The line feed of [join('\n')]. *)
Definition newline : string := String "010"%char EmptyString.

(** The double quote of the template of a [StringLiteral]. *)
Definition dquote : string := String "034"%char EmptyString.

(** [array.join(sep)] on an array of strings. *)
Definition join (sep : string) (array : list string) : string :=
  String.concat sep array.

Fixpoint codeGenerator (node : Tgt.node) : outcome string :=
  match node with
  | Tgt.Program body =>
      lines <- omapM codeGenerator body ;;
      Done (join newline lines)
  | Tgt.ExpressionStatement expression =>
      code <- codeGenerator expression ;;
      Done (code ++ ";")
  | Tgt.CallExpression callee arguments =>
      f <- codeGenerator callee ;;
      args <- omapM codeGenerator arguments ;;
      Done (f ++ "(" ++ join ", " args ++ ")")
  | Tgt.Identifier name => Done name
  | Tgt.NumberLiteral value => Done value
  | Tgt.StringLiteral value => Done (dquote ++ value ++ dquote)
  | Tgt.Other type => Throw (TypeError (proj1_sig type))
  end.

(** ** The pure printer *)

(** What [codeGenerator] returns when it returns; the text of an unknown
    object, which it never prints, is empty. *)
Fixpoint print (node : Tgt.node) : string :=
  match node with
  | Tgt.Program body => join newline (List.map print body)
  | Tgt.ExpressionStatement expression => print expression ++ ";"
  | Tgt.CallExpression callee arguments =>
      print callee ++ "(" ++ join ", " (List.map print arguments) ++ ")"
  | Tgt.Identifier name => name
  | Tgt.NumberLiteral value => value
  | Tgt.StringLiteral value => dquote ++ value ++ dquote
  | Tgt.Other _ => ""
  end.

(** The tag of the first unknown object in the order [codeGenerator]
    visits the tree: the callee before the arguments, the elements of an
    array from left to right. *)
Fixpoint unknown_tag_among (first : Tgt.node -> option string) (l : list Tgt.node)
  : option string :=
  match l with
  | [] => None
  | child :: l' =>
      match first child with
      | Some t => Some t
      | None => unknown_tag_among first l'
      end
  end.

Fixpoint unknown_tag (n : Tgt.node) : option string :=
  match n with
  | Tgt.Program body => unknown_tag_among unknown_tag body
  | Tgt.ExpressionStatement e => unknown_tag e
  | Tgt.CallExpression callee arguments =>
      match unknown_tag callee with
      | Some t => Some t
      | None => unknown_tag_among unknown_tag arguments
      end
  | Tgt.Identifier _ | Tgt.NumberLiteral _ | Tgt.StringLiteral _ => None
  | Tgt.Other t => Some (proj1_sig t)
  end.

(** What [codeGenerator] does, in one expression. *)
Definition generated (n : Tgt.node) : outcome string :=
  match unknown_tag n with
  | None => Done (print n)
  | Some t => Throw (TypeError t)
  end.

(** ** The function against the printer *)

Lemma omapM_generated l :
  Forall (fun n => codeGenerator n = generated n) l ->
  omapM codeGenerator l =
    match unknown_tag_among unknown_tag l with
    | None => Done (List.map print l)
    | Some t => Throw (TypeError t)
    end.
Proof.
  induction 1 as [|n l Hn _ IH]; [reflexivity|].
  cbn [omapM unknown_tag_among List.map]. fold (omapM codeGenerator l).
  rewrite Hn, IH. unfold generated.
  destruct (unknown_tag n); [reflexivity|].
  now destruct (unknown_tag_among unknown_tag l).
Qed.

Lemma codeGenerator_generated n : codeGenerator n = generated n.
Proof.
  induction n as [body IH | e IH | callee arguments IHc IHa | | | |]
    using Tgt.node_ind; try reflexivity.
  - cbn [codeGenerator]. rewrite (omapM_generated _ IH). unfold generated.
    cbn [unknown_tag print]. now destruct (unknown_tag_among unknown_tag body).
  - cbn [codeGenerator]. rewrite IH. unfold generated. cbn [unknown_tag print].
    now destruct (unknown_tag e).
  - cbn [codeGenerator]. rewrite IHc, (omapM_generated _ IHa). unfold generated.
    cbn [unknown_tag print]. destruct (unknown_tag callee); [reflexivity|].
    now destruct (unknown_tag_among unknown_tag arguments).
Qed.

Lemma known_first_unknown_among l :
  Forall (fun n => Tgt.known n = true <-> unknown_tag n = None) l ->
  forallb Tgt.known l = true <-> unknown_tag_among unknown_tag l = None.
Proof.
  induction 1 as [|c l Hc _ IH]; simpl; [easy|].
  rewrite andb_true_iff, Hc, IH. destruct (unknown_tag c); intuition congruence.
Qed.

Lemma known_unknown_tag n : Tgt.known n = true <-> unknown_tag n = None.
Proof.
  induction n as [body IH | e IH | callee arguments IHc IHa | | | |]
    using Tgt.node_ind; simpl; try easy.
  - now apply known_first_unknown_among.
  - rewrite andb_true_iff, IHc, (known_first_unknown_among _ IHa).
    destruct (unknown_tag callee); intuition congruence.
Qed.

Lemma generated_known n : Tgt.known n = true -> generated n = Done (print n).
Proof. intros K. unfold generated. apply known_unknown_tag in K. now rewrite K. Qed.

(** ** Reading a joined array back

    [after sep l r] is what follows the first item of a joined array
    that [r] follows.  When an item can be told from what follows it,
    and the end of the array from a separator and from an item, the
    joined text determines the items. *)

Fixpoint after (sep : string) (l : list string) (r : string) : string :=
  match l with
  | [] => r
  | x :: l' => sep ++ x ++ after sep l' r
  end.

Lemma join_after sep x l r : join sep (x :: l) ++ r = x ++ after sep l r.
Proof.
  revert x. induction l as [|y l IH]; intros x; [reflexivity|].
  change (join sep (x :: y :: l)) with (x ++ sep ++ join sep (y :: l)).
  now rewrite !append_assoc, IH.
Qed.

Section Items.
Context {A : Type} (f : A -> string) (ok : A -> bool) (sep : string).

(** [good]: what may follow an item; [final]: what may follow the array. *)
Variables good final : string -> bool.
Hypothesis good_sep : forall x, good (sep ++ x) = true.
Hypothesis good_final : forall r, final r = true -> good r = true.
Hypothesis final_not_sep : forall r x, final r = true -> r <> sep ++ x.
Hypothesis final_not_item : forall r a x, final r = true -> ok a = true -> r <> f a ++ x.

Definition item_determined (a1 : A) : Prop :=
  ok a1 = true -> forall a2 r1 r2, ok a2 = true -> good r1 = true -> good r2 = true ->
  f a1 ++ r1 = f a2 ++ r2 -> a1 = a2 /\ r1 = r2.

Lemma good_after l r : final r = true -> good (after sep (map f l) r) = true.
Proof. destruct l; simpl; auto. Qed.

Lemma after_determined l1 :
  Forall item_determined l1 -> forallb ok l1 = true ->
  forall l2 r1 r2, forallb ok l2 = true -> final r1 = true -> final r2 = true ->
  after sep (map f l1) r1 = after sep (map f l2) r2 -> l1 = l2 /\ r1 = r2.
Proof.
  induction 1 as [|a1 l1 Ha _ IH]; intros Hok1 [|a2 l2] r1 r2 Hok2 F1 F2 E; simpl in *.
  - auto.
  - now apply final_not_sep in E.
  - symmetry in E. now apply final_not_sep in E.
  - apply andb_prop in Hok1 as [O1 Hok1]. apply andb_prop in Hok2 as [O2 Hok2].
    apply append_inv_l, Ha in E as [-> E]; auto using good_after.
    apply IH in E as [-> ->]; auto.
Qed.

Lemma join_determined l1 :
  Forall item_determined l1 -> forallb ok l1 = true ->
  forall l2 r1 r2, forallb ok l2 = true -> final r1 = true -> final r2 = true ->
  join sep (map f l1) ++ r1 = join sep (map f l2) ++ r2 -> l1 = l2 /\ r1 = r2.
Proof.
  intros [|a1 l1' Ha HF] Hok1 [|a2 l2] r1 r2 Hok2 F1 F2 E;
    cbn [map] in E; rewrite ?join_after in E; simpl in *.
  - auto.
  - apply andb_prop in Hok2 as [O2 _]. now apply final_not_item in E.
  - apply andb_prop in Hok1 as [O1 _]. symmetry in E. now apply final_not_item in E.
  - apply andb_prop in Hok1 as [O1 Hok1]. apply andb_prop in Hok2 as [O2 Hok2].
    apply Ha in E as [-> E]; auto using good_after.
    apply after_determined in E as [-> ->]; auto.
Qed.
End Items.

(** ** The properties of the code generator *)

(** C7: [codeGenerator] computes the printer [print] on every tree that
    holds no object of an unknown tag: it returns, and the string is the
    one [print] defines by recursion on the tree. *)
Theorem codeGenerator_print n :
  Tgt.known n = true -> codeGenerator n = Done (print n).
Proof. intros K. rewrite codeGenerator_generated. now apply generated_known. Qed.

Lemma codeGenerator_print_witness :
  codeGenerator (Tgt.Program [Tgt.ExpressionStatement
      (Tgt.CallExpression (Tgt.Identifier "f") [Tgt.StringLiteral "a"]);
      Tgt.NumberLiteral "1"]) =
  Done (print (Tgt.Program [Tgt.ExpressionStatement
      (Tgt.CallExpression (Tgt.Identifier "f") [Tgt.StringLiteral "a"]);
      Tgt.NumberLiteral "1"])).
Proof. apply codeGenerator_print. reflexivity. Defined.

(** C37: On a tree that holds an object of an unknown tag,
    [codeGenerator] throws a [TypeError] whose message is the tag of the
    first such object in the order of the recursion (callee before
    arguments, arrays from left to right); nothing is returned for the
    parts already printed. *)
Theorem codeGenerator_unknown n t :
  unknown_tag n = Some t -> codeGenerator n = Throw (TypeError t).
Proof. intros U. rewrite codeGenerator_generated. unfold generated. now rewrite U. Qed.

Lemma codeGenerator_unknown_witness :
  codeGenerator (Tgt.Program [Tgt.NumberLiteral "1";
      Tgt.CallExpression (Tgt.Other (Tgt.tag "Lambda" eq_refl))
        [Tgt.Other (Tgt.tag "Spread" eq_refl)]]) =
  Throw (TypeError "Lambda").
Proof. apply codeGenerator_unknown. reflexivity. Defined.

(** On the new tree of the repository's test, [codeGenerator] returns
    the text the test expects. *)
Example codeGenerator_fixture :
  codeGenerator (Tgt.Program [Tgt.ExpressionStatement
    (Tgt.CallExpression (Tgt.Identifier "add") [Tgt.NumberLiteral "2";
       Tgt.CallExpression (Tgt.Identifier "subtract")
         [Tgt.NumberLiteral "4"; Tgt.NumberLiteral "2"]])]) =
  Done "add(2, subtract(4, 2));".
Proof. reflexivity. Qed.

(** ** The code generator as a stage *)

#[export] Instance codeGenerator_stage :
  Stage codeGenerator (fun n => Done (print n))
    (fun n => Tgt.known n = true) (fun _ => True).
Proof.
  split; [|easy]. intros n K. rewrite codeGenerator_generated. now apply generated_known.
Qed.
