(* ===== verification/Compiler.v ===== *)
(** * Compiler: the pipeline

    [compiler] (src/tiny-compiler.js, lines 273-280) calls the four stages
    in order; an exception of a stage ends the call.  This file holds the
    composition, a reference compiler [compile] made of the reference
    functions of the stages ([lex], the parser on the remaining tokens and
    the direct printer [emit] of a source tree), the theorem that the two
    agree on every input, and what follows from it: which exceptions
    [compiler] throws, when it does not return, what it does on the
    inputs the specification lists, that it compiles the text [show]
    of every well-formed program to the expected output, and that this
    output determines the program.  The agreement is proved against the
    interface [Stage] of the four stages. *)

From Stdlib Require Import String Ascii List Arith Lia Bool.
From S2P Require Import Prelude Ast Tokenizer Parser Transformer CodeGenerator.
Import ListNotations.
Local Open Scope string_scope.
Local Open Scope js_scope.

(** ** The function of the source *)

(** The loops of [tokenizer] and the recursion of [parser] run with the
    fuel that [tokenizer_fuel] and [parser_fuel] give, which is enough
    whenever they stop at all. *)
Definition compiler (input : string) : outcome string :=
  tokens <- tokenizer (tokenizer_fuel input) input ;;
  ast <- parser (parser_fuel tokens) tokens ;;
  newAst <- transformer ast ;;
  output <- codeGenerator newAst ;;
  Done output.

(** ** The reference compiler *)

(** The text of an expression of the source tree. *)
Fixpoint emit (n : Src.node) : string :=
  match n with
  | Src.NumberLiteral value => value
  | Src.StringLiteral value => dquote ++ value ++ dquote
  | Src.CallExpression name params =>
      name ++ "(" ++ join ", " (List.map emit params) ++ ")"
  | Src.Program _ | Src.Other _ => ""
  end.

(** The text of a top-level expression: a call ends in a semicolon. *)
Definition emit_statement (n : Src.node) : string :=
  match n with
  | Src.CallExpression _ _ => emit n ++ ";"
  | _ => emit n
  end.

Definition emit_program (ast : Src.node) : string :=
  match ast with
  | Src.Program body => join newline (List.map emit_statement body)
  | _ => ""
  end.

Definition compile (input : string) : outcome string :=
  tokens <- lex input ;;
  ast <- body_on (parser_fuel tokens) [] tokens ;;
  Done (emit_program ast).

(** ** The concrete syntax of a source tree *)

(** A tree the tokenizer can produce the tokens of: names are letters,
    numbers are digits, strings hold no quote. *)
Fixpoint lexical (n : Src.node) : bool :=
  match n with
  | Src.NumberLiteral value => negb (is_empty value) && sforall NUMBERS value
  | Src.StringLiteral value => sforall not_quote value
  | Src.CallExpression name params =>
      negb (is_empty name) && sforall LETTERS name && forallb lexical params
  | Src.Program _ | Src.Other _ => false
  end.

(** The text of a tree: its tokens, each followed by a space. *)
Definition show (ast : Src.node) : string := unlex (flatten ast).

(** ** The back end prints the source tree *)

Lemma map_ext_forallb {A B : Type} (f g : A -> B) (p : A -> bool) l :
  Forall (fun x => p x = true -> f x = g x) l -> forallb p l = true ->
  List.map f l = List.map g l.
Proof.
  induction 1 as [|x l Hx _ IH]; simpl; [reflexivity|].
  intros H. apply andb_prop in H as [H1 H2]. now rewrite Hx, IH.
Qed.

Lemma print_transform_expression n :
  Src.expr n = true -> print (transform_expression n) = emit n.
Proof.
  induction n as [body IH | name params IH | v | v | ty] using Src.node_ind;
    simpl; try easy.
  intros He. rewrite map_map. now rewrite (map_ext_forallb _ emit Src.expr params).
Qed.

Lemma print_transform_statement n :
  Src.expr n = true -> print (transform_statement n) = emit_statement n.
Proof.
  destruct n; try easy. intros He. cbn [transform_statement print emit_statement].
  now rewrite print_transform_expression.
Qed.

Lemma print_transform ast :
  Src.program ast = true -> print (transform ast) = emit_program ast.
Proof.
  destruct ast as [body| | | |]; try easy. simpl. intros He. rewrite map_map.
  rewrite (map_ext_forallb _ emit_statement Src.expr body); [reflexivity | | exact He].
  apply Forall_forall. intros n _. apply print_transform_statement.
Qed.

(** ** From a tree to its text and back *)

Lemma lexical_among l :
  Forall (fun n => lexical n = true ->
            Src.expr n = true /\ Forall (fun t => token_ok t = true) (flatten n)) l ->
  forallb lexical l = true ->
  forallb Src.expr l = true /\ Forall (fun t => token_ok t = true) (flat_map flatten l).
Proof.
  induction 1 as [|n l Hn _ IH]; simpl; [auto|].
  intros H. apply andb_prop in H as [H1 H2].
  destruct (Hn H1) as [-> Hok], (IH H2) as [-> Hoks]. split; [reflexivity|].
  apply Forall_app. auto.
Qed.

Lemma lexical_flatten n :
  lexical n = true ->
  Src.expr n = true /\ Forall (fun t => token_ok t = true) (flatten n).
Proof.
  induction n as [body IH | name params IH | v | v | ty] using Src.node_ind;
    cbn [lexical flatten Src.expr]; try discriminate; intros H.
  - apply andb_prop in H as [Hname Hps].
    destruct (lexical_among params IH Hps) as [He Hok]. split; [exact He|].
    repeat constructor; [exact Hname|]. apply Forall_app. split; [exact Hok|].
    now repeat constructor.
  - split; [reflexivity|]. now repeat constructor.
  - split; [reflexivity|]. now repeat constructor.
Qed.

Lemma lexical_program body :
  forallb lexical body = true ->
  forallb Src.expr body = true /\
  Forall (fun t => token_ok t = true) (flatten (Src.Program body)).
Proof.
  apply lexical_among. apply Forall_forall. intros n _. apply lexical_flatten.
Qed.

(** What [compile] gives once the tokens of the input are known. *)
Lemma compile_tokens input tokens r :
  lex input = Done tokens ->
  (exists f0, forall fuel, f0 <= fuel -> body_on fuel [] tokens = r) ->
  compile input = (ast <- r ;; Done (emit_program ast)).
Proof.
  intros L (f0 & H). unfold compile. rewrite L. cbn [bind]. rewrite <- parser_body_on.
  rewrite (parser_at_bound tokens r); [reflexivity | | lia].
  exists f0. intros fuel Hf. rewrite parser_body_on. now apply H.
Qed.

Lemma compile_flatten input body :
  lex input = Done (flatten (Src.Program body)) -> forallb Src.expr body = true ->
  compile input = Done (emit_program (Src.Program body)).
Proof.
  intros L He. rewrite (compile_tokens _ _ (Done (Src.Program body)) L); [reflexivity|].
  destruct (body_on_flatten body He) as (f0 & Hf0). exists f0. intros fuel Hf. now apply Hf0.
Qed.

Lemma compile_show body :
  forallb lexical body = true ->
  compile (show (Src.Program body)) = Done (emit_program (Src.Program body)).
Proof.
  intros H. destruct (lexical_program body H) as [He Hok].
  apply compile_flatten; [|exact He]. now apply lex_unlex.
Qed.

(** The tokens of a call whose name is followed by [d] instead of a
    space, between two programs. *)
Lemma lex_call_after_name pre name d params post :
  forallb lexical (pre ++ Src.CallExpression name params :: post) = true ->
  LETTERS d = false ->
  lex (show (Src.Program pre) ++ "( " ++ name ++
       String d (unlex (flat_map flatten params ++ [mk "paren" ")"]) ++
                 show (Src.Program post))) =
  Done (flatten (Src.Program (pre ++ Src.CallExpression name params :: post))).
Proof.
  intros H Hd. destruct (lexical_program _ H) as [_ Hok].
  cbn [flatten] in *. rewrite flat_map_app in *. cbn [flat_map flatten] in *.
  apply Forall_app in Hok as [Hpre Hok].
  rewrite <- app_comm_cons in Hok. inversion Hok as [|? ? _ Hok1]; subst.
  inversion Hok1 as [|? ? Hname Hrest]; subst.
  unfold show. cbn [flatten]. rewrite lex_unlex_app by exact Hpre.
  rewrite !append_String, append_empty, lex_paren, lex_space by reflexivity.
  rewrite lex_name_then by assumption.
  rewrite <- unlex_app, lex_unlex by exact Hrest. reflexivity.
Qed.

(** ** The output determines the program

    The text of an expression starts with a digit, a quote or a letter
    according to its kind, and ends where a digit cannot follow; so two
    expressions are told apart by their texts. *)

Definition starts (n : Src.node) (c : ascii) : bool :=
  match n with
  | Src.NumberLiteral _ => NUMBERS c
  | Src.StringLiteral _ => (c =? quote)%char
  | Src.CallExpression _ _ => LETTERS c
  | _ => false
  end.

(** What follows the arguments of a call. *)
Definition closes (r : string) : bool :=
  match r with
  | String c _ => (c =? ")")%char
  | EmptyString => false
  end.

Lemma emit_string v r :
  emit (Src.StringLiteral v) ++ r = String quote (v ++ String quote r).
Proof. cbn [emit]. unfold dquote. now rewrite !append_assoc. Qed.

Lemma emit_call name params r :
  emit (Src.CallExpression name params) ++ r =
    name ++ String "(" (join ", " (List.map emit params) ++ String ")" r).
Proof. cbn [emit]. now rewrite !append_assoc. Qed.

Lemma emit_starts e r :
  lexical e = true -> exists c s, emit e ++ r = String c s /\ starts e c = true.
Proof.
  destruct e as [|name params|v|v|]; try discriminate; cbn [lexical]; intros H.
  - apply andb_prop in H as [H _]. apply nonempty_sforall in H as (c & n & -> & Hc & _).
    rewrite emit_call. now exists c, (n ++ String "(" (join ", " (List.map emit params) ++ String ")" r)).
  - apply nonempty_sforall in H as (c & n & -> & Hc & _). now exists c, (n ++ r).
  - rewrite emit_string. now eexists _, _.
Qed.

Lemma starts_type e1 e2 c :
  starts e1 c = true -> starts e2 c = true -> Src.type e1 = Src.type e2.
Proof.
  destruct (classes_disjoint c) as (_ & _ & N & Q).
  destruct e1, e2; simpl; try easy; intros H1 H2; rewrite H1, H2 in *;
    simpl in *; rewrite ?orb_true_r in *; discriminate.
Qed.

Lemma emit_type e1 e2 r1 r2 :
  lexical e1 = true -> lexical e2 = true -> emit e1 ++ r1 = emit e2 ++ r2 ->
  Src.type e1 = Src.type e2.
Proof.
  intros L1 L2 E.
  destruct (emit_starts e1 r1 L1) as (c1 & s1 & E1 & S1).
  destruct (emit_starts e2 r2 L2) as (c2 & s2 & E2 & S2).
  rewrite E1, E2 in E. injection E as -> _. now apply (starts_type _ _ c2).
Qed.

Lemma closes_not_expression r a x :
  closes r = true -> lexical a = true -> r <> emit a ++ x.
Proof.
  intros Hr La ->. destruct (emit_starts a x La) as (c & s & E & S).
  rewrite E in Hr. simpl in Hr. apply Ascii.eqb_eq in Hr as ->.
  now destruct a.
Qed.

Lemma closes_stops r : closes r = true -> stops NUMBERS r = true.
Proof.
  destruct r as [|c r]; [easy|]. simpl. intros H. now apply Ascii.eqb_eq in H as ->.
Qed.

Lemma closes_not_separator r x : closes r = true -> r <> ", " ++ x.
Proof. intros H ->. rewrite append_String in H. discriminate H. Qed.

Lemma emit_determined e1 : item_determined emit lexical (stops NUMBERS) e1.
Proof.
  induction e1 as [body IH | name params IH | v | v | ty] using Src.node_ind;
    intros L1 e2 r1 r2 L2 G1 G2 E; try discriminate;
    pose proof (emit_type _ _ _ _ L1 L2 E) as T;
    destruct e2 as [|name2 params2|v2|v2|]; try discriminate; cbn [lexical] in *.
  - apply andb_prop in L1 as [N1 P1]. apply andb_prop in L2 as [N2 P2].
    apply andb_prop in N1 as [_ N1]. apply andb_prop in N2 as [_ N2].
    rewrite !emit_call in E.
    apply (span_unique LETTERS) in E as [-> [= E]]; try easy.
    apply (join_determined emit lexical ", " (stops NUMBERS) closes) in E as [-> [= ->]];
      auto using closes_not_expression, closes_stops, closes_not_separator.
  - apply andb_prop in L1 as [_ N1]. apply andb_prop in L2 as [_ N2].
    cbn [emit] in E. apply (span_unique NUMBERS) in E as [-> ->]; auto.
  - rewrite !emit_string in E. injection E as E.
    apply (span_unique not_quote) in E as [-> [= ->]]; auto.
Qed.

Lemma emit_statement_starts e r :
  lexical e = true -> exists c s, emit_statement e ++ r = String c s /\ starts e c = true.
Proof.
  intros L. destruct e; try discriminate; unfold emit_statement;
    rewrite ?append_assoc; now apply emit_starts.
Qed.

(** The same for a statement, which a line feed or nothing follows. *)
Lemma emit_statement_determined e1 :
  item_determined emit_statement lexical (stops NUMBERS) e1.
Proof.
  intros L1 e2 r1 r2 L2 G1 G2 E.
  assert (T : Src.type e1 = Src.type e2).
  { destruct e1, e2; try discriminate; unfold emit_statement in E;
      rewrite ?append_assoc in E; now apply emit_type in E. }
  destruct e1, e2; try discriminate; unfold emit_statement in E;
    rewrite ?append_assoc in E; apply emit_determined in E as [-> E]; auto.
  now apply append_inv_l in E.
Qed.

Lemma emit_program_determined body1 body2 :
  forallb lexical body1 = true -> forallb lexical body2 = true ->
  emit_program (Src.Program body1) = emit_program (Src.Program body2) ->
  body1 = body2.
Proof.
  intros L1 L2 E. cbn [emit_program] in E.
  apply (f_equal (fun s => s ++ "")) in E.
  apply (join_determined emit_statement lexical newline (stops NUMBERS) is_empty)
    in E as [-> _]; auto.
  - now intros [|c r].
  - now intros [|c r] x.
  - intros [|c r] a x H La E'; [|discriminate].
    destruct (emit_statement_starts a x La) as (c & s & E2 & _). now rewrite E2 in E'.
  - apply Forall_forall. intros e _. apply emit_statement_determined.
Qed.

(** ** The pipeline against the interface of its stages *)

(** Four stages compose into one when what each establishes is what the
    next one needs. *)
Section Pipeline.
Context {A B C D E : Type}.
Context {f1 g1 : A -> outcome B} {f2 g2 : B -> outcome C}.
Context {f3 g3 : C -> outcome D} {f4 g4 : D -> outcome E}.
Context {pre1 : A -> Prop} {post1 pre2 : B -> Prop} {post2 pre3 : C -> Prop}.
Context {post3 pre4 : D -> Prop} {post4 : E -> Prop}.
Context (S1 : Stage f1 g1 pre1 post1) (S2 : Stage f2 g2 pre2 post2).
Context (S3 : Stage f3 g3 pre3 post3) (S4 : Stage f4 g4 pre4 post4).
Hypothesis H12 : forall b, post1 b -> pre2 b.
Hypothesis H23 : forall c, post2 c -> pre3 c.
Hypothesis H34 : forall d, post3 d -> pre4 d.

Lemma pipeline_stage :
  Stage (andthen f1 (andthen f2 (andthen f3 f4)))
        (andthen g1 (andthen g2 (andthen g3 g4))) pre1 post4.
Proof.
  eapply stage_andthen; [exact S1 | | exact H12].
  eapply stage_andthen; [exact S2 | | exact H23].
  exact (stage_andthen S3 S4 H34).
Qed.

End Pipeline.

(** The four stages of the program form a pipeline. *)
Lemma compiler_stage :
  Stage (andthen (fun input => tokenizer (tokenizer_fuel input) input)
          (andthen (fun tokens => parser (parser_fuel tokens) tokens)
            (andthen transformer codeGenerator)))
        (andthen lex
          (andthen (fun tokens => body_on (parser_fuel tokens) [] tokens)
            (andthen (fun ast => Done (transform ast)) (fun n => Done (print n)))))
        (fun _ => True) (fun _ => True).
Proof.
  apply (pipeline_stage tokenizer_stage parser_stage transformer_stage codeGenerator_stage);
    auto with js.
Qed.

Lemma compiler_eq_compile input : compiler input = compile input.
Proof.
  transitivity (andthen (fun input => tokenizer (tokenizer_fuel input) input)
          (andthen (fun tokens => parser (parser_fuel tokens) tokens)
            (andthen transformer codeGenerator)) input).
  { unfold compiler, andthen. repeat (apply bind_ext; intros). now rewrite bind_Done_r. }
  rewrite (stage_refines (Stage := compiler_stage)) by exact I.
  unfold compile, andthen. apply bind_ext. intros tokens _.
  apply bind_ext. intros ast P. cbn [bind].
  rewrite print_transform; [reflexivity|]. now apply (stage_post (Stage := parser_stage)) in P.
Qed.

Lemma compile_Done input output :
  compile input = Done output ->
  exists tokens body,
    lex input = Done tokens /\ forallb Src.expr body = true /\
    reads tokens (flat_map flatten body) /\
    output = emit_program (Src.Program body).
Proof.
  unfold compile. intros H.
  apply bind_Done_inv in H as (tokens & L & H).
  apply bind_Done_inv in H as (ast & P & H). injection H as <-.
  apply body_on_sound in P as (body & -> & Hv & He). now exists tokens, body.
Qed.

Lemma compile_Throw input e :
  compile input = Throw e ->
  lex input = Throw e \/
  exists tokens, lex input = Done tokens /\ parse_error tokens e.
Proof.
  unfold compile. intros H. apply bind_Throw_inv in H as [H | (tokens & L & H)]; [now left|].
  right. exists tokens. split; [exact L|].
  apply bind_Throw_inv in H as [H | (ast & _ & H)]; [|discriminate].
  now apply body_on_error in H.
Qed.

Lemma compile_OutOfFuel input : compile input = OutOfFuel <-> lex input = OutOfFuel.
Proof.
  unfold compile. destruct (lex input) as [tokens| |]; cbn [bind]; try easy.
  pose proof (body_on_total (parser_fuel tokens) [] tokens (Nat.le_refl _)) as T.
  now destruct (body_on (parser_fuel tokens) [] tokens).
Qed.

(** ** The properties of the pipeline *)

(** C1: [compiler] computes the reference compiler: on every input, the
    four stages with their cursors, fuel and store give what [lex], the
    parser on the remaining tokens and the direct printer [emit_program]
    of the source tree give; in particular the transformer and the code
    generator never throw inside the pipeline. *)
Theorem compiler_refines_compile input : compiler input = compile input.
Proof. apply compiler_eq_compile. Qed.

(** C19: What [compiler] returns is the text of a program whose
    expressions, printed back to tokens, carry the values of the tokens
    of the input in the same order: every call of the output is a
    parenthesised group of the input and every literal a token of it. *)
Theorem compiler_sound input output :
  compiler input = Done output ->
  exists tokens body,
    lex input = Done tokens /\ forallb Src.expr body = true /\
    reads tokens (flat_map flatten body) /\
    output = emit_program (Src.Program body).
Proof. rewrite compiler_eq_compile. apply compile_Done. Qed.

Lemma compiler_sound_witness :
  exists tokens body,
    lex "(add 2 (subtract 4 2))" = Done tokens /\ forallb Src.expr body = true /\
    reads tokens (flat_map flatten body) /\
    "add(2, subtract(4, 2));" = emit_program (Src.Program body).
Proof. apply compiler_sound. reflexivity. Defined.

(** C21: The exceptions of [compiler] are those of its first two stages:
    the [TypeError] of the tokenizer naming a character of the input that
    is in no class, or one of the three exceptions of the parser on the
    tokens of the input. *)
Theorem compiler_error input e :
  compiler input = Throw e ->
  (exists c, e = TypeError ("I do not know what this character is: " ++ String c "") /\
             unknown c = true /\ occurs c input = true) \/
  (exists tokens, lex input = Done tokens /\ parse_error tokens e).
Proof.
  rewrite compiler_eq_compile. intros H.
  apply compile_Throw in H as [H | H]; [left; now apply lex_error | now right].
Qed.

Lemma compiler_error_witness :
  (exists c, UndefinedRead "type" =
               TypeError ("I do not know what this character is: " ++ String c "") /\
             unknown c = true /\ occurs c "(add 1 2" = true) \/
  (exists tokens, lex "(add 1 2" = Done tokens /\ parse_error tokens (UndefinedRead "type")).
Proof. apply compiler_error. reflexivity. Defined.

(** C5: The compiler is correct on the text of every program: for a
    list of expressions whose names are letters, numbers digits and
    strings free of quotes, written as its tokens each followed by a
    space, [compiler] returns the text of the calls in the target syntax,
    one statement per line. *)
Theorem compiler_show body :
  forallb lexical body = true ->
  compiler (show (Src.Program body)) = Done (emit_program (Src.Program body)).
Proof. intros H. rewrite compiler_eq_compile. now apply compile_show. Qed.

Lemma compiler_show_witness :
  compiler (show (Src.Program [Src.CallExpression "add" [Src.NumberLiteral "2";
      Src.CallExpression "subtract" [Src.NumberLiteral "4"; Src.NumberLiteral "2"]];
      Src.StringLiteral "done"])) =
  Done (emit_program (Src.Program [Src.CallExpression "add" [Src.NumberLiteral "2";
      Src.CallExpression "subtract" [Src.NumberLiteral "4"; Src.NumberLiteral "2"]];
      Src.StringLiteral "done"])).
Proof. apply compiler_show. reflexivity. Defined.

(** C20: The output determines the program: two well-formed programs
    that [compiler] turns into the same text are the same program.  The
    parentheses, the separators and the final semicolon that
    [codeGenerator] writes are enough to read every call, argument and
    statement back; nothing of the source tree is lost in the pipeline. *)
Theorem compiler_injective body1 body2 :
  forallb lexical body1 = true -> forallb lexical body2 = true ->
  compiler (show (Src.Program body1)) = compiler (show (Src.Program body2)) ->
  body1 = body2.
Proof.
  intros L1 L2 E. rewrite !compiler_eq_compile, !compile_show in E by assumption.
  injection E as E. now apply emit_program_determined.
Qed.

Lemma compiler_injective_witness :
  forallb lexical [Src.NumberLiteral "12"] = true /\
  forallb lexical [Src.NumberLiteral "1"; Src.NumberLiteral "2"] = true /\
  compiler (show (Src.Program [Src.NumberLiteral "12"])) <>
  compiler (show (Src.Program [Src.NumberLiteral "1"; Src.NumberLiteral "2"])).
Proof.
  split; [reflexivity|]. split; [reflexivity|]. intros E.
  apply compiler_injective in E; [discriminate E | reflexivity | reflexivity].
Defined.

(** C23: A call written without a space between its name and its closing
    parenthesis is not compiled: after the text of any well-formed
    program, an opening parenthesis, a name and a closing parenthesis at
    the end of the input make [compiler] throw the engine's [TypeError]
    for a read of [type] on [undefined].  The tokenizer drops the
    parenthesis with the name and the parser runs past the tokens. *)
Theorem compiler_call_without_space body name :
  forallb lexical body = true ->
  negb (is_empty name) && sforall LETTERS name = true ->
  compiler (show (Src.Program body) ++ "(" ++ name ++ ")") =
    Throw (UndefinedRead "type").
Proof.
  intros Hb Hn. destruct (lexical_program body Hb) as [He Hok].
  rewrite compiler_eq_compile.
  rewrite (compile_tokens _
             (flatten (Src.Program body) ++ [mk "paren" "("; mk "name" name])
             (Throw (UndefinedRead "type")));
    [reflexivity | | now apply body_on_open_at_end].
  unfold show. rewrite lex_unlex_app by exact Hok.
  rewrite append_String, append_empty, lex_paren by reflexivity.
  rewrite (lex_name_then name ")" "") by (assumption || reflexivity).
  now rewrite lex_empty.
Qed.

Lemma compiler_call_without_space_witness :
  compiler (show (Src.Program [Src.CallExpression "f" [Src.NumberLiteral "1"]]) ++
            "(" ++ "a" ++ ")") = Throw (UndefinedRead "type").
Proof. apply compiler_call_without_space; reflexivity. Defined.

(** C24: The character after a name is ignored, whatever it is: in the
    text of a program, replacing the space after the name of a top-level
    call by any character that is not a letter (a digit, a quote, a
    parenthesis, a character of no class) gives the same output, with no
    exception. *)
Theorem compiler_ignores_after_name pre name d params post :
  forallb lexical (pre ++ Src.CallExpression name params :: post) = true ->
  LETTERS d = false ->
  compiler (show (Src.Program pre) ++ "( " ++ name ++
            String d (unlex (flat_map flatten params ++ [mk "paren" ")"]) ++
                      show (Src.Program post))) =
  Done (emit_program (Src.Program (pre ++ Src.CallExpression name params :: post))).
Proof.
  intros H Hd. rewrite compiler_eq_compile.
  apply compile_flatten; [now apply lex_call_after_name|].
  now destruct (lexical_program _ H).
Qed.

Lemma compiler_ignores_after_name_witness :
  compiler (show (Src.Program []) ++ "( " ++ "add" ++
            String "2" (unlex (flat_map flatten [Src.NumberLiteral "3"] ++
                               [mk "paren" ")"]) ++ show (Src.Program []))) =
  Done (emit_program (Src.Program ([] ++ [Src.CallExpression "add" [Src.NumberLiteral "3"]]))).
Proof. apply compiler_ignores_after_name; reflexivity. Defined.

(** C22: [compiler] fails to return exactly when one of the two inner
    loops of the tokenizer does not stop; an input that ends in a letter
    is never compiled. *)
Theorem compiler_diverges input :
  (compiler input = OutOfFuel <-> lex input = OutOfFuel) /\
  (last_is LETTERS input = true -> forall output, compiler input <> Done output).
Proof.
  rewrite compiler_eq_compile. split; [apply compile_OutOfFuel|].
  intros Hl output H. apply compile_Done in H as (tokens & _ & L & _).
  now apply lex_trailing_letter in L.
Qed.

Lemma compiler_diverges_witness :
  last_is LETTERS "(add 2 b" = true /\
  (forall output, compiler "(add 2 b" <> Done output) /\
  compiler "(add 2 b" = OutOfFuel.
Proof.
  split; [reflexivity|]. split.
  - apply (proj2 (compiler_diverges "(add 2 b")). reflexivity.
  - reflexivity.
Defined.

(** The inputs the specification lists as scenarios: the two calls
    closed right after a name throw, the same calls with a space after
    each name compile, and a digit after a name is lost. *)
Example compiler_scenarios :
  compiler "(a)" = Throw (UndefinedRead "type") /\
  compiler "(a (b) (c))" = Throw (UndefinedRead "type") /\
  compiler "(a )" = Done "a();" /\
  compiler "(a (b ) (c ))" = Done "a(b(), c());" /\
  compiler "(add2 3)" = Done "add(3);".
Proof. repeat split; vm_compute; reflexivity. Qed.

(** On the input of the repository's test, [compiler] returns the
    output the test expects. *)
Example compiler_fixture :
  compiler "(add 2 (subtract 4 2))" = Done "add(2, subtract(4, 2));".
Proof. vm_compute. reflexivity. Qed.

